(** * sift: the retrieval engine, embedded in Rocq

    A shallow embedding of the Go packages [internal/hnsw] (graph and binary
    persistence), [internal/chunker] and [internal/index], followed by the
    theorems that settle the properties stated for them.

    Conventions of the embedding.
    - Go [int] is [Z]; the fixed-width types of the wire format ([uint8],
      [uint16], [uint32]) are [Z] with the truncation written out.
    - [float32] is its IEEE-754 binary32 bit pattern (what [math.Float32bits]
      returns); arithmetic goes through the Standard Library's [SpecFloat]
      at precision 24, comparison through the sign-magnitude order.
    - Run-time panics (index out of range, slice bounds, negative [make])
      are the [Fault] outcomes of the [exec] monad.
    - Loops of unknown length take a bound on their iterations; going past
      the bound is the fault [FuelExhausted], shown further down never to
      be produced. *)

From Stdlib Require Import ZArith Lia List Bool String Ascii.
From Stdlib Require Import Floats.SpecFloat.
From Stdlib Require Import Reals Lra.
From Stdlib Require Import Sorting.Sorted.
From stdpp Require Import base tactics option list gmap sets strings.

Local Open Scope Z_scope.

(** ** Run-time outcomes *)

Inductive fault : Type :=
| IndexOutOfRange   (* a[i] with i outside the slice *)
| SliceBounds       (* a[i:j] with bad bounds *)
| MakeLen           (* make([]T, n) with negative n *)
| FuelExhausted.    (* iteration bound of the embedding exceeded *)

Inductive exec (A : Type) : Type :=
| Ret (a : A)
| Fault (f : fault).
Arguments Ret {A} a.
Arguments Fault {A} f.

#[global] Instance exec_ret : MRet exec := fun A a => Ret a.
#[global] Instance exec_bind : MBind exec := fun A B k e =>
  match e with
  | Ret a => k a
  | Fault f => Fault f
  end.

(** [foldM f l a] runs [f] over [l] from the left, threading the state. *)
Fixpoint foldM {A B : Type} (f : A -> B -> exec A) (l : list B) (a : A) : exec A :=
  match l with
  | [] => Ret a
  | b :: l' => a' ← f a b; foldM f l' a'
  end.

Fixpoint mapM_exec {A B : Type} (f : A -> exec B) (l : list A) : exec (list B) :=
  match l with
  | [] => Ret []
  | a :: l' => b ← f a; bs ← mapM_exec f l'; Ret (b :: bs)
  end.

(** [l[i]] for a Go [int] or [uint32] index. *)
Definition index {A : Type} (l : list A) (i : Z) : exec A :=
  if i <? 0 then Fault IndexOutOfRange
  else match l !! Z.to_nat i with
       | Some x => Ret x
       | None => Fault IndexOutOfRange
       end.

(** [len(l)] as a Go [int]. *)
Definition len {A : Type} (l : list A) : Z := Z.of_nat (length l).

Definition uint8 (z : Z) : Z := z mod 2 ^ 8.
Definition uint16 (z : Z) : Z := z mod 2 ^ 16.
Definition uint32 (z : Z) : Z := z mod 2 ^ 32.

(** ** float32 *)

Module f32.

(** IEEE-754 binary32: 24 bits of precision, infinities at exponent 128. *)
Definition prec : Z := 24.
Definition emax : Z := 128.

Definition sign (b : Z) : bool := Z.testbit b 31.
Definition expo (b : Z) : Z := Z.land (Z.shiftr b 23) 255.
Definition frac (b : Z) : Z := Z.land b (2 ^ 23 - 1).

Definition to_SF (b : Z) : spec_float :=
  let s := sign b in
  let e := expo b in
  let f := frac b in
  if e =? 255 then (if f =? 0 then S754_infinity s else S754_nan)
  else if e =? 0 then
    match f with
    | Zpos p => S754_finite s p (-149)
    | _ => S754_zero s
    end
  else
    match f + 2 ^ 23 with
    | Zpos p => S754_finite s p (e - 150)
    | _ => S754_nan
    end.

Definition signbit (s : bool) : Z := if s then 2 ^ 31 else 0.

(** Every NaN is written back as the quiet NaN 0x7FC00000; no comparison
    below tells one NaN from another. *)
Definition of_SF (x : spec_float) : Z :=
  match x with
  | S754_zero s => signbit s
  | S754_infinity s => signbit s + 255 * 2 ^ 23
  | S754_nan => 255 * 2 ^ 23 + 2 ^ 22
  | S754_finite s mant e =>
      if Zpos mant <? 2 ^ 23 then signbit s + Zpos mant
      else signbit s + (e + 150) * 2 ^ 23 + (Zpos mant - 2 ^ 23)
  end.

Definition zero : Z := 0.
Definition add (a b : Z) : Z := of_SF (SFadd prec emax (to_SF a) (to_SF b)).
Definition mul (a b : Z) : Z := of_SF (SFmul prec emax (to_SF a) (to_SF b)).

(** [float32(n)] for a Go [int]. *)
Definition of_int (n : Z) : Z := of_SF (binary_normalize prec emax n 0 false).

Definition is_nan (b : Z) : bool := (expo b =? 255) && negb (frac b =? 0).

(** Sign-magnitude key: on non-NaN patterns the IEEE order is the order
    of the keys, and the two zeros share the key 0. *)
Definition key (b : Z) : Z :=
  let mag := Z.land b (2 ^ 31 - 1) in
  if sign b then - mag else mag.

Definition lt (a b : Z) : bool :=
  negb (is_nan a) && negb (is_nan b) && (key a <? key b).
Definition gt (a b : Z) : bool := lt b a.

End f32.

(** ** Package hnsw *)

Module hnsw.

Definition DefaultM : Z := 16.
Definition DefaultEfConstruction : Z := 200.
Definition DefaultEfSearch : Z := 50.

Record Result : Type := mkResult { ID : Z; Score : Z }.

Record node : Type := mkNode {
  neighbors : list (list Z);
  vec : list Z
}.

(** The struct field [ml] is left out of the record: [New] and
    [import_ml] are its only writers and both derive it from [m], so it is
    the function [ml] below. [rng] is the number of draws made so far from
    the source seeded with 42. *)
Record Graph : Type := mkGraph {
  nodes : list node;
  entryPoint : Z;
  maxLayer : Z;
  m : Z;
  efConstruction : Z;
  efSearch : Z;
  rng : nat
}.

Definition New (m0 efConstruction0 efSearch0 : Z) : Graph :=
  let m1 := if m0 <=? 0 then DefaultM else m0 in
  let efc := if efConstruction0 <=? 0 then DefaultEfConstruction else efConstruction0 in
  let efs := if efSearch0 <=? 0 then DefaultEfSearch else efSearch0 in
  {| nodes := []; entryPoint := 0; maxLayer := 0;
     m := m1; efConstruction := efc; efSearch := efs; rng := 0%nat |}.

(** The level factor as the real number the float64 expression
    [1.0 / math.Log(float64(m))] stands for; [import_ml] leaves the zero
    value in place when [m] is not positive. *)
Definition ml (g : Graph) : R :=
  if 0 <? m g then (1 / ln (IZR (m g)))%R else 0%R.

Definition Len (g : Graph) : Z := len (nodes g).

Fixpoint sim_from (sum : Z) (a b : list Z) : exec Z :=
  match a with
  | [] => Ret sum
  | x :: a' =>
      match b with
      | [] => Fault IndexOutOfRange
      | y :: b' => sim_from (f32.add sum (f32.mul x y)) a' b'
      end
  end.

(** [for i := range a { sum += a[i] * b[i] }]: the index runs over [a], so
    a shorter [b] is an index out of range and a longer [b] is cut. *)
Definition sim (a b : list Z) : exec Z := sim_from f32.zero a b.

Record candidate : Type := mkCand { id : Z; dist : Z }.

(** *** container/heap on [maxHeap] *)

Definition Less (h : list candidate) (i j : nat) : bool :=
  match h !! i, h !! j with
  | Some a, Some b => f32.gt (dist a) (dist b)
  | _, _ => false
  end.

Definition Swap (h : list candidate) (i j : nat) : list candidate :=
  match h !! i, h !! j with
  | Some a, Some b => <[i := b]> (<[j := a]> h)
  | _, _ => h
  end.

Fixpoint up (fuel : nat) (h : list candidate) (j : nat) : list candidate :=
  match fuel with
  | O => h
  | S fuel' =>
      let i := ((j - 1) / 2)%nat in
      if (i =? j)%nat || negb (Less h j i) then h
      else up fuel' (Swap h i j) i
  end.

Fixpoint down (fuel : nat) (h : list candidate) (i n : nat) : list candidate :=
  match fuel with
  | O => h
  | S fuel' =>
      let j1 := (2 * i + 1)%nat in
      if (n <=? j1)%nat then h
      else
        let j := if (j1 + 1 <? n)%nat && Less h (j1 + 1) j1 then (j1 + 1)%nat else j1 in
        if negb (Less h j i) then h
        else down fuel' (Swap h i j) j n
  end.

Definition heap_Init (h : list candidate) : list candidate :=
  let n := length h in
  fold_left (fun h' i => down n h' i n) (rev (seq 0 (n / 2))) h.

Definition heap_Push (h : list candidate) (x : candidate) : list candidate :=
  up (S (length h)) (h ++ [x]) (length h).

Definition heap_Pop (h : list candidate) : option (candidate * list candidate) :=
  let n := (length h - 1)%nat in
  let h' := down (length h) (Swap h 0 n) 0 n in
  match h' !! n with
  | Some x => Some (x, take n h')
  | None => None
  end.

(** *** The exchange sort of [searchLayer] and [pruneNeighbours]

    [for i { for j := i+1.. { if W[j].dist > W[i].dist { swap } } }]:
    [sweep x rest] is the inner loop for one [i], with [x] the value held
    at position [i] and [rest] the positions after it. *)
Fixpoint sweep (x : candidate) (rest : list candidate) : candidate * list candidate :=
  match rest with
  | [] => (x, [])
  | y :: r =>
      if f32.gt (dist y) (dist x)
      then let '(x', r') := sweep y r in (x', x :: r')
      else let '(x', r') := sweep x r in (x', y :: r')
  end.

Fixpoint sortDesc_n (n : nat) (W : list candidate) : list candidate :=
  match n, W with
  | S n', x :: rest => let '(x', rest') := sweep x rest in x' :: sortDesc_n n' rest'
  | _, _ => W
  end.

Definition sortDesc (W : list candidate) : list candidate :=
  sortDesc_n (length W) W.

Section WithRng.

(** [randLevel m i] is the level [int(math.Floor(-math.Log(u) * ml))]
    that [randomLevel] returns for the [i]-th draw [u] of
    [rand.New(rand.NewSource(42))] in a graph of parameter [m]. The
    generator of math/rand is not part of the repository. *)
Variable randLevel : Z -> nat -> nat.

Definition randomLevel (g : Graph) : Z := Z.of_nat (randLevel (m g) (rng g)).

(** One pass of the [for changed] loop. The range expression is
    evaluated once, so the pass goes through the list of the node that
    was [best] when the pass began. *)
Definition greedyPass (g : Graph) (query : list Z) (lc : Z) (best bestSim : Z)
  : exec (Z * Z * bool) :=
  nd ← index (nodes g) best;
  if lc <? len (neighbors nd) then
    nbs ← index (neighbors nd) lc;
    foldM (fun '(b, bs, ch) nb =>
             nd' ← index (nodes g) nb;
             s ← sim query (vec nd');
             if f32.gt s bs then Ret (nb, s, true) else Ret (b, bs, ch))
          nbs (best, bestSim, false)
  else Ret (best, bestSim, false).

Fixpoint greedyLoop (fuel : nat) (g : Graph) (query : list Z) (lc : Z)
    (best bestSim : Z) : exec Z :=
  match fuel with
  | O => Fault FuelExhausted
  | S fuel' =>
      '(b, bs, ch) ← greedyPass g query lc best bestSim;
      if ch : bool then greedyLoop fuel' g query lc b bs else Ret b
  end.

Definition greedySearchLayer (g : Graph) (query : list Z) (ep lc : Z) : exec Z :=
  nd ← index (nodes g) ep;
  bestSim ← sim query (vec nd);
  greedyLoop (S (length (nodes g))) g query lc ep bestSim.

(** State of the beam search: visited set, heap C, result set W and the
    cached minimum of W. *)
Record beam : Type := mkBeam {
  visited : gset Z;
  heapC : list candidate;
  setW : list candidate;
  worstSim : Z
}.

Definition minSimInW (W : list candidate) : exec Z :=
  match W with
  | [] => Fault IndexOutOfRange
  | c :: rest =>
      Ret (fold_left (fun mn c' => if f32.lt (dist c') mn then dist c' else mn)
                     rest (dist c))
  end.

(** Index of the first minimum of [W] ([minIdx] of the linear scan). *)
Definition minIdx (W : list candidate) : nat :=
  match W with
  | [] => 0%nat
  | c :: rest =>
      fst (fold_left (fun '(mi, md, i) c' =>
                        if f32.lt (dist c') md then (i, dist c', S i) else (mi, md, S i))
                     rest (0%nat, dist c, 1%nat)).1
  end.

(** [W[minIdx] = W[len(W)-1]; W = W[:len(W)-1]] *)
Definition dropWorst (W : list candidate) : list candidate :=
  match last W with
  | Some l => take (length W - 1) (<[minIdx W := l]> W)
  | None => W
  end.

Definition visit (g : Graph) (query : list Z) (ef : Z) (st : beam) (nb : Z)
  : exec beam :=
  if decide (nb ∈ visited st) then Ret st
  else
    let vis := {[nb]} ∪ visited st in
    nd ← index (nodes g) nb;
    s ← sim query (vec nd);
    if (len (setW st) <? ef) || f32.gt s (worstSim st) then
      let C' := heap_Push (heapC st) (mkCand nb s) in
      let W1 := setW st ++ [mkCand nb s] in
      let W2 := if ef <? len W1 then dropWorst W1 else W1 in
      worst ← minSimInW W2;
      Ret (mkBeam vis C' W2 worst)
    else Ret (mkBeam vis (heapC st) (setW st) (worstSim st)).

Fixpoint searchLoop (fuel : nat) (g : Graph) (query : list Z) (ef lc : Z)
    (st : beam) : exec (list candidate) :=
  match heap_Pop (heapC st) with
  | None => Ret (setW st)
  | Some (c, C') =>
      match fuel with
      | O => Fault FuelExhausted
      | S fuel' =>
          if (ef <=? len (setW st)) && f32.lt (dist c) (worstSim st)
          then Ret (setW st)
          else
            let st1 := mkBeam (visited st) C' (setW st) (worstSim st) in
            nd ← index (nodes g) (id c);
            st2 ← (if lc <? len (neighbors nd) then
                      nbs ← index (neighbors nd) lc;
                      foldM (visit g query ef) nbs st1
                    else Ret st1);
            searchLoop fuel' g query ef lc st2
      end
  end.

Definition searchLayer (g : Graph) (query : list Z) (ep ef lc : Z)
  : exec (list candidate) :=
  nd ← index (nodes g) ep;
  epSim ← sim query (vec nd);
  let st := mkBeam {[ep]} (heap_Init [mkCand ep epSim]) [mkCand ep epSim] epSim in
  W ← searchLoop (length (nodes g)) g query ef lc st;
  Ret (sortDesc W).

Definition selectNeighbours (candidates : list candidate) (m0 : Z) : exec (list Z) :=
  if len candidates <=? m0 then Ret (map id candidates)
  else if m0 <? 0 then Fault MakeLen
  else Ret (map id (take (Z.to_nat m0) candidates)).

Definition pruneNeighbours (g : Graph) (i : Z) (nbs : list Z) (maxConn : Z)
  : exec (list Z) :=
  scored ← mapM_exec (fun n =>
              a ← index (nodes g) i;
              b ← index (nodes g) n;
              s ← sim (vec a) (vec b);
              Ret (mkCand n s)) nbs;
  let sorted := sortDesc scored in
  kept ← (if maxConn <? len sorted then
            if maxConn <? 0 then Fault SliceBounds
            else Ret (take (Z.to_nat maxConn) sorted)
          else Ret sorted);
  Ret (map id kept).

Definition setNodes (g : Graph) (ns : list node) : Graph :=
  {| nodes := ns; entryPoint := entryPoint g; maxLayer := maxLayer g;
     m := m g; efConstruction := efConstruction g; efSearch := efSearch g;
     rng := rng g |}.

Definition setEntry (g : Graph) (ep lvl : Z) : Graph :=
  {| nodes := nodes g; entryPoint := ep; maxLayer := lvl;
     m := m g; efConstruction := efConstruction g; efSearch := efSearch g;
     rng := rng g |}.

(** [g.nodes[i].neighbors[lc] = l] *)
Definition setNeighbors (g : Graph) (i lc : Z) (l : list Z) : exec Graph :=
  nd ← index (nodes g) i;
  _ ← index (neighbors nd) lc;
  Ret (setNodes g (<[Z.to_nat i := mkNode (<[Z.to_nat lc := l]> (neighbors nd)) (vec nd)]>
                     (nodes g))).

Definition maxConnOf (g : Graph) (lc : Z) : Z :=
  if lc =? 0 then 2 * m g else m g.

(** Body of [for _, nb := range selected]. *)
Definition linkBack (i lc : Z) (g : Graph) (nb : Z) : exec Graph :=
  nd ← index (nodes g) nb;
  old ← index (neighbors nd) lc;
  g1 ← setNeighbors g nb lc (old ++ [i]);
  let maxConn := maxConnOf g lc in
  if maxConn <? len (old ++ [i]) then
    pruned ← pruneNeighbours g1 nb (old ++ [i]) maxConn;
    setNeighbors g1 nb lc pruned
  else Ret g1.

(** Body of the insertion loop for one layer; returns the graph and the
    entry point for the layer below. *)
Definition connectLayer (v : list Z) (i lc : Z) (g : Graph) (ep : Z)
  : exec (Graph * Z) :=
  candidates ← searchLayer g v ep (efConstruction g) lc;
  selected ← selectNeighbours candidates (m g);
  g1 ← setNeighbors g i lc selected;
  g2 ← foldM (linkBack i lc) selected g1;
  Ret (g2, match candidates with c :: _ => id c | [] => ep end).

(** [k] iterations of [for lc := ..; ..; lc--], greedy descent. *)
Fixpoint descend (k : nat) (g : Graph) (query : list Z) (ep lc : Z) : exec Z :=
  match k with
  | O => Ret ep
  | S k' => ep' ← greedySearchLayer g query ep lc; descend k' g query ep' (lc - 1)
  end.

Fixpoint connectLayers (k : nat) (v : list Z) (i : Z) (g : Graph) (ep lc : Z)
  : exec (Graph * Z) :=
  match k with
  | O => Ret (g, ep)
  | S k' => '(g', ep') ← connectLayer v i lc g ep; connectLayers k' v i g' ep' (lc - 1)
  end.

Definition Insert (v : list Z) (g : Graph) : exec Graph :=
  let i := uint32 (len (nodes g)) in
  let level := randomLevel g in
  let fresh := mkNode (replicate (Z.to_nat (level + 1)) []) v in
  let g0 := {| nodes := nodes g ++ [fresh]; entryPoint := entryPoint g;
               maxLayer := maxLayer g; m := m g;
               efConstruction := efConstruction g; efSearch := efSearch g;
               rng := S (rng g) |} in
  if i =? 0 then Ret (setEntry g0 0 level)
  else
    let epLevel := maxLayer g0 in
    ep ← descend (Z.to_nat (epLevel - level)) g0 v (entryPoint g0) epLevel;
    let top := Z.min level epLevel in
    '(g1, _) ← connectLayers (Z.to_nat (top + 1)) v i g0 ep top;
    Ret (if epLevel <? level then setEntry g1 i level else g1).

Definition Search (g : Graph) (query : list Z) (k : Z) : exec (list Result) :=
  if len (nodes g) =? 0 then Ret []
  else
    ep ← descend (Z.to_nat (maxLayer g)) g query (entryPoint g) (maxLayer g);
    let ef := if efSearch g <? k then k else efSearch g in
    candidates ← searchLayer g query ep ef 0;
    top ← (if k <? len candidates then
             if k <? 0 then Fault SliceBounds else Ret (take (Z.to_nat k) candidates)
           else Ret candidates);
    Ret (map (fun c => mkResult (id c) (dist c)) top).

(** A sequence of [Insert] calls, first vector first. *)
Definition InsertAll (vs : list (list Z)) (g : Graph) : exec Graph :=
  foldM (fun g' v => Insert v g') vs g.

End WithRng.

(** *** persist.go *)

(** The file system as far as persistence sees it: the bytes stored under
    each path. *)
Abbreviation FS := (gmap (list Z) (list Z)).

Definition magic : list Z := [83; 72; 78; 87].   (* "SHNW" *)
Definition formatVersion : Z := 1.

(** [binary.Write(w, binary.LittleEndian, v)] for an [n]-byte integer. *)
Fixpoint le_bytes (n : nat) (z : Z) : list Z :=
  match n with
  | O => []
  | S n' => z mod 256 :: le_bytes n' (z / 256)
  end.

Fixpoint le_value (bs : list Z) : Z :=
  match bs with
  | [] => 0
  | b :: bs' => b + 256 * le_value bs'
  end.

Definition writeU8 (v : Z) : list Z := le_bytes 1 v.
Definition writeU16 (v : Z) : list Z := le_bytes 2 v.
Definition writeU32 (v : Z) : list Z := le_bytes 4 v.
Definition writeF32 (v : Z) : list Z := le_bytes 4 v.

Definition writeLayer (layer : list Z) : list Z :=
  writeU16 (uint16 (len layer)) ++ flat_map writeU32 layer.

Definition writeNode (n : node) : list Z :=
  writeU8 (uint8 (len (neighbors n)))
  ++ writeU16 (uint16 (len (vec n)))
  ++ flat_map writeF32 (vec n)
  ++ flat_map writeLayer (neighbors n).

(** The bytes [Save] hands to the file, in order. *)
Definition encode (g : Graph) : list Z :=
  magic
  ++ writeU16 formatVersion
  ++ writeU32 (uint32 (len (nodes g)))
  ++ writeU32 (entryPoint g)
  ++ writeU8 (uint8 (maxLayer g))
  ++ writeU16 (uint16 (m g))
  ++ writeU16 (uint16 (efConstruction g))
  ++ writeU16 (uint16 (efSearch g))
  ++ flat_map writeNode (nodes g).

(** [Save] with a file system that accepts the write: [os.Create]
    truncates or creates the file, and the writer's error stays nil. *)
Definition Save (path : list Z) (g : Graph) (fs : FS) : FS :=
  <[path := encode g]> fs.

(** [binaryReader]: the unread bytes and the first error. *)
Record binaryReader : Type := mkReader { unread : list Z; failed : bool }.

Definition Reader (A : Type) : Type := binaryReader -> A * binaryReader.

Definition retR {A : Type} (a : A) : Reader A := fun br => (a, br).
Definition bindR {A B : Type} (x : Reader A) (k : A -> Reader B) : Reader B :=
  fun br => let '(a, br') := x br in k a br'.

Notation "x <~ e ;; k" := (bindR e (fun x => k))
  (at level 100, e at next level, k at level 200, right associativity).

(** [br.read(&v)] for [n] bytes: nothing is read once an error is set; a
    short read sets the error and leaves [v] at its zero value. *)
Definition readN (n : nat) : Reader (list Z) := fun br =>
  if failed br then (replicate n 0, br)
  else if (length (unread br) <? n)%nat then (replicate n 0, mkReader [] true)
  else (take n (unread br), mkReader (drop n (unread br)) false).

Definition readU8 : Reader Z := bs <~ readN 1 ;; retR (le_value bs).
Definition readU16 : Reader Z := bs <~ readN 2 ;; retR (le_value bs).
Definition readU32 : Reader Z := bs <~ readN 4 ;; retR (le_value bs).
Definition readF32 : Reader Z := bs <~ readN 4 ;; retR (le_value bs).

(** [for j := range make([]T, n) { s[j] = read() }] *)
Fixpoint readMany {A : Type} (n : nat) (rd : Reader A) : Reader (list A) :=
  match n with
  | O => retR []
  | S n' => a <~ rd ;; rest <~ readMany n' rd ;; retR (a :: rest)
  end.

Definition readLayer : Reader (list Z) :=
  nbCount <~ readU16 ;; readMany (Z.to_nat nbCount) readU32.

Definition readNode : Reader node :=
  layerCount <~ readU8 ;;
  vecLen <~ readU16 ;;
  v <~ readMany (Z.to_nat vecLen) readF32 ;;
  nbs <~ readMany (Z.to_nat layerCount) readLayer ;;
  retR (mkNode nbs v).

Inductive LoadError : Type :=
| ErrOpen                       (* "open %s: ..." *)
| ErrMagic                      (* "invalid magic bytes ..." *)
| ErrVersion (version : Z)      (* "unsupported version ..." *)
| ErrHeader                     (* "read header: ..." *)
| ErrNodes.                     (* "read nodes: ..." *)

Definition decode (bytes : list Z) : LoadError + Graph :=
  let br := mkReader bytes false in
  let '(gotMagic, br) := readN 4 br in
  if negb (bool_decide (gotMagic = magic)) then inl ErrMagic
  else
    let '(version, br) := readU16 br in
    if negb (version =? formatVersion) then inl (ErrVersion version)
    else
      let '(nodeCount, br) := readU32 br in
      let '(entryPoint0, br) := readU32 br in
      let '(maxLayer0, br) := readU8 br in
      let '(m0, br) := readU16 br in
      let '(efConstruction0, br) := readU16 br in
      let '(efSearch0, br) := readU16 br in
      if failed br then inl ErrHeader
      else
        let '(nodes0, br) := readMany (Z.to_nat nodeCount) readNode br in
        if failed br then inl ErrNodes
        else inr {| nodes := nodes0; entryPoint := entryPoint0; maxLayer := maxLayer0;
                    m := m0; efConstruction := efConstruction0; efSearch := efSearch0;
                    rng := 0%nat |}.

Definition Load (path : list Z) (fs : FS) : LoadError + Graph :=
  match fs !! path with
  | None => inl ErrOpen
  | Some bytes => decode bytes
  end.

End hnsw.

(** ** Go strings

    A Go string is its sequence of bytes. [str] turns a literal of this
    file into one. The functions of package strings that the code calls
    are given on ASCII: bytes from 0x80 on are neither white space nor
    letters here, where Go would decode them as UTF-8. *)

Definition str (s : string) : list Z :=
  map (fun a => Z.of_N (N_of_ascii a)) (list_ascii_of_string s).

Module strings.

(** White space of [strings.TrimSpace] and [strings.Fields]. *)
Definition isSpace (b : Z) : bool :=
  (b =? 9) || (b =? 10) || (b =? 11) || (b =? 12) || (b =? 13) || (b =? 32).

Definition inCutset (cutset : list Z) (b : Z) : bool :=
  existsb (Z.eqb b) cutset.

Fixpoint dropWhile (p : Z -> bool) (s : list Z) : list Z :=
  match s with
  | [] => []
  | b :: s' => if p b then dropWhile p s' else s
  end.

Definition TrimLeft (s cutset : list Z) : list Z := dropWhile (inCutset cutset) s.

Definition TrimSpace (s : list Z) : list Z :=
  rev (dropWhile isSpace (rev (dropWhile isSpace s))).

Fixpoint HasPrefix (s prefix : list Z) : bool :=
  match prefix, s with
  | [], _ => true
  | p :: prefix', b :: s' => (b =? p) && HasPrefix s' prefix'
  | _ :: _, [] => false
  end.

Fixpoint Index_from (i : Z) (s substr : list Z) : Z :=
  if HasPrefix s substr then i
  else match s with
       | [] => -1
       | _ :: s' => Index_from (i + 1) s' substr
       end.

Definition Index (s substr : list Z) : Z := Index_from 0 s substr.

Definition Contains (s substr : list Z) : bool := 0 <=? Index s substr.

Fixpoint LastIndex_from (i found : Z) (s substr : list Z) : Z :=
  let found' := if HasPrefix s substr then i else found in
  match s with
  | [] => found'
  | _ :: s' => LastIndex_from (i + 1) found' s' substr
  end.

Definition LastIndex (s substr : list Z) : Z := LastIndex_from 0 (-1) s substr.

Definition IndexByte (s : list Z) (c : Z) : Z := Index s [c].
Definition LastIndexByte (s : list Z) (c : Z) : Z := LastIndex s [c].

(** [bytes.Count(s, sep)] for a one-byte separator. *)
Definition CountByte (s : list Z) (c : Z) : Z := len (filter (fun b => b = c) s).

Definition lowerByte (b : Z) : Z :=
  if (65 <=? b) && (b <=? 90) then b + 32 else b.

Definition ToLower (s : list Z) : list Z := map lowerByte s.

(** [strings.Fields]: the maximal runs of non-space bytes. [cur] is the
    field being read, last byte first. *)
Fixpoint Fields_from (cur : list Z) (s : list Z) : list (list Z) :=
  match s with
  | [] => match cur with [] => [] | _ => [rev cur] end
  | b :: s' =>
      if isSpace b
      then match cur with
           | [] => Fields_from [] s'
           | _ => rev cur :: Fields_from [] s'
           end
      else Fields_from (b :: cur) s'
  end.

Definition Fields (s : list Z) : list (list Z) := Fields_from [] s.

End strings.

(** [s[lo:hi]] *)
Definition slice {A : Type} (s : list A) (lo hi : Z) : exec (list A) :=
  if (0 <=? lo) && (lo <=? hi) && (hi <=? len s)
  then Ret (take (Z.to_nat (hi - lo)) (drop (Z.to_nat lo) s))
  else Fault SliceBounds.

(** ** The operating system and the embedder

    What the calls into [os], the embedder and the context answer. The
    answers are independent of one another: a file may be opened by one call
    and gone at the next. *)

Record FileInfo : Type := mkFileInfo {
  Size : Z;
  ModTime : Z;        (* the instant, as [time.Time.Equal] and [After] see it *)
  IsDir : bool
}.

Record World : Type := mkWorld {
  os_Open : list Z -> option (list Z);       (* content behind the handle; None: open fails *)
  os_Stat : list Z -> option FileInfo;
  os_ReadFile : list Z -> option (list Z);
  embed_Embed : list (list Z) -> option (list (list Z));
  embed_EmbedQuery : list Z -> option (list Z);
  ctx_Err : nat -> bool;                     (* is ctx cancelled at the n-th check of a call *)
  time_Now : Z
}.

(** ** Package chunker *)

Module chunker.

Definition SupportedExtensions : gmap (list Z) bool :=
  list_to_map (map (fun e => (str e, true))
    [".md"; ".txt"; ".go"; ".py"; ".js"; ".ts"; ".rs"; ".c";
     ".cpp"; ".h"; ".json"; ".yaml"; ".yml"; ".toml"; ".kdl"; ".conf"]%string).

Record Chunk : Type := mkChunk {
  Path : list Z;
  Text : list Z;
  LineNum : Z;
  StartByte : Z;
  EndByte : Z;
  Index : Z
}.

Record Options : Type := mkOptions { MaxBytes : Z; OverlapBytes : Z }.

Definition DefaultOptions : Options := {| MaxBytes := 1200; OverlapBytes := 250 |}.

(** [filepath.Ext]: scan from the end up to the last path separator;
    [acc] is the suffix read so far. *)
Fixpoint Ext_scan (rpath acc : list Z) : list Z :=
  match rpath with
  | [] => []
  | b :: r' =>
      if b =? 47 then []                      (* '/' *)
      else if b =? 46 then b :: acc           (* '.' *)
      else Ext_scan r' (b :: acc)
  end.

Definition Ext (path : list Z) : list Z := Ext_scan (rev path) [].

Definition isBinary (w : World) (path : list Z) : bool :=
  match os_Open w path with
  | None => true
  | Some content => bool_decide (0 ∈ take 512 content)
  end.

Definition IsSupportedFile (w : World) (path : list Z) : bool :=
  let ext := strings.ToLower (Ext path) in
  if negb (default false (SupportedExtensions !! ext)) then false
  else negb (isBinary w path).

Definition cutset : list Z := [32; 9; 10; 13].   (* " \t\n\r" *)

(** The [Chunk] literal appended for the window [start, stop). *)
Definition makeChunk (data path : list Z) (start stop chunkIdx : Z) : exec Chunk :=
  window ← slice data start stop;
  let leadingSpaces := len window - len (strings.TrimLeft window cutset) in
  before ← slice data 0 (start + leadingSpaces);
  Ret {| Path := path;
         Text := strings.TrimSpace window;
         LineNum := 1 + strings.CountByte before 10;
         StartByte := start;
         EndByte := stop;
         Index := chunkIdx |}.

(** The split point for the window [start, end_). *)
Definition bestSplit (text : list Z) (start end_ : Z) : exec Z :=
  window ← slice text start end_;
  let i := strings.LastIndex window [10; 10] in
  if negb (i =? -1) then Ret (i + start + 2)
  else
    let i := strings.LastIndex window [10] in
    if negb (i =? -1) then Ret (i + start + 1)
    else
      let i := strings.LastIndexByte window 32 in
      if negb (i =? -1) then Ret (i + start + 1)
      else Ret end_.

(** Where the next chunk starts. *)
Definition nextStart (text : list Z) (start split overlapBytes : Z) : exec Z :=
  let overlapStart := split - overlapBytes in
  if overlapStart <=? start then Ret (start + 1)
  else
    w ← slice text overlapStart split;
    let nextNL := strings.IndexByte w 10 in
    if negb (nextNL =? -1) then Ret (overlapStart + nextNL + 1)
    else
      let nextSp := strings.IndexByte w 32 in
      if negb (nextSp =? -1) then Ret (overlapStart + nextSp + 1)
      else Ret overlapStart.

(** The [for start < len(text)] loop; returns the chunks appended from
    this iteration on. *)
Fixpoint chunkLoop (fuel : nat) (text path : list Z) (opts : Options)
    (start chunkIdx : Z) : exec (list Chunk) :=
  if start <? len text then
    match fuel with
    | O => Fault FuelExhausted
    | S fuel' =>
        let end_ := start + MaxBytes opts in
        if len text <=? end_ then
          c ← makeChunk text path start (len text) chunkIdx;
          Ret [c]
        else
          split ← bestSplit text start end_;
          c ← makeChunk text path start split chunkIdx;
          start' ← nextStart text start split (OverlapBytes opts);
          rest ← chunkLoop fuel' text path opts start' (chunkIdx + 1);
          Ret (c :: rest)
    end
  else Ret [].

Definition nonEmptyText (c : Chunk) : bool :=
  match Text c with [] => false | _ => true end.

(** The chunks before the final filter. *)
Definition rawChunks (data path : list Z) (opts : Options) : exec (list Chunk) :=
  chunkLoop (length data) data path opts 0 0.

Definition chunkBytes (data path : list Z) (opts : Options) : exec (list Chunk) :=
  match strings.TrimSpace data with
  | [] => Ret []
  | _ =>
      chunks ← rawChunks data path opts;
      Ret (filter (fun c => nonEmptyText c = true) chunks)
  end.

Inductive ChunkError : Type :=
| ErrStat
| ErrIsDir
| ErrRead.

Definition ChunkFile (w : World) (path : list Z) (opts : Options)
  : exec (ChunkError + list Chunk) :=
  let opts := if MaxBytes opts <=? 0 then DefaultOptions else opts in
  match os_Stat w path with
  | None => Ret (inl ErrStat)
  | Some info =>
      if IsDir info then Ret (inl ErrIsDir)
      else match os_ReadFile w path with
           | None => Ret (inl ErrRead)
           | Some data => cs ← chunkBytes data path opts; Ret (inr cs)
           end
  end.

End chunker.

(** ** Package index *)

Module index.

Definition hnswFile : list Z := str "hnsw.bin".
Definition metaFile : list Z := str "meta.json".

(** [filepath.Join(dir, name)] for a directory path that [filepath.Clean]
    leaves as it is. *)
Definition Join (dir name : list Z) : list Z := dir ++ [47] ++ name.

Record ChunkMeta : Type := mkChunkMeta {
  Path : list Z;
  LineNum : Z;
  StartByte : Z;
  EndByte : Z;
  ChunkIndex : Z;
  Text : list Z;
  Mtime : Z
}.

Record SearchResult : Type := mkSearchResult { Meta : ChunkMeta; Score : Z }.

(** The embedder handle is the [World]; the lock has no counterpart in a
    sequential embedding. *)
Record Index : Type := mkIndex {
  dir : list Z;
  graph : hnsw.Graph;
  chunks : list ChunkMeta;
  fileCache : gmap (list Z) Z;
  maxFileSizeBytes : Z;
  dirty : bool;
  lastUpdated : Z
}.

(** *** Open *)

(** What [os.ReadFile] followed by [json.Unmarshal] finds at meta.json. *)
Inductive MetaFile : Type :=
| MetaAbsent                          (* ReadFile fails: no index yet *)
| MetaGarbled                         (* Unmarshal fails *)
| MetaRecords (cs : list ChunkMeta).  (* the decoded array *)

Record Disk : Type := mkDisk {
  MkdirAll_ok : bool;
  embed_New_ok : bool;
  meta_json : list Z -> MetaFile;
  files : gmap (list Z) (list Z)
}.

Inductive OpenError : Type :=
| ErrMkdir
| ErrEmbedder
| ErrCorruptMeta                        (* "corrupt meta.json ..." *)
| ErrCorruptHnsw (e : hnsw.LoadError).  (* "corrupt hnsw.bin ..." *)

(** The skip-cache built from the loaded chunks. *)
Definition buildFileCache (cs : list ChunkMeta) : gmap (list Z) Z :=
  fold_left (fun cache c =>
               match cache !! Path c with
               | Some existing => if existing <? Mtime c then <[Path c := Mtime c]> cache else cache
               | None => <[Path c := Mtime c]> cache
               end) cs ∅.

Definition Open (d : Disk) (dir0 : list Z) (maxFileKB : Z) : OpenError + Index :=
  if negb (MkdirAll_ok d) then inl ErrMkdir
  else if negb (embed_New_ok d) then inl ErrEmbedder
  else
    let g0 := hnsw.New hnsw.DefaultM hnsw.DefaultEfConstruction hnsw.DefaultEfSearch in
    match meta_json d (Join dir0 metaFile) with
    | MetaGarbled => inl ErrCorruptMeta
    | mf =>
        let cs := match mf with MetaRecords cs => cs | _ => [] end in
        let hnswPath := Join dir0 hnswFile in
        let loaded :=
          match files d !! hnswPath with
          | Some _ =>
              match hnsw.Load hnswPath (files d) with
              | inl e => inl (ErrCorruptHnsw e)
              | inr g => inr g
              end
          | None => inr g0
          end in
        match loaded with
        | inl e => inl e
        | inr g =>
            inr {| dir := dir0; graph := g; chunks := cs;
                   fileCache := buildFileCache cs;
                   maxFileSizeBytes := maxFileKB * 1024;
                   dirty := false; lastUpdated := 0 |}
        end
    end.

(** *** AddFileCtx *)

(** Lines written to standard error. *)
Inductive Diag : Type :=
| DiagStat (path : list Z)                      (* "skip %s: %v" *)
| DiagTooLarge (path : list Z) (sizeKB limitKB : Z)
| DiagChunk (path : list Z)                     (* "skip %s: chunk error: %v" *)
| DiagEmbed (path : list Z)                     (* "skip %s: embed error: %v" *)
| DiagProgress (first last total : Z) (path : list Z)
| DiagNewline
| DiagClear.

Inductive AddError : Type :=
| CtxErr.     (* ctx.Err() *)

(** The two results of [AddFileCtx], the index it leaves and what it wrote
    to standard error. *)
Record Added : Type := mkAdded {
  skipped : bool;
  err : option AddError;
  after : Index;
  stderr : list Diag
}.

Definition batchSize : Z := 4.

Inductive Embedded : Type :=
| EmbCancelled (log : list Diag)
| EmbFailed (log : list Diag)
| EmbDone (vecs : list (list Z)) (log : list Diag).

(** [k] iterations of [for start := 0; start < nChunks; start += batchSize]. *)
Fixpoint embedBatches (k : nat) (w : World) (path : list Z) (cs : list chunker.Chunk)
    (verbose : bool) (check : nat) (start : Z) (vecs : list (list Z)) (log : list Diag)
  : Embedded :=
  match k with
  | O => EmbDone vecs log
  | S k' =>
      if ctx_Err w check then EmbCancelled log
      else
        let nChunks := len cs in
        let stop := if nChunks <? start + batchSize then nChunks else start + batchSize in
        let batch := map chunker.Text
                       (take (Z.to_nat (stop - start)) (drop (Z.to_nat start) cs)) in
        let log1 := if verbose then log ++ [DiagProgress (start + 1) stop nChunks path] else log in
        match embed_Embed w batch with
        | None =>
            EmbFailed ((if verbose then log1 ++ [DiagNewline] else log1) ++ [DiagEmbed path])
        | Some batchVecs =>
            embedBatches k' w path cs verbose (S check) (start + batchSize)
                         (vecs ++ batchVecs) log1
        end
  end.

Definition preview (text : list Z) : list Z :=
  if 200 <? len text then take 197 text ++ str "..." else text.

Section WithRng.

Variable randLevel : Z -> nat -> nat.

(** Body of [for i, vec := range vecs] under the write lock. *)
Definition appendChunk (path : list Z) (mtime : Z) (cs : list chunker.Chunk)
    (st : Index * Z) (v : list Z) : exec (Index * Z) :=
  let '(idx, i) := st in
  c ← index cs i;
  let meta := {| Path := path;
                 LineNum := chunker.LineNum c;
                 StartByte := chunker.StartByte c;
                 EndByte := chunker.EndByte c;
                 ChunkIndex := chunker.Index c;
                 Text := preview (chunker.Text c);
                 Mtime := mtime |} in
  g ← hnsw.Insert randLevel v (graph idx);
  Ret ({| dir := dir idx; graph := g; chunks := chunks idx ++ [meta];
          fileCache := fileCache idx; maxFileSizeBytes := maxFileSizeBytes idx;
          dirty := dirty idx; lastUpdated := lastUpdated idx |}, i + 1).

Definition AddFileCtx (w : World) (idx : Index) (path : list Z) : exec Added :=
  if negb (chunker.IsSupportedFile w path) then Ret (mkAdded false None idx [])
  else
    match os_Stat w path with
    | None => Ret (mkAdded false None idx [DiagStat path])
    | Some info =>
        if maxFileSizeBytes idx <? Size info then
          Ret (mkAdded false None idx
                 [DiagTooLarge path (Size info ÷ 1024) (maxFileSizeBytes idx ÷ 1024)])
        else
          let mtime := ModTime info in
          if bool_decide (fileCache idx !! path = Some mtime) then
            Ret (mkAdded true None idx [])
          else
            r ← chunker.ChunkFile w path chunker.DefaultOptions;
            match r with
            | inl _ => Ret (mkAdded false None idx [DiagChunk path])
            | inr [] => Ret (mkAdded false None idx [])
            | inr cs =>
                let nChunks := len cs in
                let verbose := 4 <? nChunks in
                let trips := Z.to_nat ((nChunks + batchSize - 1) / batchSize) in
                match embedBatches trips w path cs verbose 0 0 [] [] with
                | EmbCancelled log => Ret (mkAdded false (Some CtxErr) idx log)
                | EmbFailed log => Ret (mkAdded false None idx log)
                | EmbDone vecs log =>
                    let log' := if verbose then log ++ [DiagClear] else log in
                    '(idx1, _) ← foldM (appendChunk path mtime cs) vecs (idx, 0);
                    Ret (mkAdded false None
                           {| dir := dir idx1; graph := graph idx1; chunks := chunks idx1;
                              fileCache := <[path := mtime]> (fileCache idx1);
                              maxFileSizeBytes := maxFileSizeBytes idx1;
                              dirty := true; lastUpdated := time_Now w |}
                           log')
                end
            end
    end.

End WithRng.

(** *** Search *)

Record scoredHit : Type := mkScoredHit {
  meta : ChunkMeta;
  score : Z;
  text : list Z
}.

(** The float32 constant 0.05, bit pattern 0x3D4CCCCD. *)
Definition boostPerWord : Z := 1028443341.

(** [f.ReadAt(buf, off)] with [len(buf) = n] on a file of the given
    content: an error unless the buffer is filled. *)
Definition ReadAt (content : list Z) (off n : Z) : option (list Z) :=
  if off <? 0 then None
  else if n =? 0 then Some []
  else if off + n <=? len content
       then Some (take (Z.to_nat n) (drop (Z.to_nat off) content))
       else None.

(** [matches] of the inner loop over [queryWords]. *)
Definition countMatches (queryWords : list (list Z)) (lowerText : list Z) : Z :=
  len (filter (fun wd => (2 <? len wd) && strings.Contains lowerText wd = true) queryWords).

Definition boosted (raw matches : Z) : Z :=
  f32.add raw (f32.mul (f32.of_int matches) boostPerWord).

(** Body of [for _, h := range hits]: the hit appended to [reranked], or
    none when the loop continues. *)
Definition rerankHit (w : World) (idx : Index) (queryWords : list (list Z))
    (h : hnsw.Result) : exec (option scoredHit) :=
  if len (chunks idx) <=? hnsw.ID h then Ret None
  else
    m ← index (chunks idx) (hnsw.ID h);
    match os_Open w (Path m) with
    | None => Ret (Some (mkScoredHit m (hnsw.Score h) []))
    | Some content =>
        if EndByte m - StartByte m <? 0 then Fault MakeLen
        else
          match ReadAt content (StartByte m) (EndByte m - StartByte m) with
          | None => Ret (Some (mkScoredHit m (hnsw.Score h) []))
          | Some buf =>
              let lowerText := strings.ToLower buf in
              let matches := countMatches queryWords lowerText in
              Ret (Some (mkScoredHit m (boosted (hnsw.Score h) matches) buf))
          end
    end.

Fixpoint rerank (w : World) (idx : Index) (queryWords : list (list Z))
    (hits : list hnsw.Result) : exec (list scoredHit) :=
  match hits with
  | [] => Ret []
  | h :: hits' =>
      r ← rerankHit w idx queryWords h;
      rest ← rerank w idx queryWords hits';
      Ret (match r with Some sh => sh :: rest | None => rest end)
  end.

(** The [less] handed to [sort.Slice]. *)
Definition less (a b : scoredHit) : bool := f32.gt (score a) (score b).

(** The last loop: at most [k] results, one per path. *)
Fixpoint dedup (k : Z) (reranked : list scoredHit) (seen : gset (list Z))
    (results : list SearchResult) : list SearchResult :=
  match reranked with
  | [] => results
  | h :: rest =>
      if k <=? len results then results
      else if decide (Path (meta h) ∈ seen) then dedup k rest seen results
      else dedup k rest ({[Path (meta h)]} ∪ seen)
                 (results ++ [mkSearchResult (meta h) (score h)])
  end.

Inductive SearchError : Type :=
| ErrEmbedQuery.

Section WithSort.

(** [sort.Slice] of the Go library, as a function from the slice and
    its [less] to the slice after the call. *)
Variable sort_Slice : (scoredHit -> scoredHit -> bool) -> list scoredHit -> list scoredHit.

Definition fetchK (idx : Index) (k : Z) : Z :=
  if len (chunks idx) <? k * 5 then len (chunks idx) else k * 5.

Definition Search (w : World) (idx : Index) (query : list Z) (k : Z)
  : exec (SearchError + list SearchResult) :=
  match embed_EmbedQuery w query with
  | None => Ret (inl ErrEmbedQuery)
  | Some queryVec =>
      if fetchK idx k =? 0 then Ret (inr [])
      else
        hits ← hnsw.Search (graph idx) queryVec (fetchK idx k);
        let queryWords := strings.Fields (strings.ToLower query) in
        reranked ← rerank w idx queryWords hits;
        let sorted := sort_Slice less reranked in
        if k <? 0 then Fault MakeLen
        else Ret (inr (dedup k sorted ∅ []))
  end.

End WithSort.

End index.

(** ** Outcomes of a run *)

(** [outcome allowed e Q]: the run [e] returns a value satisfying [Q], or
    stops with a fault that [allowed] tolerates. With [strict] no fault is
    tolerated, so the run returns; with [no_fuel] every fault but the
    iteration bound of the embedding is. *)
Definition outcome {A : Type} (allowed : fault -> Prop) (e : exec A) (Q : A -> Prop) : Prop :=
  match e with
  | Ret a => Q a
  | Fault f => allowed f
  end.

Definition strict : fault -> Prop := fun _ => False.
Definition no_fuel : fault -> Prop := fun f => f <> FuelExhausted.

(** [allowed] tolerates every run-time panic of Go. *)
Definition lenient (allowed : fault -> Prop) : Prop :=
  forall f, f <> FuelExhausted -> allowed f.

(** ** Properties of graphs *)

Module props.
Import hnsw.

(** Capacity of a layer-[L] neighbour list. *)
Definition capacity (g : Graph) (L : nat) : Z :=
  if (L =? 0)%nat then 2 * m g else m g.

(** Every neighbour list is within the capacity of its layer. *)
Definition capacity_bound (g : Graph) : Prop :=
  forall (a : nat) (nd : node) (L : nat) (lst : list Z),
    nodes g !! a = Some nd -> neighbors nd !! L = Some lst ->
    len lst <= capacity g L.

(** [x] is the id of a node that occupies layer [lc]. *)
Definition has_layer (g : Graph) (x lc : Z) : Prop :=
  exists nd, 0 <= x /\ nodes g !! Z.to_nat x = Some nd /\ lc < len (neighbors nd).

(** [x] occurs in some neighbour list of layer [lc]. *)
Definition listed (g : Graph) (lc x : Z) : Prop :=
  exists (a : nat) (nd : node) (lst : list Z),
    nodes g !! a = Some nd /\ 0 <= lc /\ neighbors nd !! Z.to_nat lc = Some lst /\ x ∈ lst.

(** The graphs [Insert] builds: every stored id names a node of that
    layer, all vectors have dimension [d], and the entry point occupies the
    top layer. *)
Record wf (d : nat) (g : Graph) : Prop := mkWf {
  wf_m : 0 <= m g;
  wf_ids : forall lc x, listed g lc x -> has_layer g x lc;
  wf_dim : forall (a : nat) nd, nodes g !! a = Some nd -> length (vec nd) = d;
  wf_entry : nodes g = [] \/ (0 <= maxLayer g /\ has_layer g (entryPoint g) (maxLayer g))
}.

(** Same parameters, entry point and generator state. *)
Definition kept (g g' : Graph) : Prop :=
  m g' = m g /\ efConstruction g' = efConstruction g /\ efSearch g' = efSearch g
  /\ entryPoint g' = entryPoint g /\ maxLayer g' = maxLayer g /\ rng g' = rng g.

(** Same nodes up to the contents of the neighbour lists. *)
Definition same_shape (g g' : Graph) : Prop :=
  length (nodes g') = length (nodes g)
  /\ forall (a : nat) nd', nodes g' !! a = Some nd' ->
       exists nd, nodes g !! a = Some nd /\ vec nd' = vec nd
                  /\ length (neighbors nd') = length (neighbors nd).

(** [x] is not beaten by any element of [l]. *)
Definition tops (x : candidate) (l : list candidate) : Prop :=
  Forall (fun z => f32.gt (dist z) (dist x) = false) l.

(** No candidate is followed by one of strictly higher similarity. *)
Definition descending (W : list candidate) : Prop :=
  StronglySorted (fun a b => f32.gt (dist b) (dist a) = false) W.

(** A candidate of the beam search from [ep] at layer [lc]: an existing
    node, reached through a layer-[lc] list unless it is [ep], whose [dist]
    is its similarity to the query. *)
Definition cand_ok (g : Graph) (query : list Z) (ep lc : Z) (c : candidate) : Prop :=
  exists nd,
    0 <= id c /\ nodes g !! Z.to_nat (id c) = Some nd
    /\ sim query (vec nd) = Ret (dist c)
    /\ (id c = ep \/ listed g lc (id c)).

Definition beam_ok (g : Graph) (query : list Z) (ep ef lc : Z) (st : beam) : Prop :=
  Forall (cand_ok g query ep lc) (heapC st)
  /\ Forall (cand_ok g query ep lc) (setW st)
  /\ (forall c, c ∈ setW st -> id c ∈ visited st)
  /\ NoDup (map id (setW st))
  /\ setW st <> []
  /\ len (setW st) <= Z.max ef 1.

(** The two ways the graph code is reasoned on: any panic tolerated, or a
    well-formed graph and a query no longer than its vectors. *)
Definition mode (al : fault -> Prop) (d : nat) (g : Graph) (query : list Z) : Prop :=
  lenient al \/ (wf d g /\ (length query <= d)%nat).

(** What [searchLayer] returns: existing nodes with their similarity to the
    query, no node twice, at least one and at most max(ef, 1) of them, in
    descending order. *)
Definition layer_result (g : Graph) (query : list Z) (ep ef lc : Z) (W : list candidate) : Prop :=
  Forall (cand_ok g query ep lc) W /\ NoDup (map id W) /\ W <> []
  /\ len W <= Z.max ef 1.

(** State of a pass: either nothing has moved, or the best node is a
    listed node strictly more similar than where the pass began. *)
Definition pass_ok (g : Graph) (query : list Z) (lc best bestSim : Z)
    (r : Z * Z * bool) : Prop :=
  let '(b, bs, ch) := r in
  (ch = false /\ b = best /\ bs = bestSim)
  \/ (ch = true /\ f32.gt bs bestSim = true /\ listed g lc b
      /\ exists nd, 0 <= b /\ nodes g !! Z.to_nat b = Some nd
                    /\ sim query (vec nd) = Ret bs).

(** Number of nodes the beam search has not visited yet. *)
Definition unvisited (g : Graph) (vis : gset Z) : nat :=
  length (filter (fun x => x ∉ vis) (seqZ 0 (len (nodes g)))).

(** Bound on the iterations the beam search has left. *)
Definition beam_measure (g : Graph) (st : beam) : nat :=
  (length (heapC st) + unvisited g (visited st))%nat.

(** Is the node strictly more similar to the query than [s]? *)
Definition beats (query : list Z) (s : Z) (nd : node) : bool :=
  match sim query (vec nd) with
  | Ret s' => f32.gt s' s
  | Fault _ => false
  end.

(** Number of nodes strictly more similar to the query than [s]: bound on
    the moves the greedy descent has left. *)
Definition better (g : Graph) (query : list Z) (s : Z) : nat :=
  length (filter (fun nd => beats query s nd = true) (nodes g)).

(** The graph right after [g.nodes = append(g.nodes, node{...})] in
    [Insert]. *)
Definition appended (randLevel : Z -> nat -> nat) (v : list Z) (g : Graph) : Graph :=
  {| nodes := nodes g ++ [mkNode (replicate (Z.to_nat (randomLevel randLevel g + 1)) []) v];
     entryPoint := entryPoint g; maxLayer := maxLayer g; m := m g;
     efConstruction := efConstruction g; efSearch := efSearch g;
     rng := S (rng g) |}.

(** The entry point is a node of the highest level, [maxLayer]. *)
Definition top_ok (g : Graph) : Prop :=
  nodes g = []
  \/ ((exists nd, 0 <= entryPoint g /\ nodes g !! Z.to_nat (entryPoint g) = Some nd
                  /\ len (neighbors nd) = maxLayer g + 1)
      /\ forall (a : nat) nd, nodes g !! a = Some nd ->
           1 <= len (neighbors nd) <= maxLayer g + 1).

(** A result of [Search]: the id of an existing node together with the
    similarity of that node to the query. *)
Definition result_ok (g : Graph) (query : list Z) (r : Result) : Prop :=
  exists nd, 0 <= ID r /\ nodes g !! Z.to_nat (ID r) = Some nd
             /\ sim query (vec nd) = Ret (Score r).

(** [b], whose similarity to the query is [bs], has no layer-[lc] neighbour
    that is strictly more similar to the query. *)
Definition local_max (g : Graph) (query : list Z) (lc b bs : Z) : Prop :=
  exists nd,
    0 <= b /\ nodes g !! Z.to_nat b = Some nd /\ sim query (vec nd) = Ret bs
    /\ forall nbs, neighbors nd !! Z.to_nat lc = Some nbs ->
         Forall (fun nb => exists nd' s,
                             0 <= nb /\ nodes g !! Z.to_nat nb = Some nd'
                             /\ sim query (vec nd') = Ret s /\ f32.gt s bs = false) nbs.

(** The scores of a result list never increase. *)
Definition results_descending (rs : list Result) : Prop :=
  forall (i j : nat) ri rj,
    (i < j)%nat -> rs !! i = Some ri -> rs !! j = Some rj ->
    f32.gt (Score rj) (Score ri) = false.

(** *** The file format *)

(** An unsigned integer of [n] bytes. *)
Definition word (n : nat) (z : Z) : Prop := 0 <= z < 256 ^ Z.of_nat n.

(** What the format has room for: the counts fit their fields, and the
    ids, the float32 bit patterns and the parameters are values of their Go
    types. *)
Definition fits_layer (l : list Z) : Prop := len l < 2 ^ 16 /\ Forall (word 4) l.

Definition fits_node (nd : node) : Prop :=
  len (neighbors nd) < 2 ^ 8 /\ len (vec nd) < 2 ^ 16
  /\ Forall (word 4) (vec nd) /\ Forall fits_layer (neighbors nd).

Definition fits (g : Graph) : Prop :=
  len (nodes g) < 2 ^ 32 /\ word 4 (entryPoint g) /\ word 1 (maxLayer g)
  /\ word 2 (m g) /\ word 2 (efConstruction g) /\ word 2 (efSearch g)
  /\ Forall fits_node (nodes g).

(** The graph with a level generator that has made no draw yet, as [Load]
    builds it. *)
Definition reloaded (g : Graph) : Graph :=
  {| nodes := nodes g; entryPoint := entryPoint g; maxLayer := maxLayer g;
     m := m g; efConstruction := efConstruction g; efSearch := efSearch g;
     rng := 0%nat |}.

(** The reader consumes exactly [bs] from the front of the input and
    returns [a], without error. *)
Definition reads {A : Type} (rd : Reader A) (bs : list Z) (a : A) : Prop :=
  forall rest, rd (mkReader (bs ++ rest) false) = (a, mkReader rest false).

(** The reader fails on [bs]: the input ends before the value does. *)
Definition falls_short {A : Type} (rd : Reader A) (bs : list Z) : Prop :=
  failed (rd (mkReader bs false)).2 = true.

(** The first 21 bytes of a saved graph. *)
Definition header (g : Graph) : list Z :=
  magic
  ++ writeU16 formatVersion
  ++ writeU32 (uint32 (len (nodes g)))
  ++ writeU32 (entryPoint g)
  ++ writeU8 (uint8 (maxLayer g))
  ++ writeU16 (uint16 (m g))
  ++ writeU16 (uint16 (efConstruction g))
  ++ writeU16 (uint16 (efSearch g)).

(** Once the error is set it stays set. *)
Definition sticky {A : Type} (rd : Reader A) : Prop :=
  forall br, failed br = true -> failed (rd br).2 = true.

(** The reader fails on every input that stops before the end of [bs]. *)
Definition cut {A : Type} (rd : Reader A) (bs : list Z) : Prop :=
  forall p s, bs = p ++ s -> s <> [] -> falls_short rd p.

(** The reader [rd] accepts only what [wr] writes: when it succeeds on
    bytes, it has consumed the encoding of the value it returns, and that
    value satisfies [ok]. *)
Definition parses {A : Type} (rd : Reader A) (wr : A -> list Z) (ok : A -> Prop) : Prop :=
  forall bs a br',
    Forall (word 1) bs -> rd (mkReader bs false) = (a, br') -> failed br' = false ->
    ok a /\ bs = wr a ++ unread br'.

End props.

(** ** Properties of chunk lists *)

Module chunkprops.
Import chunker.

(** The chunk [c] is the window [start, stop) of [text]: its offsets, its
    position [idx] in the sequence, its path, and the trimmed bytes of the
    window as its text. *)
Definition window (text path : list Z) (start stop idx : Z) (c : Chunk) : Prop :=
  StartByte c = start /\ EndByte c = stop /\ Index c = idx /\ Path c = path
  /\ Text c = strings.TrimSpace (take (Z.to_nat (stop - start)) (drop (Z.to_nat start) text)).

(** The windows the loop of [chunkBytes] goes through from [start] on: each
    is at most [maxBytes] long and not empty, the next one starts after the
    start and not after the end of the one before, and the last one ends
    where the text ends. *)
Inductive chain (text path : list Z) (maxBytes : Z) : Z -> Z -> list Chunk -> Prop :=
| chain_end (start idx : Z) :
    len text <= start -> chain text path maxBytes start idx []
| chain_last (start idx : Z) (c : Chunk) :
    0 <= start < len text -> len text - start <= maxBytes ->
    window text path start (len text) idx c ->
    chain text path maxBytes start idx [c]
| chain_step (start idx split start' : Z) (c : Chunk) (rest : list Chunk) :
    0 <= start < split -> split < len text -> split - start <= maxBytes ->
    window text path start split idx c ->
    start < start' <= split ->
    chain text path maxBytes start' (idx + 1) rest ->
    chain text path maxBytes start idx (c :: rest).

(** A file of ASCII bytes: on these the functions of package strings are
    as given above. *)
Definition ascii (data : list Z) : Prop := Forall (fun b => 0 <= b < 128) data.

(** What holds of a chunk of a file of [n] bytes. *)
Definition in_bounds (n maxBytes : Z) (c : Chunk) : Prop :=
  0 <= StartByte c < EndByte c /\ EndByte c <= n /\ EndByte c - StartByte c <= maxBytes.

(** Start offsets and indexes go up along the list. *)
Definition ascending (cs : list Chunk) : Prop :=
  StronglySorted (fun a b => StartByte a < StartByte b /\ Index a < Index b) cs.

(** The byte at offset [j] lies in the window of some chunk. *)
Definition covered (cs : list Chunk) (j : Z) : Prop :=
  exists c, c ∈ cs /\ StartByte c <= j < EndByte c.

End chunkprops.

(** ** Properties of the index *)

Module indexprops.
Import index.

(** The record [AddFileCtx] appends for a chunk. *)
Definition recordOf (path : list Z) (mtime : Z) (c : chunker.Chunk) : ChunkMeta :=
  {| Path := path;
     LineNum := chunker.LineNum c;
     StartByte := chunker.StartByte c;
     EndByte := chunker.EndByte c;
     ChunkIndex := chunker.Index c;
     Text := preview (chunker.Text c);
     Mtime := mtime |}.

(** An embedder that answers with one vector per text. *)
Definition one_per_text (w : World) : Prop :=
  forall texts vs, embed_Embed w texts = Some vs -> length vs = length texts.

End indexprops.

(** ** Package index: walking a directory *)

Module indexdir.
Import index.

(** A directory entry as [os.ReadDir] lists it. For a directory, [listing]
    is what [os.ReadDir] answers when it is walked in turn: its entries, or
    none when the call fails. *)
Inductive entry : Type :=
| File (name : list Z)
| Dir (name : list Z) (listing : option (list entry)).

(** Induction on entries, through the listings. *)
Section entry_induction.
Variable P : entry -> Prop.
Hypothesis P_File : forall name, P (File name).
Hypothesis P_Dir_unreadable : forall name, P (Dir name None).
Hypothesis P_Dir : forall name es, Forall P es -> P (Dir name (Some es)).

Fixpoint entry_induction (e : entry) : P e :=
  match e with
  | File name => P_File name
  | Dir name None => P_Dir_unreadable name
  | Dir name (Some es) =>
      P_Dir name es
        ((fix go (es : list entry) : Forall P es :=
            match es with
            | [] => @List.Forall_nil entry P
            | e' :: es' => @List.Forall_cons entry P e' es' (entry_induction e') (go es')
            end) es)
  end.

End entry_induction.

Inductive WalkError : Type :=
| ErrReadDir (dir : list Z).     (* "readdir %s: ..." *)

(** [strings.HasPrefix(name, ".")] *)
Definition hidden (name : list Z) : bool := strings.HasPrefix name (str ".").

(** The loop [for _, entry := range entries] of [walkDir], [walk] being
    what is done with one entry; the paths handed to [fn], in order, or the
    first error. *)
Fixpoint walkAll (walk : entry -> WalkError + list (list Z)) (es : list entry)
  : WalkError + list (list Z) :=
  match es with
  | [] => inr []
  | e :: es' =>
      match walk e with
      | inl err => inl err
      | inr ps =>
          match walkAll walk es' with
          | inl err => inl err
          | inr qs => inr (ps ++ qs)
          end
      end
  end.

(** The body of the loop for one entry of the directory [dir]. *)
Fixpoint walkEntry (dir : list Z) (e : entry) : WalkError + list (list Z) :=
  match e with
  | File name => if hidden name then inr [] else inr [Join dir name]
  | Dir name listing =>
      if hidden name then inr []
      else match listing with
           | None => inl (ErrReadDir (Join dir name))
           | Some es => walkAll (walkEntry (Join dir name)) es
           end
  end.

Definition walkDir (rootDir : list Z) (listing : option (list entry))
  : WalkError + list (list Z) :=
  match listing with
  | None => inl (ErrReadDir rootDir)
  | Some es => walkAll (walkEntry rootDir) es
  end.

Inductive DirError : Type :=
| ErrWalk (e : WalkError)
| ErrCtx.                      (* ctx.Err(), from the loop or from AddFileCtx *)

(** One call of the progress function. *)
Record Progress : Type := mkProgress {
  done : Z; total : Z; path : list Z; wasSkipped : bool
}.

(** What [IndexDirWithProgress] returns and leaves behind: the error, the
    index, the calls it makes to [progress] when that is not nil, and the
    lines on standard error. *)
Record Walked : Type := mkWalked {
  failure : option DirError;
  indexed : Index;
  reported : list Progress;
  printed : list Diag
}.

Section WithRng.

Variable randLevel : Z -> nat -> nat.

(** The environment changes while a directory is indexed: [env 0] is the
    machine during the walk, [env (S i)] the machine while the [i]-th path is
    added. [stop i] tells whether [ctx.Err()] is set at the check before the
    [i]-th path. *)
Variable env : nat -> World.
Variable stop : nat -> bool.

(** The loop [for i, path := range paths], from position [i] on. *)
Fixpoint addPaths (total : Z) (paths : list (list Z)) (i : nat) (idx : Index)
    (calls : list Progress) (log : list Diag) : exec Walked :=
  match paths with
  | [] => Ret (mkWalked None idx calls log)
  | p :: rest =>
      if stop i then Ret (mkWalked (Some ErrCtx) idx calls log)
      else
        r ← AddFileCtx randLevel (env (S i)) idx p;
        match err r with
        | Some _ => Ret (mkWalked (Some ErrCtx) (after r) calls (log ++ stderr r))
        | None =>
            addPaths total rest (S i) (after r)
                     (calls ++ [mkProgress (Z.of_nat i + 1) total p (skipped r)])
                     (log ++ stderr r)
        end
  end.

Definition IndexDirWithProgress (idx : Index) (rootDir : list Z)
    (listing : option (list entry)) : exec Walked :=
  match walkDir rootDir listing with
  | inl e => Ret (mkWalked (Some (ErrWalk e)) idx [] [])
  | inr visited =>
      let paths := filter (fun p => chunker.IsSupportedFile (env 0) p = true) visited in
      addPaths (len paths) paths 0 idx [] []
  end.

Definition RebuildFromDir (idx : Index) (rootDir : list Z)
    (listing : option (list entry)) : exec Walked :=
  let cleared :=
    {| dir := dir idx;
       graph := hnsw.New hnsw.DefaultM hnsw.DefaultEfConstruction hnsw.DefaultEfSearch;
       chunks := [];
       fileCache := ∅;
       maxFileSizeBytes := maxFileSizeBytes idx;
       dirty := dirty idx;
       lastUpdated := lastUpdated idx |} in
  IndexDirWithProgress cleared rootDir listing.

End WithRng.

(** The path [p] lies below [root] under names none of which is hidden. *)
Definition visible_below (root p : list Z) : Prop :=
  exists names, names <> [] /\ p = fold_left Join names root
                /\ Forall (fun n => hidden n = false) names.

End indexdir.

(** ** Concrete inputs used by the examples further down *)

Module examples.

(** Bit patterns of 1.0, 0.5, -0.5. *)
Definition one : Z := 1065353216.
Definition half : Z := 1056964608.
Definition mhalf : Z := half + 2 ^ 31.

(** Every draw of the level generator gives level 0. *)
Definition flat : Z -> nat -> nat := fun _ _ => 0%nat.

(** The unit vector of dimension 4 along axis [i]. *)
Definition axis (i : nat) : list Z := <[i := one]> (replicate 4 0).

(** The unit vector (±1/2, ±1/2, ±1/2, ±1/2); [true] is +. *)
Definition halves (a b c d : bool) : list Z :=
  map (fun s : bool => if s then half else mhalf) [a; b; c; d].

Definition emptyIndex : index.Index :=
  {| index.dir := str ".sift";
     index.graph := hnsw.New hnsw.DefaultM hnsw.DefaultEfConstruction hnsw.DefaultEfSearch;
     index.chunks := [];
     index.fileCache := ∅;
     index.maxFileSizeBytes := 1024 * 1024;
     index.dirty := false;
     index.lastUpdated := 0 |}.

Definition aRecord : index.ChunkMeta :=
  {| index.Path := str "a.md"; index.LineNum := 1; index.StartByte := 0;
     index.EndByte := 5; index.ChunkIndex := 0; index.Text := str "hello";
     index.Mtime := 1700000000 |}.

(** An index directory whose meta.json holds one record and whose
    hnsw.bin is the saved empty graph. *)
Definition staleDisk : index.Disk :=
  {| index.MkdirAll_ok := true;
     index.embed_New_ok := true;
     index.meta_json := fun _ => index.MetaRecords [aRecord];
     index.files :=
       hnsw.Save (index.Join (str ".sift") index.hnswFile)
                 (hnsw.New hnsw.DefaultM hnsw.DefaultEfConstruction hnsw.DefaultEfSearch) ∅ |}.

(** A machine with one file, notes.md, last modified at [mtime]; the
    embedder answers every text with the same unit vector. *)
Definition notesWorld (mtime : Z) : World :=
  {| os_Open := fun p => if bool_decide (p = str "notes.md") then Some (str "hello world") else None;
     os_Stat := fun p => if bool_decide (p = str "notes.md")
                         then Some (mkFileInfo 11 mtime false) else None;
     os_ReadFile := fun p => if bool_decide (p = str "notes.md") then Some (str "hello world") else None;
     embed_Embed := fun texts => Some (map (fun _ => axis 0) texts);
     embed_EmbedQuery := fun _ => Some (axis 0);
     ctx_Err := fun _ => false;
     time_Now := 1700000100 |}.

(** An index whose skip-cache already holds notes.md at [mtime]. *)
Definition cachedIndex (mtime : Z) : index.Index :=
  {| index.dir := str ".sift";
     index.graph := hnsw.New hnsw.DefaultM hnsw.DefaultEfConstruction hnsw.DefaultEfSearch;
     index.chunks := [];
     index.fileCache := {[ str "notes.md" := mtime ]};
     index.maxFileSizeBytes := 1024 * 1024;
     index.dirty := false;
     index.lastUpdated := 0 |}.

(** Three unit vectors of dimension 4, and the graph of parameter m = 2
    they are inserted into. *)
Definition threeVecs : list (list Z) := [axis 0; axis 1; halves true true true true].
Definition smallGraph : hnsw.Graph := hnsw.New 2 0 0.

(** The graph after the three insertions, every level being 0. *)
Definition builtGraph : hnsw.Graph :=
  match hnsw.InsertAll flat threeVecs smallGraph with
  | Ret g => g
  | Fault _ => smallGraph
  end.

(** The index after notes.md has been added to the empty one. *)
Definition indexedNotes : index.Index :=
  match index.AddFileCtx flat (notesWorld 5) emptyIndex (str "notes.md") with
  | Ret r => index.after r
  | Fault _ => emptyIndex
  end.

(** A [sort.Slice] that finds its slice in order already. *)
Definition keepOrder : (index.scoredHit -> index.scoredHit -> bool) ->
                       list index.scoredHit -> list index.scoredHit :=
  fun _ l => l.

(** A directory docs with a file, a hidden directory and a subdirectory, and
    a machine on which docs/notes.md can be read. *)
Definition docsTree : list indexdir.entry :=
  [indexdir.File (str "notes.md");
   indexdir.Dir (str ".git") (Some [indexdir.File (str "config.txt")]);
   indexdir.Dir (str "sub") (Some [indexdir.File (str ".draft.md");
                                   indexdir.File (str "a.txt")])].

Definition docsWorld : World :=
  {| os_Open := fun p => if bool_decide (p = str "docs/notes.md")
                         then Some (str "hello world") else None;
     os_Stat := fun p => if bool_decide (p = str "docs/notes.md")
                         then Some (mkFileInfo 11 5 false) else None;
     os_ReadFile := fun p => if bool_decide (p = str "docs/notes.md")
                             then Some (str "hello world") else None;
     embed_Embed := fun texts => Some (map (fun _ => axis 0) texts);
     embed_EmbedQuery := fun _ => Some (axis 0);
     ctx_Err := fun _ => false;
     time_Now := 1700000100 |}.

End examples.

(** * Properties *)

(** ** The exec monad *)

Lemma bind_Ret_inv {A B : Type} (e : exec A) (k : A -> exec B) (b : B) :
  (e ≫= k) = Ret b -> exists a, e = Ret a /\ k a = Ret b.
Proof.
  destruct e as [a|f]; simpl; [eauto | discriminate].
Qed.

Lemma bind_Fault_inv {A B : Type} (e : exec A) (k : A -> exec B) (f : fault) :
  (e ≫= k) = Fault f -> e = Fault f \/ exists a, e = Ret a /\ k a = Fault f.
Proof.
  destruct e as [a|f']; simpl; intros H; [right; eauto | left; congruence].
Qed.

Lemma index_Ret {A : Type} (l : list A) (i : Z) (x : A) :
  index l i = Ret x <-> 0 <= i /\ l !! Z.to_nat i = Some x.
Proof.
  unfold index. destruct (Z.ltb_spec i 0).
  - split; [discriminate | intros [H0 _]; lia].
  - destruct (l !! Z.to_nat i) eqn:E; split; intros H1.
    + injection H1 as ->. auto.
    + destruct H1 as [_ H1]. congruence.
    + discriminate.
    + destruct H1 as [_ H1]. discriminate.
Qed.

Lemma index_in_range {A : Type} (l : list A) (i : Z) :
  0 <= i < len l -> exists x, index l i = Ret x.
Proof.
  unfold len. intros [H0 H1].
  destruct (lookup_lt_is_Some_2 l (Z.to_nat i)) as [x Hx]; [lia|].
  exists x. apply index_Ret. auto.
Qed.

(** ** New *)

Module NewFacts.
Import hnsw.

Lemma New_m (m0 efc efs : Z) :
  m (New m0 efc efs) = if m0 <=? 0 then DefaultM else m0.
Proof. reflexivity. Qed.

Lemma New_positive (m0 efc efs : Z) :
  0 < m (New m0 efc efs) /\ 0 < efConstruction (New m0 efc efs)
  /\ 0 < efSearch (New m0 efc efs).
Proof.
  unfold New, DefaultM, DefaultEfConstruction, DefaultEfSearch; simpl.
  repeat split.
  - destruct (Z.leb_spec m0 0); lia.
  - destruct (Z.leb_spec efc 0); lia.
  - destruct (Z.leb_spec efs 0); lia.
Qed.

Lemma ln_IZR_pos (z : Z) : 2 <= z -> (0 < ln (IZR z))%R.
Proof.
  intros Hz. rewrite <- ln_1. apply ln_increasing; [lra|].
  apply IZR_lt. lia.
Qed.

(** C10, as the code has it: [New] takes every triple of arguments,
    replaces each non-positive one by its default (16, 200, 50), starts
    with no node, and leaves the three parameters strictly positive. The
    level factor is 1/ln(m), whose divisor ln(m) is positive from m = 2 on;
    the one argument for which it vanishes is m = 1. *)
Theorem New_defaults_and_level_factor (m0 efc efs : Z) :
  let g := New m0 efc efs in
  nodes g = []
  /\ m g = (if m0 <=? 0 then 16 else m0)
  /\ efConstruction g = (if efc <=? 0 then 200 else efc)
  /\ efSearch g = (if efs <=? 0 then 50 else efs)
  /\ 0 < m g /\ 0 < efConstruction g /\ 0 < efSearch g
  /\ ml g = (1 / ln (IZR (m g)))%R
  /\ (m0 = 1 \/ (0 < ln (IZR (m g)))%R).
Proof.
  intros g. pose proof (New_positive m0 efc efs) as (Hm & Hc & Hs).
  fold g in Hm, Hc, Hs.
  repeat split; try reflexivity; try assumption.
  - unfold ml. destruct (Z.ltb_spec 0 (m g)); [reflexivity | lia].
  - destruct (Z.eq_dec m0 1) as [->|Hne]; [left; reflexivity | right].
    apply ln_IZR_pos. subst g. rewrite New_m in *.
    unfold DefaultM in *. destruct (Z.leb_spec m0 0); lia.
Qed.

(** C10, counterexample: [New(1, 200, 50)] keeps m = 1, all three
    parameters are positive, and the divisor of ml = 1/ln(m) is ln 1 = 0. *)
Lemma New_one_level_factor_undefined :
  m (New 1 200 50) = 1
  /\ 0 < m (New 1 200 50)
  /\ ln (IZR (m (New 1 200 50))) = 0%R.
Proof.
  split; [reflexivity|]. split; [reflexivity|]. simpl. apply ln_1.
Qed.

End NewFacts.


(** ** Open and AddFileCtx *)

Module IndexFacts.
Import index.

(** C1, as the code has it: with the directory made, the embedder loaded
    and both files present, [Open] fails exactly when meta.json does not
    decode or [hnsw.Load] rejects hnsw.bin. When both decode it returns the
    index holding the records and the graph as loaded; the number of records
    and the number of nodes are not compared. *)
Theorem Open_loads_both_files (d : Disk) (dir0 : list Z) (maxFileKB : Z) (bytes : list Z) :
  MkdirAll_ok d = true ->
  embed_New_ok d = true ->
  files d !! Join dir0 hnswFile = Some bytes ->
  (meta_json d (Join dir0 metaFile) = MetaGarbled ->
     Open d dir0 maxFileKB = inl ErrCorruptMeta)
  /\ (forall cs e,
        meta_json d (Join dir0 metaFile) = MetaRecords cs ->
        hnsw.decode bytes = inl e ->
        Open d dir0 maxFileKB = inl (ErrCorruptHnsw e))
  /\ (forall cs g,
        meta_json d (Join dir0 metaFile) = MetaRecords cs ->
        hnsw.decode bytes = inr g ->
        Open d dir0 maxFileKB =
          inr {| dir := dir0; graph := g; chunks := cs;
                 fileCache := buildFileCache cs;
                 maxFileSizeBytes := maxFileKB * 1024;
                 dirty := false; lastUpdated := 0 |}).
Proof.
  intros Hmk Hemb Hfile. unfold Open. rewrite Hmk, Hemb. simpl.
  repeat split.
  - intros ->. reflexivity.
  - intros cs e -> Hdec. rewrite Hfile. unfold hnsw.Load. rewrite Hfile, Hdec.
    reflexivity.
  - intros cs g -> Hdec. rewrite Hfile. unfold hnsw.Load. rewrite Hfile, Hdec.
    reflexivity.
Qed.

(** C1, witness: the stale directory of [examples]. *)
Lemma Open_loads_both_files_witness :
  Open examples.staleDisk (str ".sift") 1024 =
    inr {| dir := str ".sift";
           graph := hnsw.New hnsw.DefaultM hnsw.DefaultEfConstruction hnsw.DefaultEfSearch;
           chunks := [examples.aRecord];
           fileCache := buildFileCache [examples.aRecord];
           maxFileSizeBytes := 1024 * 1024;
           dirty := false; lastUpdated := 0 |}.
Proof.
  refine (proj2 (proj2 (Open_loads_both_files examples.staleDisk (str ".sift") 1024
            (hnsw.encode (hnsw.New hnsw.DefaultM hnsw.DefaultEfConstruction hnsw.DefaultEfSearch))
            _ _ _)) [examples.aRecord] _ _ _).
  - reflexivity.
  - reflexivity.
  - unfold examples.staleDisk, hnsw.Save. simpl. apply lookup_insert_eq.
  - reflexivity.
  - vm_compute. reflexivity.
Defined.

(** C1, counterexample: meta.json holds one record, hnsw.bin holds a graph
    of no node, and [Open] returns an index. *)
Lemma Open_accepts_disagreeing_counts :
  exists idx,
    Open examples.staleDisk (str ".sift") 1024 = inr idx
    /\ len (chunks idx) = 1
    /\ hnsw.Len (graph idx) = 0.
Proof.
  eexists. split; [vm_compute; reflexivity|]. split; reflexivity.
Qed.

(** C2, as the code has it: for a path that is not supported, whose stat
    fails or whose size exceeds the limit, [AddFileCtx] returns no error and
    [skipped = false], and leaves the index as it was; it writes a line to
    standard error for the failed stat and for the oversize file, none for
    the unsupported path. [skipped = true] is returned, with nothing written
    and the index as it was, when the cache holds the path at the mtime the
    stat reports. *)
Theorem AddFileCtx_early_returns (randLevel : Z -> nat -> nat) (w : World)
    (idx : Index) (path : list Z) :
  (chunker.IsSupportedFile w path = false ->
     AddFileCtx randLevel w idx path = Ret (mkAdded false None idx []))
  /\ (chunker.IsSupportedFile w path = true ->
      os_Stat w path = None ->
      AddFileCtx randLevel w idx path = Ret (mkAdded false None idx [DiagStat path]))
  /\ (forall info,
        chunker.IsSupportedFile w path = true ->
        os_Stat w path = Some info ->
        maxFileSizeBytes idx < Size info ->
        AddFileCtx randLevel w idx path =
          Ret (mkAdded false None idx
                 [DiagTooLarge path (Size info ÷ 1024) (maxFileSizeBytes idx ÷ 1024)]))
  /\ (forall info,
        chunker.IsSupportedFile w path = true ->
        os_Stat w path = Some info ->
        Size info <= maxFileSizeBytes idx ->
        fileCache idx !! path = Some (ModTime info) ->
        AddFileCtx randLevel w idx path = Ret (mkAdded true None idx [])).
Proof.
  unfold AddFileCtx. repeat split.
  - intros ->. reflexivity.
  - intros -> ->. reflexivity.
  - intros info -> -> Hsz. simpl.
    destruct (Z.ltb_spec (maxFileSizeBytes idx) (Size info)); [reflexivity | lia].
  - intros info -> -> Hsz Hc. simpl.
    destruct (Z.ltb_spec (maxFileSizeBytes idx) (Size info)); [lia|].
    rewrite bool_decide_eq_true_2 by exact Hc. reflexivity.
Qed.

(** C2, witness: notes.md, already in the cache at its current mtime. *)
Lemma AddFileCtx_early_returns_witness :
  AddFileCtx examples.flat (examples.notesWorld 5) (examples.cachedIndex 5) (str "notes.md")
  = Ret (mkAdded true None (examples.cachedIndex 5) []).
Proof.
  refine (proj2 (proj2 (proj2 (AddFileCtx_early_returns examples.flat (examples.notesWorld 5)
            (examples.cachedIndex 5) (str "notes.md")))) (mkFileInfo 11 5 false) _ _ _ _).
  - vm_compute. reflexivity.
  - reflexivity.
  - vm_compute. discriminate.
  - vm_compute. reflexivity.
Defined.

(** C2, counterexample: photo.png is not supported; [AddFileCtx] returns
    [skipped = false] and writes nothing to standard error. *)
Lemma AddFileCtx_unsupported_not_skipped :
  chunker.IsSupportedFile (examples.notesWorld 5) (str "photo.png") = false
  /\ exists r,
       AddFileCtx examples.flat (examples.notesWorld 5) examples.emptyIndex (str "photo.png") = Ret r
       /\ skipped r = false /\ err r = None /\ stderr r = [].
Proof.
  split; [vm_compute; reflexivity|].
  eexists. split; [vm_compute; reflexivity|]. repeat split.
Qed.

End IndexFacts.

(** The float32 operations are never unfolded by [simpl]: the proofs use
    the order laws below, the examples evaluate them. *)
Arguments f32.lt : simpl never.
Arguments f32.gt : simpl never.
Arguments f32.add : simpl never.
Arguments f32.mul : simpl never.
Arguments f32.of_int : simpl never.

(** ** Reasoning on runs *)

(** [exec_inv H] splits a hypothesis [H : (e ≫= k) = Ret r] into the
    successful run of [e] and of the continuation. *)
Ltac exec_inv H :=
  let a := fresh "x" in
  let H1 := fresh H "a" in
  apply bind_Ret_inv in H; destruct H as (a & H1 & H).

Tactic Notation "run_inv" hyp(H) "as" ident(a) ident(Ha) :=
  apply bind_Ret_inv in H; destruct H as (a & Ha & H).

Lemma foldM_invariant {A B : Type} (P : A -> Prop) (f : A -> B -> exec A)
    (l : list B) (a r : A) :
  (forall a0 b a1, P a0 -> b ∈ l -> f a0 b = Ret a1 -> P a1) ->
  P a -> foldM f l a = Ret r -> P r.
Proof.
  revert a. induction l as [|b l IH]; intros a Hstep Ha Hrun; simpl in Hrun.
  - injection Hrun as <-. exact Ha.
  - exec_inv Hrun. apply (IH x); [|eauto using list_elem_of_here|exact Hrun].
    intros a0 b0 a1 H0 Hin. apply Hstep; [exact H0 | by apply list_elem_of_further].
Qed.

Lemma outcome_bind {A B : Type} (al : fault -> Prop) (e : exec A) (k : A -> exec B)
    (Q : B -> Prop) :
  outcome al e (fun a => e = Ret a -> outcome al (k a) Q) -> outcome al (e ≫= k) Q.
Proof.
  destruct e as [a|f]; simpl; [intros H; by apply H | trivial].
Qed.

Lemma outcome_weaken {A : Type} (al : fault -> Prop) (e : exec A) (Q Q' : A -> Prop) :
  outcome al e Q -> (forall a, e = Ret a -> Q a -> Q' a) -> outcome al e Q'.
Proof.
  destruct e as [a|f]; simpl; [intros H HQ; by apply HQ | trivial].
Qed.

Lemma outcome_Ret {A : Type} (al : fault -> Prop) (e : exec A) (Q : A -> Prop) (a : A) :
  outcome al e Q -> e = Ret a -> Q a.
Proof. intros H ->. exact H. Qed.

Lemma outcome_strict {A : Type} (e : exec A) (Q : A -> Prop) :
  outcome strict e Q -> exists a, e = Ret a /\ Q a.
Proof. destruct e as [a|f]; simpl; [eauto | intros []]. Qed.

Lemma outcome_no_fuel {A : Type} (e : exec A) (Q : A -> Prop) :
  outcome no_fuel e Q -> e <> Fault FuelExhausted.
Proof. destruct e as [a|f]; simpl; [discriminate | unfold no_fuel; congruence]. Qed.

Lemma lenient_no_fuel : lenient no_fuel.
Proof. intros f Hf. exact Hf. Qed.

Lemma outcome_foldM {A B : Type} (al : fault -> Prop) (P : A -> Prop)
    (f : A -> B -> exec A) (l : list B) (a : A) :
  (forall a0 b, P a0 -> b ∈ l -> outcome al (f a0 b) P) ->
  P a -> outcome al (foldM f l a) P.
Proof.
  revert a. induction l as [|b l IH]; intros a Hstep Ha; simpl; [exact Ha|].
  apply outcome_bind. eapply outcome_weaken.
  - apply Hstep; [exact Ha | apply list_elem_of_here].
  - intros a1 _ Ha1 _. apply IH; [|exact Ha1].
    intros a0 b0 H0 Hin. apply Hstep; [exact H0 | by apply list_elem_of_further].
Qed.

Lemma outcome_index {A : Type} (al : fault -> Prop) (l : list A) (i : Z) (Q : A -> Prop) :
  al IndexOutOfRange \/ 0 <= i < len l ->
  (forall x, 0 <= i -> l !! Z.to_nat i = Some x -> Q x) ->
  outcome al (index l i) Q.
Proof.
  intros Hr HQ. destruct (index l i) as [x|f] eqn:E; simpl.
  - apply index_Ret in E as [H0 Hx]. by apply HQ.
  - destruct Hr as [Hal|Hin].
    + unfold index in E. destruct (i <? 0); [by injection E as <-|].
      destruct (l !! Z.to_nat i); [discriminate | by injection E as <-].
    + destruct (index_in_range l i Hin) as [x Hx]. congruence.
Qed.

(** ** Lists *)

Lemma map_lookup {A B : Type} (f : A -> B) (l : list A) (i : nat) :
  map f l !! i = f <$> (l !! i).
Proof.
  revert i. induction l as [|x l IH]; intros [|i]; simpl; auto.
Qed.

Lemma sorted_lookup {A : Type} (R : A -> A -> Prop) (l : list A) :
  StronglySorted R l ->
  forall (i j : nat) a b, (i < j)%nat -> l !! i = Some a -> l !! j = Some b -> R a b.
Proof.
  induction 1 as [|x l Hs IH Hall]; intros i j a b Hij Ha Hb; [by destruct i|].
  destruct j as [|j]; [lia|]. simpl in Hb. destruct i as [|i]; simpl in Ha.
  - injection Ha as <-. rewrite Forall_forall in Hall. apply Hall.
    by eapply list_elem_of_lookup_2.
  - apply (IH i j); [lia | assumption..].
Qed.

Lemma sorted_sublist {A : Type} (R : A -> A -> Prop) (l l' : list A) :
  l' `sublist_of` l -> StronglySorted R l -> StronglySorted R l'.
Proof.
  induction 1 as [|x l1 l2 Hsub IH|x l1 l2 Hsub IH]; intros Hs; [constructor| |].
  - apply StronglySorted_inv in Hs as [Hs Hall]. constructor; [by apply IH|].
    rewrite Forall_forall in Hall |- *. intros y Hy. apply Hall.
    by eapply elem_of_sublist.
  - apply StronglySorted_inv in Hs as [Hs _]. by apply IH.
Qed.

(** ** Order laws of float32 comparison *)

Lemma f32_gt_irrefl (a : Z) : f32.gt a a = false.
Proof.
  unfold f32.gt, f32.lt. rewrite Z.ltb_irrefl. apply andb_false_r.
Qed.

Lemma f32_gt_trans (a b c : Z) :
  f32.gt a b = true -> f32.gt b c = true -> f32.gt a c = true.
Proof.
  unfold f32.gt, f32.lt. intros H1 H2.
  apply andb_prop in H1 as [H1 K1]. apply andb_prop in H1 as [Nb Na].
  apply andb_prop in H2 as [H2 K2]. apply andb_prop in H2 as [Nc _].
  rewrite Nc, Na. simpl. apply Z.ltb_lt in K1, K2. apply Z.ltb_lt. lia.
Qed.

Lemma f32_gt_asym (a b : Z) : f32.gt a b = true -> f32.gt b a = false.
Proof.
  intros H. destruct (f32.gt b a) eqn:E; [|reflexivity].
  pose proof (f32_gt_trans _ _ _ H E) as H'. rewrite f32_gt_irrefl in H'. discriminate.
Qed.

Lemma f32_lt_gt (a b : Z) : f32.lt a b = f32.gt b a.
Proof. reflexivity. Qed.

(** ** Swapping two positions of a slice *)

Lemma insert_take_out {A : Type} (l : list A) (j : nat) (x b : A) :
  l !! j = Some b -> b :: <[j := x]> l ≡ₚ x :: l.
Proof.
  revert j. induction l as [|y l IH]; intros j Hj; [discriminate|].
  destruct j as [|j]; simpl in *.
  - injection Hj as ->. apply Permutation_swap.
  - rewrite (Permutation_swap y b), (IH j Hj). apply Permutation_swap.
Qed.

Lemma swap_perm {A : Type} (l : list A) (i j : nat) (a b : A) :
  l !! i = Some a -> l !! j = Some b -> <[i := b]> (<[j := a]> l) ≡ₚ l.
Proof.
  revert i j. induction l as [|y l IH]; intros i j Hi Hj; [discriminate|].
  destruct i as [|i], j as [|j]; simpl in *.
  - injection Hi as ->. injection Hj as ->. reflexivity.
  - injection Hi as ->. apply insert_take_out. exact Hj.
  - injection Hj as ->. apply insert_take_out. exact Hi.
  - f_equiv. apply IH; assumption.
Qed.

Lemma perm_elem {A : Type} (l k : list A) (x : A) : l ≡ₚ k -> x ∈ l -> x ∈ k.
Proof.
  intros Hp Hx. apply list_elem_of_In. eapply Permutation_in; [exact Hp|].
  by apply list_elem_of_In.
Qed.

(** From here on the float32 operations are used through the laws above
    only; the examples evaluate them with [vm_compute]. *)
Opaque f32.lt f32.gt f32.add f32.mul f32.of_int.

(** ** The graph *)

Module HnswFacts.
Import hnsw props.

Lemma setNeighbors_Ret (g g' : Graph) (i lc : Z) (l : list Z) :
  setNeighbors g i lc l = Ret g' ->
  exists nd old,
    0 <= i /\ 0 <= lc
    /\ nodes g !! Z.to_nat i = Some nd
    /\ neighbors nd !! Z.to_nat lc = Some old
    /\ g' = setNodes g (<[Z.to_nat i := mkNode (<[Z.to_nat lc := l]> (neighbors nd)) (vec nd)]> (nodes g)).
Proof.
  unfold setNeighbors. intros H. exec_inv H. exec_inv H.
  apply index_Ret in Ha as [Hi Hnd]. apply index_Ret in Ha0 as [Hlc Hold].
  injection H as <-. eauto 10.
Qed.

(** What a node of the graph after [setNeighbors] looks like. *)
Lemma setNeighbors_lookup (g g' : Graph) (i lc : Z) (l : list Z) (a : nat) (nd' : node) :
  setNeighbors g i lc l = Ret g' ->
  nodes g' !! a = Some nd' ->
  exists nd,
    nodes g !! a = Some nd /\ vec nd' = vec nd
    /\ length (neighbors nd') = length (neighbors nd)
    /\ forall L lst, neighbors nd' !! L = Some lst ->
         (a = Z.to_nat i /\ L = Z.to_nat lc /\ lst = l)
         \/ neighbors nd !! L = Some lst.
Proof.
  intros Hset Hlk. apply setNeighbors_Ret in Hset as (nd & old & Hi & Hlc & Hnd & Hold & ->).
  simpl in Hlk. apply list_lookup_insert_Some in Hlk as [(<- & <- & Hlt)|(Hne & Hlk)].
  - exists nd. simpl. split; [exact Hnd|]. split; [reflexivity|].
    split; [apply length_insert|].
    intros L lst HL. apply list_lookup_insert_Some in HL as [(<- & <- & _)|(_ & HL)]; auto.
  - exists nd'. repeat split; auto.
Qed.

Lemma setNeighbors_params (g g' : Graph) (i lc : Z) (l : list Z) :
  setNeighbors g i lc l = Ret g' ->
  m g' = m g /\ efConstruction g' = efConstruction g /\ efSearch g' = efSearch g
  /\ entryPoint g' = entryPoint g /\ maxLayer g' = maxLayer g /\ rng g' = rng g
  /\ length (nodes g') = length (nodes g).
Proof.
  intros Hset. apply setNeighbors_Ret in Hset as (nd & old & Hi & Hlc & Hnd & Hold & ->).
  simpl. repeat split. apply length_insert.
Qed.

Lemma setNeighbors_twice (g g1 : Graph) (i lc : Z) (l1 l2 : list Z) :
  setNeighbors g i lc l1 = Ret g1 ->
  setNeighbors g1 i lc l2 = setNeighbors g i lc l2.
Proof.
  intros Hset. apply setNeighbors_Ret in Hset as (nd & old & Hi & Hlc & Hnd & Hold & ->).
  assert (Hlt : (Z.to_nat i < length (nodes g))%nat) by (eapply lookup_lt_Some; eauto).
  assert (Hlt' : (Z.to_nat lc < length (neighbors nd))%nat) by (eapply lookup_lt_Some; eauto).
  unfold setNeighbors. simpl.
  assert (E1 : index (<[Z.to_nat i := mkNode (<[Z.to_nat lc := l1]> (neighbors nd)) (vec nd)]> (nodes g)) i
               = Ret (mkNode (<[Z.to_nat lc := l1]> (neighbors nd)) (vec nd))).
  { apply index_Ret. split; [exact Hi|]. by apply list_lookup_insert_eq. }
  assert (E2 : index (nodes g) i = Ret nd) by (apply index_Ret; auto).
  rewrite E1, E2. simpl.
  assert (E3 : index (<[Z.to_nat lc := l1]> (neighbors nd)) lc = Ret l1).
  { apply index_Ret. split; [exact Hlc|]. by apply list_lookup_insert_eq. }
  assert (E4 : index (neighbors nd) lc = Ret old) by (apply index_Ret; auto).
  rewrite E3, E4. simpl. unfold setNodes. simpl.
  rewrite !list_insert_insert_eq. reflexivity.
Qed.

(** *** The exchange sort *)

Lemma sweep_perm (x : candidate) (rest : list candidate) :
  let '(x', rest') := sweep x rest in x' :: rest' ≡ₚ x :: rest.
Proof.
  revert x. induction rest as [|y r IH]; intros x; cbn [sweep]; [reflexivity|].
  destruct (f32.gt (dist y) (dist x)).
  - specialize (IH y). destruct (sweep y r) as [x' r'].
    transitivity (x :: x' :: r'); [apply Permutation_swap | apply perm_skip; exact IH].
  - specialize (IH x). destruct (sweep x r) as [x' r'].
    transitivity (y :: x' :: r'); [apply Permutation_swap|].
    transitivity (y :: x :: r); [apply perm_skip; exact IH | apply Permutation_swap].
Qed.

Lemma sortDesc_n_perm (n : nat) (W : list candidate) : sortDesc_n n W ≡ₚ W.
Proof.
  revert W. induction n as [|n IH]; intros W; [by destruct W|].
  destruct W as [|x rest]; [reflexivity|]. cbn [sortDesc_n].
  pose proof (sweep_perm x rest) as Hs. destruct (sweep x rest) as [x' rest'].
  transitivity (x' :: rest'); [apply perm_skip, IH | exact Hs].
Qed.

Lemma sortDesc_perm (W : list candidate) : sortDesc W ≡ₚ W.
Proof. apply sortDesc_n_perm. Qed.

Lemma sortDesc_length (W : list candidate) : length (sortDesc W) = length W.
Proof. apply Permutation_length, sortDesc_perm. Qed.

(** *** mapM *)

Lemma mapM_exec_length {A B : Type} (f : A -> exec B) (l : list A) (r : list B) :
  mapM_exec f l = Ret r -> length r = length l.
Proof.
  revert r. induction l as [|a l IH]; intros r H; simpl in H.
  - by injection H as <-.
  - exec_inv H. exec_inv H. injection H as <-. simpl. f_equal. eauto.
Qed.

(** *** Capacity *)

Lemma pruneNeighbours_length (g : Graph) (i : Z) (nbs kept : list Z) (maxConn : Z) :
  pruneNeighbours g i nbs maxConn = Ret kept ->
  maxConn < len nbs -> len kept <= maxConn.
Proof.
  unfold pruneNeighbours. intros H Hlt. exec_inv H. exec_inv H. injection H as <-.
  apply mapM_exec_length in Ha.
  unfold len in *. rewrite length_map.
  rewrite sortDesc_length, Ha in Ha0.
  destruct (Z.ltb_spec maxConn (Z.of_nat (length nbs))); [|lia].
  destruct (Z.ltb_spec maxConn 0); [discriminate|].
  injection Ha0 as <-. rewrite length_take. lia.
Qed.

Lemma maxConnOf_capacity (g : Graph) (L : nat) :
  maxConnOf g (Z.of_nat L) = capacity g L.
Proof.
  unfold maxConnOf, capacity. destruct L; simpl; reflexivity.
Qed.

Lemma setNeighbors_capacity (g g' : Graph) (i lc : Z) (l : list Z) :
  setNeighbors g i lc l = Ret g' ->
  capacity_bound g -> len l <= maxConnOf g lc -> capacity_bound g'.
Proof.
  intros Hset Hcap Hl a nd' L lst Hnd' HL.
  destruct (setNeighbors_lookup _ _ _ _ _ _ _ Hset Hnd') as (nd & Hnd & _ & _ & Hl').
  pose proof (setNeighbors_params _ _ _ _ _ Hset) as (Hm & _).
  pose proof (setNeighbors_Ret _ _ _ _ _ Hset) as (_ & _ & _ & Hlc & _).
  assert (Hc : capacity g' L = capacity g L) by (unfold capacity; by rewrite Hm).
  rewrite Hc.
  destruct (Hl' L lst HL) as [(-> & -> & ->)|Hold].
  - rewrite <- maxConnOf_capacity. rewrite Z2Nat.id by exact Hlc. exact Hl.
  - eapply Hcap; eauto.
Qed.

Lemma linkBack_as_set (i lc : Z) (g g' : Graph) (nb : Z) :
  linkBack i lc g nb = Ret g' ->
  exists l, setNeighbors g nb lc l = Ret g' /\ len l <= Z.max (maxConnOf g lc) 0.
Proof.
  unfold linkBack. intros H. exec_inv H. exec_inv H. exec_inv H.
  destruct (Z.ltb_spec (maxConnOf g lc) (len (x0 ++ [i]))) as [Hover|Hfit].
  - exec_inv H. rewrite (setNeighbors_twice _ _ _ _ _ _ Ha1) in H.
    exists x2. split; [exact H|].
    apply pruneNeighbours_length in Ha2; [lia | exact Hover].
  - injection H as <-. exists (x0 ++ [i]). split; [exact Ha1 | lia].
Qed.

Lemma linkBack_capacity (i lc : Z) (g g' : Graph) (nb : Z) :
  linkBack i lc g nb = Ret g' ->
  0 <= m g -> capacity_bound g -> capacity_bound g'.
Proof.
  intros H Hm Hcap. apply linkBack_as_set in H as (l & Hset & Hl).
  eapply setNeighbors_capacity; eauto.
  assert (0 <= maxConnOf g lc) by (unfold maxConnOf; destruct (lc =? 0); lia).
  lia.
Qed.

Lemma linkBack_params (i lc : Z) (g g' : Graph) (nb : Z) :
  linkBack i lc g nb = Ret g' ->
  m g' = m g /\ efConstruction g' = efConstruction g /\ efSearch g' = efSearch g
  /\ entryPoint g' = entryPoint g /\ maxLayer g' = maxLayer g /\ rng g' = rng g
  /\ length (nodes g') = length (nodes g).
Proof.
  intros H. apply linkBack_as_set in H as (l & Hset & _).
  eapply setNeighbors_params; eauto.
Qed.

Lemma selectNeighbours_length (cs : list candidate) (m0 : Z) (sel : list Z) :
  selectNeighbours cs m0 = Ret sel -> len sel <= m0.
Proof.
  unfold selectNeighbours, len. intros H.
  destruct (Z.leb_spec (Z.of_nat (length cs)) m0).
  - injection H as <-. rewrite length_map. lia.
  - destruct (Z.ltb_spec m0 0); [discriminate|]. injection H as <-.
    rewrite length_map, length_take. lia.
Qed.

(** *** Sortedness of the exchange sort *)

Lemma sweep_tops (x : candidate) (rest : list candidate) :
  let '(x', rest') := sweep x rest in
  tops x' rest' /\ (x' = x \/ f32.gt (dist x') (dist x) = true).
Proof.
  revert x. induction rest as [|y r IH]; intros x; simpl.
  - split; [constructor | by left].
  - destruct (f32.gt (dist y) (dist x)) eqn:Hyx.
    + specialize (IH y). destruct (sweep y r) as [x' r']. destruct IH as [Ht Hx'].
      assert (Hgt : f32.gt (dist x') (dist x) = true).
      { destruct Hx' as [->|Hx']; [exact Hyx | eapply f32_gt_trans; eauto]. }
      split; [|by right]. constructor; [|exact Ht]. by apply f32_gt_asym.
    + specialize (IH x). destruct (sweep x r) as [x' r']. destruct IH as [Ht Hx'].
      split; [|exact Hx']. constructor; [|exact Ht].
      destruct Hx' as [->|Hx']; [exact Hyx|].
      destruct (f32.gt (dist y) (dist x')) eqn:E; [|reflexivity].
      rewrite (f32_gt_trans _ _ _ E Hx') in Hyx. discriminate.
Qed.

Lemma sortDesc_n_sorted (n : nat) (W : list candidate) :
  (length W <= n)%nat ->
  StronglySorted (fun a b => f32.gt (dist b) (dist a) = false) (sortDesc_n n W).
Proof.
  revert W. induction n as [|n IH]; intros W Hn.
  - destruct W; [constructor | simpl in Hn; lia].
  - destruct W as [|x rest]; simpl; [constructor|].
    pose proof (sweep_tops x rest) as Ht. pose proof (sweep_perm x rest) as Hp.
    destruct (sweep x rest) as [x' rest']. destruct Ht as [Ht _].
    assert (Hlen : length rest' = length rest).
    { apply Permutation_length in Hp. simpl in Hp. lia. }
    constructor.
    + apply IH. simpl in Hn. lia.
    + unfold tops in Ht. rewrite Forall_forall in Ht. apply Forall_forall.
      intros z Hz. apply Ht. apply list_elem_of_In.
      rewrite <- (sortDesc_n_perm n rest'). by apply list_elem_of_In.
Qed.

Lemma sortDesc_sorted (W : list candidate) : descending (sortDesc W).
Proof. apply sortDesc_n_sorted. reflexivity. Qed.

(** *** container/heap: sizes and members *)

Lemma Swap_perm (h : list candidate) (i j : nat) : Swap h i j ≡ₚ h.
Proof.
  unfold Swap. destruct (h !! i) eqn:Ei; [|reflexivity].
  destruct (h !! j) eqn:Ej; [|reflexivity]. by apply swap_perm.
Qed.

Lemma up_perm (fuel : nat) (h : list candidate) (j : nat) : up fuel h j ≡ₚ h.
Proof.
  revert h j. induction fuel as [|fuel IH]; intros h j; cbn [up]; [reflexivity|].
  destruct (_ || _); [reflexivity|].
  etransitivity; [apply IH | apply Swap_perm].
Qed.

Lemma down_perm (fuel : nat) (h : list candidate) (i n : nat) : down fuel h i n ≡ₚ h.
Proof.
  revert h i. induction fuel as [|fuel IH]; intros h i; cbn [down]; [reflexivity|].
  destruct (n <=? 2 * i + 1)%nat; [reflexivity|].
  match goal with |- context [negb ?b] => destruct (negb b) end; [reflexivity|].
  etransitivity; [apply IH | apply Swap_perm].
Qed.

Lemma heap_Push_perm (h : list candidate) (x : candidate) : heap_Push h x ≡ₚ x :: h.
Proof.
  unfold heap_Push. etransitivity; [apply up_perm|].
  symmetry. apply Permutation_cons_append.
Qed.

Lemma heap_Pop_length (h : list candidate) :
  length (down (length h) (Swap h 0 (length h - 1)) 0 (length h - 1)) = length h.
Proof.
  apply Permutation_length. etransitivity; [apply down_perm | apply Swap_perm].
Qed.

Lemma heap_Pop_None (h : list candidate) : heap_Pop h = None <-> h = [].
Proof.
  unfold heap_Pop. split.
  - destruct (_ !! _) eqn:E; [discriminate|]. intros _.
    apply lookup_ge_None in E. rewrite heap_Pop_length in E.
    destruct h; [reflexivity | simpl in E; lia].
  - intros ->. reflexivity.
Qed.

Lemma heap_Pop_Some (h h' : list candidate) (c : candidate) :
  heap_Pop h = Some (c, h') -> h ≡ₚ h' ++ [c].
Proof.
  unfold heap_Pop.
  pose proof (heap_Pop_length h) as Hl.
  assert (Hp : down (length h) (Swap h 0 (length h - 1)) 0 (length h - 1) ≡ₚ h).
  { etransitivity; [apply down_perm | apply Swap_perm]. }
  revert Hl Hp. generalize (down (length h) (Swap h 0 (length h - 1)) 0 (length h - 1)).
  intros h1 Hl Hp. destruct (h1 !! (length h - 1)%nat) eqn:E; [|discriminate].
  intros H. injection H as <- <-.
  symmetry. etransitivity; [|exact Hp].
  assert (Hd : drop (length h - 1) h1 = [c0]).
  { apply list_eq. intros k. rewrite lookup_drop.
    destruct k as [|k]; simpl.
    - rewrite Nat.add_0_r. exact E.
    - apply lookup_ge_None. lia. }
  rewrite <- Hd. rewrite take_drop. reflexivity.
Qed.

(** *** The beam search *)

Lemma filter_length_lt {A : Type} (P Q : A -> Prop) `{!forall x, Decision (P x)}
    `{!forall x, Decision (Q x)} (l : list A) (x : A) :
  (forall y, Q y -> P y) -> x ∈ l -> P x -> ~ Q x ->
  (length (filter Q l) < length (filter P l))%nat.
Proof.
  intros HQP Hx HP HnQ.
  assert (Hle : forall l', (length (filter Q l') <= length (filter P l'))%nat).
  { induction l' as [|y l' IH]; [reflexivity|].
    rewrite !filter_cons. destruct (decide (Q y)) as [Hq|Hq].
    - destruct (decide (P y)) as [_|Hp]; [simpl; lia | by destruct Hp; apply HQP].
    - destruct (decide (P y)); simpl; lia. }
  induction l as [|y l IH]; [by apply elem_of_nil in Hx|].
  rewrite !filter_cons. apply elem_of_cons in Hx as [<-|Hx].
  - destruct (decide (Q x)); [contradiction|].
    destruct (decide (P x)); [|contradiction]. simpl. specialize (Hle l). lia.
  - specialize (IH Hx). destruct (decide (Q y)) as [Hq|Hq].
    + destruct (decide (P y)) as [_|Hp]; [simpl; lia | by destruct Hp; apply HQP].
    + destruct (decide (P y)); simpl; lia.
Qed.

Lemma filter_all {A : Type} (P : A -> Prop) `{!forall x, Decision (P x)} (l : list A) :
  (forall x, P x) -> filter P l = l.
Proof.
  intros HP. induction l as [|x l IH]; [reflexivity|].
  rewrite filter_cons_True by apply HP. by rewrite IH.
Qed.

Lemma unvisited_empty (g : Graph) : unvisited g ∅ = length (nodes g).
Proof.
  unfold unvisited. rewrite filter_all by set_solver.
  rewrite length_seqZ. unfold len. lia.
Qed.

Lemma unvisited_insert (g : Graph) (vis : gset Z) (x : Z) :
  0 <= x < len (nodes g) -> x ∉ vis ->
  (unvisited g ({[x]} ∪ vis) < unvisited g vis)%nat.
Proof.
  intros Hx Hn. unfold unvisited.
  apply (filter_length_lt _ _ _ x).
  - set_solver.
  - apply elem_of_seqZ. lia.
  - exact Hn.
  - set_solver.
Qed.

Lemma minIdx_lt (W : list candidate) : W <> [] -> (minIdx W < length W)%nat.
Proof.
  destruct W as [|c rest]; [congruence|]. intros _. unfold minIdx.
  assert (H : forall l mi md i, (mi < i)%nat ->
            ((fold_left (fun '(mi, md, i) c' =>
                if f32.lt (dist c') md then (i, dist c', S i) else (mi, md, S i))
              l (mi, md, i)).1.1 < i + length l)%nat).
  { induction l as [|c' l IH]; intros mi md i Hlt; simpl; [lia|].
    destruct (f32.lt (dist c') md).
    - specialize (IH i (dist c') (S i)). lia.
    - specialize (IH mi md (S i)). lia. }
  specialize (H rest 0%nat (dist c) 1%nat). simpl in *. lia.
Qed.

Lemma dropWorst_perm (W : list candidate) :
  W <> [] -> exists x, W ≡ₚ x :: dropWorst W.
Proof.
  intros Hne. pose proof (minIdx_lt W Hne) as Hlt. unfold dropWorst.
  destruct (last W) as [l|] eqn:El; [|by apply last_None in El].
  apply last_Some in El as [W0 ->]. rewrite length_app in *. simpl in *.
  replace (length W0 + 1 - 1)%nat with (length W0) by lia.
  destruct (decide (minIdx (W0 ++ [l]) = length W0)) as [E|E].
  - exists l. rewrite E.
    rewrite insert_app_r_alt by lia. rewrite Nat.sub_diag. simpl.
    rewrite take_app_length. symmetry. apply Permutation_cons_append.
  - assert (Hk : (minIdx (W0 ++ [l]) < length W0)%nat) by lia.
    destruct (lookup_lt_is_Some_2 W0 _ Hk) as [x Hx].
    exists x. rewrite insert_app_l by exact Hk.
    rewrite take_app_length' by (by rewrite length_insert).
    transitivity (l :: W0); [symmetry; apply Permutation_cons_append|].
    symmetry. by apply insert_take_out.
Qed.

Lemma dropWorst_length (W : list candidate) :
  W <> [] -> length (dropWorst W) = (length W - 1)%nat.
Proof.
  intros Hne. destruct (dropWorst_perm W Hne) as [x Hp].
  apply Permutation_length in Hp. simpl in Hp. lia.
Qed.

Lemma mode_listed (al : fault -> Prop) (d : nat) (g : Graph) (query : list Z) (lc x : Z) :
  mode al d g query -> listed g lc x ->
  al IndexOutOfRange \/ 0 <= x < len (nodes g).
Proof.
  intros [Hl|[Hwf _]] Hx; [left; by apply Hl | right].
  destruct (wf_ids _ _ Hwf _ _ Hx) as (nd & H0 & Hnd & _).
  apply lookup_lt_Some in Hnd. unfold len. lia.
Qed.

Lemma sim_from_length (sum : Z) (a b : list Z) :
  (length a <= length b)%nat -> exists s, sim_from sum a b = Ret s.
Proof.
  revert sum b. induction a as [|x a IH]; intros sum b Hl; simpl; [eauto|].
  destruct b as [|y b]; [simpl in Hl; lia|]. apply IH. simpl in Hl. lia.
Qed.

Lemma sim_from_fault (sum : Z) (a b : list Z) (f : fault) :
  sim_from sum a b = Fault f -> f = IndexOutOfRange /\ (length b < length a)%nat.
Proof.
  revert sum b. induction a as [|x a IH]; intros sum b; simpl; [discriminate|].
  destruct b as [|y b].
  - intros H. injection H as <-. simpl. split; [reflexivity | lia].
  - intros H. apply IH in H as [-> H]. simpl. split; [reflexivity | lia].
Qed.

Lemma outcome_sim (al : fault -> Prop) (d : nat) (g : Graph) (query : list Z)
    (a : nat) (nd : node) (Q : Z -> Prop) :
  mode al d g query -> nodes g !! a = Some nd ->
  (forall s, sim query (vec nd) = Ret s -> Q s) ->
  outcome al (sim query (vec nd)) Q.
Proof.
  intros Hm Hnd HQ. destruct (sim query (vec nd)) as [s|f] eqn:E; simpl; [by apply HQ|].
  apply sim_from_fault in E as [-> Hlt]. destruct Hm as [Hl|[Hwf Hq]]; [by apply Hl|].
  rewrite (wf_dim _ _ Hwf _ _ Hnd) in Hlt. lia.
Qed.

Lemma minSimInW_Ret (W : list candidate) : W <> [] -> exists s, minSimInW W = Ret s.
Proof. destruct W; [congruence | simpl; eauto]. Qed.

Lemma visit_spec (al : fault -> Prop) (d : nat) (g : Graph) (query : list Z)
    (ep ef lc : Z) (st : beam) (nb : Z) :
  mode al d g query -> beam_ok g query ep ef lc st -> listed g lc nb ->
  outcome al (visit g query ef st nb)
    (fun st' => beam_ok g query ep ef lc st'
                /\ (beam_measure g st' <= beam_measure g st)%nat).
Proof.
  intros Hm (HC & HW & Hvis & Hnd & Hne & Hlen) Hnb. unfold visit.
  destruct (decide (nb ∈ visited st)) as [Hin|Hnin]; simpl.
  { split; [by repeat split | lia]. }
  apply outcome_bind, outcome_index; [by eapply mode_listed|]. intros nd H0 Hlk _.
  apply outcome_bind. eapply outcome_sim; [exact Hm | exact Hlk|]. intros s Hs _.
  assert (Hrange : 0 <= nb < len (nodes g)).
  { apply lookup_lt_Some in Hlk. unfold len. lia. }
  pose proof (unvisited_insert g (visited st) nb Hrange Hnin) as Hun.
  assert (Hc : cand_ok g query ep lc (mkCand nb s)).
  { exists nd. simpl. auto. }
  destruct (_ || _).
  - set (W1 := setW st ++ [mkCand nb s]).
    assert (HW1 : Forall (cand_ok g query ep lc) W1) by (apply Forall_app; auto).
    assert (Hnd1 : NoDup (map id W1)).
    { unfold W1. rewrite map_app. simpl. apply NoDup_app. split; [exact Hnd|].
      split; [|apply NoDup_singleton].
      intros x Hx Hx'. apply list_elem_of_singleton in Hx'. subst x.
      apply list_elem_of_In, in_map_iff in Hx as (c & <- & Hc').
      apply list_elem_of_In in Hc'. by apply Hnin, Hvis. }
    assert (Hvis1 : forall c, c ∈ W1 -> id c ∈ {[nb]} ∪ visited st).
    { intros c Hc'. apply elem_of_app in Hc' as [Hc'|Hc'].
      - apply elem_of_union_r. by apply Hvis.
      - apply list_elem_of_singleton in Hc'. subst c. simpl. set_solver. }
    assert (Hne1 : W1 <> []) by (unfold W1; by destruct (setW st)).
    assert (Hlen1 : length W1 = S (length (setW st))).
    { unfold W1. rewrite length_app. simpl. lia. }
    set (W2 := if ef <? len W1 then dropWorst W1 else W1).
    assert (HW2 : Forall (cand_ok g query ep lc) W2 /\ NoDup (map id W2)
                  /\ (forall c, c ∈ W2 -> id c ∈ {[nb]} ∪ visited st)
                  /\ W2 <> [] /\ len W2 <= Z.max ef 1).
    { unfold W2. destruct (Z.ltb_spec ef (len W1)) as [Hover|Hfit].
      - destruct (dropWorst_perm W1 Hne1) as [x Hp].
        pose proof (dropWorst_length W1 Hne1) as Hdl.
        assert (Hsub : forall c, c ∈ dropWorst W1 -> c ∈ W1).
        { intros c Hc'. eapply perm_elem; [symmetry; exact Hp|].
          by apply list_elem_of_further. }
        repeat split.
        + apply Forall_forall. intros c Hc'. rewrite Forall_forall in HW1. auto.
        + assert (Hp' : map id W1 ≡ₚ id x :: map id (dropWorst W1)).
          { change (id x :: map id (dropWorst W1)) with (map id (x :: dropWorst W1)).
            by apply Permutation_map. }
          eapply (NoDup_Permutation_proper _ _ Hp') in Hnd1.
          by apply NoDup_cons in Hnd1 as [_ ?].
        + auto.
        + intros E. rewrite E in Hdl. simpl in Hdl.
          destruct (setW st); [congruence | simpl in *; lia].
        + unfold len in *. lia.
      - repeat split; auto. unfold len in *. lia. }
    destruct HW2 as (HW2 & Hnd2 & Hvis2 & Hne2 & Hlen2).
    apply outcome_bind. destruct (minSimInW_Ret W2 Hne2) as [w Hw]. rewrite Hw.
    simpl. intros _. split.
    + repeat split; simpl; auto.
      apply Forall_forall. intros c Hc'.
        apply (perm_elem _ _ _ (heap_Push_perm _ _)) in Hc'.
        apply elem_of_cons in Hc' as [->|Hc']; [exact Hc|].
        rewrite Forall_forall in HC. auto.
    + unfold beam_measure. simpl.
      pose proof (Permutation_length (heap_Push_perm (heapC st) (mkCand nb s))) as Hpl.
      simpl in Hpl. lia.
  - simpl. split.
    + repeat split; simpl; auto. intros c Hc'. apply elem_of_union_r. by apply Hvis.
    + unfold beam_measure. simpl. lia.
Qed.

Lemma searchLoop_spec (al : fault -> Prop) (d : nat) (g : Graph) (query : list Z)
    (ep ef lc : Z) (fuel : nat) (st : beam) :
  mode al d g query -> 0 <= lc -> beam_ok g query ep ef lc st ->
  (beam_measure g st <= fuel)%nat ->
  outcome al (searchLoop fuel g query ef lc st) (layer_result g query ep ef lc).
Proof.
  intros Hm Hlc. revert st. induction fuel as [|fuel IH]; intros st Hok Hmu.
  - cbn [searchLoop]. destruct (heap_Pop (heapC st)) as [[c C']|] eqn:Ep.
    + apply heap_Pop_Some, Permutation_length in Ep. rewrite length_app in Ep.
      unfold beam_measure in Hmu. simpl in Ep. lia.
    + destruct Hok as (_ & HW & _ & Hnd & Hne & Hlen). by repeat split.
  - cbn [searchLoop]. destruct (heap_Pop (heapC st)) as [[c C']|] eqn:Ep.
    2: { destruct Hok as (_ & HW & _ & Hnd & Hne & Hlen). by repeat split. }
    pose proof (heap_Pop_Some _ _ _ Ep) as Hp.
    destruct Hok as (HC & HW & Hvis & Hnd & Hne & Hlen).
    destruct (_ && _); [by repeat split|].
    assert (HC' : Forall (cand_ok g query ep lc) C' /\ cand_ok g query ep lc c).
    { assert (HCc : Forall (cand_ok g query ep lc) (C' ++ [c])).
      { apply Forall_forall. intros x Hx. rewrite Forall_forall in HC. apply HC.
        eapply perm_elem; [symmetry; exact Hp | exact Hx]. }
      apply Forall_app in HCc as [? Hc]. split; [assumption|]. by inversion Hc. }
    destruct HC' as [HC' Hc]. destruct Hc as (nd & Hc0 & Hlk & Hsim & Hfrom).
    set (st1 := mkBeam (visited st) C' (setW st) (worstSim st)).
    assert (Hok1 : beam_ok g query ep ef lc st1) by (by repeat split).
    assert (Hmu1 : (beam_measure g st1 <= fuel)%nat).
    { unfold beam_measure in *. simpl. apply Permutation_length in Hp.
      rewrite length_app in Hp. simpl in Hp. lia. }
    apply outcome_bind, outcome_index.
    { right. apply lookup_lt_Some in Hlk. unfold len. lia. }
    intros nd' _ Hlk' _. rewrite Hlk in Hlk'. injection Hlk' as <-.
    apply outcome_bind.
    apply (outcome_weaken al _
             (fun st2 => beam_ok g query ep ef lc st2
                         /\ (beam_measure g st2 <= beam_measure g st1)%nat)).
    + destruct (Z.ltb_spec lc (len (neighbors nd))) as [Hl|Hl]; [|simpl; split; [exact Hok1 | lia]].
      apply outcome_bind, outcome_index; [right; lia|]. intros nbs _ Hnbs _.
      apply outcome_foldM; [|split; [exact Hok1 | lia]].
      intros st0 nb [Hok0 Hmu0] Hin.
      eapply outcome_weaken.
      * eapply visit_spec; [exact Hm | exact Hok0|].
        exists (Z.to_nat (id c)), nd, nbs. auto.
      * intros st' _ [Hok' Hmu']. split; [exact Hok' | lia].
    + intros st2 _ [Hok2 Hmu2] _. apply IH; [exact Hok2 | lia].
Qed.

Lemma heap_Init_single (c : candidate) : heap_Init [c] = [c].
Proof. reflexivity. Qed.

Lemma searchLayer_spec (al : fault -> Prop) (d : nat) (g : Graph) (query : list Z)
    (ep ef lc : Z) :
  mode al d g query -> 0 <= lc ->
  al IndexOutOfRange \/ 0 <= ep < len (nodes g) ->
  outcome al (searchLayer g query ep ef lc)
    (fun W => layer_result g query ep ef lc W /\ descending W).
Proof.
  intros Hm Hlc Hep. unfold searchLayer.
  apply outcome_bind, outcome_index; [exact Hep|]. intros nd Hep0 Hlk _.
  apply outcome_bind. eapply outcome_sim; [exact Hm | exact Hlk|]. intros s Hs _.
  rewrite heap_Init_single.
  assert (Hc : cand_ok g query ep lc (mkCand ep s)) by (exists nd; simpl; auto).
  apply outcome_bind. eapply outcome_weaken.
  - eapply searchLoop_spec; [exact Hm | exact Hlc | |].
    + repeat split; simpl.
      * by constructor.
      * by constructor.
      * intros c Hin. apply list_elem_of_singleton in Hin. subst c. simpl. set_solver.
      * apply NoDup_singleton.
      * discriminate.
      * unfold len. simpl. lia.
    + unfold beam_measure. simpl.
      assert (Hr : 0 <= ep < len (nodes g)).
      { apply lookup_lt_Some in Hlk. unfold len. lia. }
      pose proof (unvisited_insert g ∅ ep Hr) as Hu.
      rewrite unvisited_empty in Hu. rewrite union_empty_r_L in Hu.
      assert (ep ∉ (∅ : gset Z)) by set_solver. specialize (Hu H). lia.
  - intros W _ (HW & Hnd & Hne & Hlen) _. simpl.
    pose proof (sortDesc_perm W) as Hp. split; [|apply sortDesc_sorted].
    repeat split.
    + apply Forall_forall. intros c Hin. rewrite Forall_forall in HW.
      apply HW. eapply perm_elem; [exact Hp | exact Hin].
    + eapply NoDup_Permutation_proper; [apply Permutation_map; exact Hp | exact Hnd].
    + intros E. rewrite E in Hp. apply Permutation_nil_l in Hp. by apply Hne.
    + unfold len. rewrite (Permutation_length Hp). exact Hlen.
Qed.

(** *** The greedy descent *)

Lemma greedyPass_spec (al : fault -> Prop) (d : nat) (g : Graph) (query : list Z)
    (lc best bestSim : Z) :
  mode al d g query -> 0 <= lc ->
  al IndexOutOfRange \/ 0 <= best < len (nodes g) ->
  outcome al (greedyPass g query lc best bestSim) (pass_ok g query lc best bestSim).
Proof.
  intros Hm Hlc Hbest. unfold greedyPass.
  apply outcome_bind, outcome_index; [exact Hbest|]. intros nd H0 Hlk _.
  destruct (Z.ltb_spec lc (len (neighbors nd))) as [Hl|Hl]; [|simpl; by left].
  apply outcome_bind, outcome_index; [right; lia|]. intros nbs _ Hnbs _.
  apply outcome_foldM; [|simpl; by left].
  intros [[b bs] ch] nb Hok Hin.
  assert (Hlisted : listed g lc nb) by (exists (Z.to_nat best), nd, nbs; auto).
  apply outcome_bind, outcome_index; [by eapply mode_listed|]. intros nd' Hnb0 Hlk' _.
  apply outcome_bind. eapply outcome_sim; [exact Hm | exact Hlk'|]. intros s Hs _.
  destruct (f32.gt s bs) eqn:Hgt; simpl; [|exact Hok].
  right. split; [reflexivity|]. split; [|split; [exact Hlisted | eauto]].
  destruct Hok as [(_ & _ & ->)|(_ & Hbs & _)]; [exact Hgt|].
  eapply f32_gt_trans; eauto.
Qed.

Lemma better_lt (g : Graph) (query : list Z) (s s' : Z) (b : nat) (nd : node) :
  nodes g !! b = Some nd -> sim query (vec nd) = Ret s' -> f32.gt s' s = true ->
  (better g query s' < better g query s)%nat.
Proof.
  intros Hlk Hsim Hgt. unfold better.
  apply (filter_length_lt _ _ _ nd).
  - intros nd0. unfold beats. destruct (sim query (vec nd0)); [|discriminate].
    intros H. eapply f32_gt_trans; eauto.
  - eapply list_elem_of_lookup_2; eauto.
  - unfold beats. by rewrite Hsim.
  - unfold beats. rewrite Hsim, f32_gt_irrefl. discriminate.
Qed.

Lemma better_le (g : Graph) (query : list Z) (s : Z) :
  (better g query s <= length (nodes g))%nat.
Proof. unfold better. apply length_filter. Qed.

Lemma greedyLoop_spec (al : fault -> Prop) (d : nat) (g : Graph) (query : list Z)
    (lc : Z) (fuel : nat) (best bestSim : Z) :
  mode al d g query -> 0 <= lc ->
  al IndexOutOfRange \/ 0 <= best < len (nodes g) ->
  (better g query bestSim < fuel)%nat ->
  outcome al (greedyLoop fuel g query lc best bestSim)
    (fun b => b = best \/ listed g lc b).
Proof.
  intros Hm Hlc. revert best bestSim.
  induction fuel as [|fuel IH]; intros best bestSim Hbest Hfuel; [lia|].
  cbn [greedyLoop]. apply outcome_bind. eapply outcome_weaken.
  - by apply (greedyPass_spec al d).
  - intros [[b bs] ch] _ Hok _. simpl in Hok.
    destruct Hok as [(-> & -> & ->)|(-> & Hgt & Hl & nd & Hb0 & Hlk & Hsim)].
    + simpl. by left.
    + eapply outcome_weaken.
      * apply IH.
        -- right. apply lookup_lt_Some in Hlk. unfold len. lia.
        -- pose proof (better_lt g query bestSim bs _ nd Hlk Hsim Hgt). lia.
      * intros b' _ [->|Hb']; by right.
Qed.

Lemma greedySearchLayer_spec (al : fault -> Prop) (d : nat) (g : Graph) (query : list Z)
    (ep lc : Z) :
  mode al d g query -> 0 <= lc ->
  al IndexOutOfRange \/ 0 <= ep < len (nodes g) ->
  outcome al (greedySearchLayer g query ep lc) (fun b => b = ep \/ listed g lc b).
Proof.
  intros Hm Hlc Hep. unfold greedySearchLayer.
  apply outcome_bind, outcome_index; [exact Hep|]. intros nd H0 Hlk _.
  apply outcome_bind. eapply outcome_sim; [exact Hm | exact Hlk|]. intros s Hs _.
  apply (greedyLoop_spec al d); auto.
  pose proof (better_le g query s). lia.
Qed.

Lemma descend_spec (al : fault -> Prop) (d : nat) (g : Graph) (query : list Z)
    (k : nat) (ep lc : Z) :
  mode al d g query -> Z.of_nat k <= lc + 1 ->
  al IndexOutOfRange \/ 0 <= ep < len (nodes g) ->
  outcome al (descend k g query ep lc)
    (fun b => b = ep \/ exists L, lc - Z.of_nat k < L <= lc /\ listed g L b).
Proof.
  intros Hm. revert ep lc. induction k as [|k IH]; intros ep lc Hk Hep.
  - simpl. by left.
  - cbn [descend]. apply outcome_bind. eapply outcome_weaken.
    + apply (greedySearchLayer_spec al d); [exact Hm | lia | exact Hep].
    + intros ep' _ Hep' _. eapply outcome_weaken.
      * apply IH; [lia|]. destruct Hep' as [->|Hl]; [exact Hep | by eapply mode_listed].
      * intros b _ [->|(L & HL & Hb)].
        -- destruct Hep' as [->|Hl]; [by left | right; exists lc; split; [lia | exact Hl]].
        -- right. exists L. split; [lia | exact Hb].
Qed.

(** *** What a step keeps of the graph *)

Lemma kept_refl (g : Graph) : kept g g.
Proof. by repeat split. Qed.

Lemma kept_trans (g1 g2 g3 : Graph) : kept g1 g2 -> kept g2 g3 -> kept g1 g3.
Proof.
  unfold kept. intros (?&?&?&?&?&?) (?&?&?&?&?&?). repeat split; congruence.
Qed.

Lemma same_shape_refl (g : Graph) : same_shape g g.
Proof. split; [reflexivity|]. intros a nd H. exists nd. auto. Qed.

Lemma same_shape_nodes (g g' : Graph) : nodes g' = nodes g -> same_shape g g'.
Proof.
  intros E. split; [by rewrite E|]. intros a nd H. rewrite E in H. exists nd. auto.
Qed.

Lemma same_shape_trans (g1 g2 g3 : Graph) :
  same_shape g1 g2 -> same_shape g2 g3 -> same_shape g1 g3.
Proof.
  intros [Hl1 H1] [Hl2 H2]. split; [congruence|]. intros a nd3 H3.
  destruct (H2 a nd3 H3) as (nd2 & Hnd2 & Hv2 & Hn2).
  destruct (H1 a nd2 Hnd2) as (nd1 & Hnd1 & Hv1 & Hn1).
  exists nd1. repeat split; [assumption | congruence | congruence].
Qed.

Lemma same_shape_lookup (g g' : Graph) (a : nat) (nd : node) :
  same_shape g g' -> nodes g !! a = Some nd ->
  exists nd', nodes g' !! a = Some nd' /\ vec nd' = vec nd
              /\ length (neighbors nd') = length (neighbors nd).
Proof.
  intros [Hl H] Hnd.
  destruct (lookup_lt_is_Some_2 (nodes g') a) as [nd' Hnd'].
  { rewrite Hl. by eapply lookup_lt_Some. }
  destruct (H a nd' Hnd') as (nd0 & Hnd0 & Hv & Hn).
  rewrite Hnd in Hnd0. injection Hnd0 as <-. eauto.
Qed.

Lemma has_layer_mono (g : Graph) (x lc lc' : Z) :
  has_layer g x lc -> lc' <= lc -> has_layer g x lc'.
Proof. intros (nd & H0 & Hnd & Hl) Hle. exists nd. repeat split; [assumption..|lia]. Qed.

Lemma has_layer_valid (g : Graph) (x lc : Z) :
  has_layer g x lc -> 0 <= x < len (nodes g).
Proof.
  intros (nd & H0 & Hnd & _). apply lookup_lt_Some in Hnd. unfold len. lia.
Qed.

Lemma same_shape_has_layer (g g' : Graph) (x lc : Z) :
  same_shape g g' -> has_layer g x lc <-> has_layer g' x lc.
Proof.
  intros Hs. split.
  - intros (nd & H0 & Hnd & Hl).
    destruct (same_shape_lookup _ _ _ _ Hs Hnd) as (nd' & Hnd' & _ & Hn).
    exists nd'. unfold len in *. repeat split; [assumption..|lia].
  - intros (nd' & H0 & Hnd' & Hl). destruct Hs as [_ Hs].
    destruct (Hs _ _ Hnd') as (nd & Hnd & _ & Hn).
    exists nd. unfold len in *. repeat split; [assumption..|lia].
Qed.

Lemma setNeighbors_shape (g g' : Graph) (i lc : Z) (l : list Z) :
  setNeighbors g i lc l = Ret g' -> kept g g' /\ same_shape g g'.
Proof.
  intros H. pose proof (setNeighbors_params _ _ _ _ _ H) as (?&?&?&?&?&?&?).
  split; [by repeat split|]. split; [assumption|].
  intros a nd' Hnd'. destruct (setNeighbors_lookup _ _ _ _ _ _ _ H Hnd') as (nd & ? & ? & ? & _).
  eauto.
Qed.

Lemma setNeighbors_has_layer (g g' : Graph) (i lc : Z) (l : list Z) :
  setNeighbors g i lc l = Ret g' -> has_layer g i lc.
Proof.
  intros H. apply setNeighbors_Ret in H as (nd & old & Hi & Hlc & Hnd & Hold & _).
  exists nd. repeat split; [assumption..|].
  apply lookup_lt_Some in Hold. unfold len. lia.
Qed.

Lemma setNeighbors_listed (g g' : Graph) (i lc : Z) (l : list Z) (L x : Z) :
  setNeighbors g i lc l = Ret g' -> listed g' L x ->
  listed g L x \/ (L = lc /\ x ∈ l).
Proof.
  intros H (a & nd' & lst & Hnd' & HL & Hlst & Hx).
  destruct (setNeighbors_lookup _ _ _ _ _ _ _ H Hnd') as (nd & Hnd & _ & _ & Hcase).
  pose proof (setNeighbors_Ret _ _ _ _ _ H) as (_ & _ & _ & Hlc & _).
  destruct (Hcase _ _ Hlst) as [(_ & HLlc & ->)|Hold].
  - right. split; [lia | exact Hx].
  - left. exists a, nd, lst. auto.
Qed.

Lemma setNeighbors_wf (d : nat) (g g' : Graph) (i lc : Z) (l : list Z) :
  setNeighbors g i lc l = Ret g' -> wf d g ->
  (forall x, x ∈ l -> has_layer g x lc) -> wf d g'.
Proof.
  intros H Hwf Hl. pose proof (setNeighbors_shape _ _ _ _ _ H) as [Hk Hs].
  destruct Hk as (Hm & _ & _ & He & Hml & _).
  split.
  - rewrite Hm. apply (wf_m _ _ Hwf).
  - intros L x Hx. apply (same_shape_has_layer _ _ _ _ Hs).
    destruct (setNeighbors_listed _ _ _ _ _ _ _ H Hx) as [Hold|[-> Hin]].
    + by apply (wf_ids _ _ Hwf).
    + by apply Hl.
  - intros a nd' Hnd'. destruct Hs as [_ Hs].
    destruct (Hs _ _ Hnd') as (nd & Hnd & Hv & _). rewrite Hv.
    by apply (wf_dim _ _ Hwf a).
  - right. rewrite He, Hml. destruct (wf_entry _ _ Hwf) as [Hnil|[H0 Hent]].
    + apply setNeighbors_Ret in H as (nd & _ & _ & _ & Hnd & _).
      rewrite Hnil in Hnd. discriminate.
    + split; [exact H0|]. by apply (same_shape_has_layer _ _ _ _ Hs).
Qed.

(** *** pruneNeighbours and selectNeighbours keep ids of their input *)

Lemma mapM_exec_ids (f : Z -> exec candidate) (l : list Z) (r : list candidate) :
  (forall n c, f n = Ret c -> id c = n) ->
  mapM_exec f l = Ret r -> map id r = l.
Proof.
  intros Hf. revert r. induction l as [|n l IH]; intros r H; simpl in H.
  - by injection H as <-.
  - exec_inv H. exec_inv H. injection H as <-. simpl. f_equal; eauto.
Qed.

Lemma pruneNeighbours_subset (g : Graph) (i : Z) (nbs kept_ : list Z) (maxConn : Z) :
  pruneNeighbours g i nbs maxConn = Ret kept_ ->
  forall x, x ∈ kept_ -> x ∈ nbs.
Proof.
  unfold pruneNeighbours. intros H x Hx.
  run_inv H as scored Hscored. run_inv H as ks Hks. injection H as <-.
  assert (Hids : map id scored = nbs).
  { eapply mapM_exec_ids; [|exact Hscored]. intros n c Hc. simpl in Hc.
    run_inv Hc as a Ha. run_inv Hc as b Hb. run_inv Hc as s Hs.
    by injection Hc as <-. }
  assert (Hsub : forall c, c ∈ ks -> c ∈ scored).
  { intros c Hc. eapply perm_elem; [apply sortDesc_perm|].
    destruct (maxConn <? len (sortDesc scored)).
    - destruct (maxConn <? 0); [discriminate|]. injection Hks as <-.
      by apply (subseteq_take (Z.to_nat maxConn)).
    - by injection Hks as <-. }
  apply list_elem_of_In, in_map_iff in Hx as (c & <- & Hc).
  rewrite <- Hids. apply list_elem_of_In, in_map. apply list_elem_of_In, Hsub.
  by apply list_elem_of_In.
Qed.

Lemma selectNeighbours_subset (cs : list candidate) (m0 : Z) (sel : list Z) :
  selectNeighbours cs m0 = Ret sel ->
  forall x, x ∈ sel -> exists c, c ∈ cs /\ id c = x.
Proof.
  unfold selectNeighbours. intros H x Hx.
  destruct (len cs <=? m0).
  - injection H as <-. apply list_elem_of_In, in_map_iff in Hx as (c & <- & Hc).
    exists c. split; [by apply list_elem_of_In | reflexivity].
  - destruct (m0 <? 0); [discriminate|]. injection H as <-.
    apply list_elem_of_In, in_map_iff in Hx as (c & <- & Hc).
    exists c. split; [|reflexivity]. apply list_elem_of_In in Hc.
    by apply (subseteq_take (Z.to_nat m0)).
Qed.

(** *** linkBack *)

Lemma linkBack_inv (i lc : Z) (g g' : Graph) (nb : Z) :
  linkBack i lc g nb = Ret g' ->
  exists nd old l,
    0 <= nb /\ nodes g !! Z.to_nat nb = Some nd
    /\ 0 <= lc /\ neighbors nd !! Z.to_nat lc = Some old
    /\ setNeighbors g nb lc l = Ret g'
    /\ (forall x, x ∈ l -> x = i \/ x ∈ old)
    /\ (len (old ++ [i]) <= maxConnOf g lc -> l = old ++ [i]).
Proof.
  unfold linkBack. intros H.
  run_inv H as nd Hnd. run_inv H as old Hold. run_inv H as g1 Hg1.
  apply index_Ret in Hnd as [Hnb Hnd]. apply index_Ret in Hold as [Hlc Hold].
  exists nd, old.
  destruct (Z.ltb_spec (maxConnOf g lc) (len (old ++ [i]))) as [Hover|Hfit].
  - run_inv H as pruned Hpr. rewrite (setNeighbors_twice _ _ _ _ _ _ Hg1) in H.
    exists pruned.
    refine (conj Hnb (conj Hnd (conj Hlc (conj Hold (conj H (conj _ _)))))); [|lia].
    intros y Hy. apply (pruneNeighbours_subset _ _ _ _ _ Hpr) in Hy.
    apply elem_of_app in Hy as [Hy|Hy]; [by right|].
    apply list_elem_of_singleton in Hy. by left.
  - injection H as <-. exists (old ++ [i]).
    refine (conj Hnb (conj Hnd (conj Hlc (conj Hold (conj Hg1 (conj _ _)))))); [|auto].
    intros y Hy. apply elem_of_app in Hy as [Hy|Hy]; [by right|].
    apply list_elem_of_singleton in Hy. by left.
Qed.

Lemma linkBack_shape (i lc : Z) (g g' : Graph) (nb : Z) :
  linkBack i lc g nb = Ret g' -> kept g g' /\ same_shape g g'.
Proof.
  intros H. apply linkBack_inv in H as (nd & old & l & _ & _ & _ & _ & Hset & _).
  by eapply setNeighbors_shape.
Qed.

Lemma linkBack_wf (d : nat) (i lc : Z) (g g' : Graph) (nb : Z) :
  linkBack i lc g nb = Ret g' -> wf d g -> has_layer g i lc -> wf d g'.
Proof.
  intros H Hwf Hi.
  apply linkBack_inv in H as (nd & old & l & Hnb & Hnd & Hlc & Hold & Hset & Hl & _).
  eapply setNeighbors_wf; [exact Hset | exact Hwf|].
  intros x Hx. destruct (Hl x Hx) as [->|Hin]; [exact Hi|].
  apply (wf_ids _ _ Hwf). exists (Z.to_nat nb), nd, old. auto.
Qed.

Lemma foldM_linkBack (d : nat) (i lc : Z) (sel : list Z) (g g' : Graph) :
  foldM (linkBack i lc) sel g = Ret g' ->
  kept g g' /\ same_shape g g' /\ (wf d g -> has_layer g i lc -> wf d g').
Proof.
  intros H.
  apply (foldM_invariant
           (fun g1 => kept g g1 /\ same_shape g g1
                      /\ (wf d g -> has_layer g i lc -> wf d g1))
           _ _ _ _) in H; [exact H | | ].
  - intros g1 nb g2 (Hk & Hs & Hw) _ Hstep.
    destruct (linkBack_shape _ _ _ _ _ Hstep) as [Hk' Hs'].
    split; [by eapply kept_trans|]. split; [by eapply same_shape_trans|].
    intros Hwf Hi. eapply linkBack_wf; [exact Hstep | by apply Hw|].
    by apply (same_shape_has_layer _ _ _ _ Hs).
  - split; [apply kept_refl|]. split; [apply same_shape_refl | auto].
Qed.

(** *** One layer of an insertion *)

Lemma connectLayer_inv (v : list Z) (i lc : Z) (g g' : Graph) (ep ep' : Z) :
  connectLayer v i lc g ep = Ret (g', ep') ->
  exists cands sel g1,
    searchLayer g v ep (efConstruction g) lc = Ret cands
    /\ selectNeighbours cands (m g) = Ret sel
    /\ setNeighbors g i lc sel = Ret g1
    /\ foldM (linkBack i lc) sel g1 = Ret g'
    /\ ep' = match cands with c :: _ => id c | [] => ep end.
Proof.
  unfold connectLayer. intros H.
  run_inv H as cands Hc. run_inv H as sel Hsel. run_inv H as g1 Hg1.
  run_inv H as g2 Hg2. injection H as <- <-. eauto 10.
Qed.

Lemma connectLayer_shape (v : list Z) (i lc : Z) (g g' : Graph) (ep ep' : Z) :
  connectLayer v i lc g ep = Ret (g', ep') -> kept g g' /\ same_shape g g'.
Proof.
  intros H. apply connectLayer_inv in H as (cands & sel & g1 & _ & _ & Hg1 & Hg2 & _).
  destruct (setNeighbors_shape _ _ _ _ _ Hg1) as [Hk1 Hs1].
  destruct (foldM_linkBack 0 _ _ _ _ _ Hg2) as (Hk2 & Hs2 & _).
  split; [by eapply kept_trans | by eapply same_shape_trans].
Qed.

Lemma searchLayer_Ret (g : Graph) (query : list Z) (ep ef lc : Z) (W : list candidate) :
  0 <= lc -> searchLayer g query ep ef lc = Ret W ->
  layer_result g query ep ef lc W /\ descending W.
Proof.
  intros Hlc H.
  apply (outcome_Ret no_fuel (searchLayer g query ep ef lc)
           (fun W => layer_result g query ep ef lc W /\ descending W) W); [|exact H].
  apply (searchLayer_spec no_fuel 0); [left; apply lenient_no_fuel | exact Hlc|].
  left. discriminate.
Qed.

Lemma connectLayer_wf (d : nat) (v : list Z) (i lc : Z) (g g' : Graph) (ep ep' : Z) :
  connectLayer v i lc g ep = Ret (g', ep') ->
  0 <= lc -> wf d g -> has_layer g ep lc ->
  wf d g' /\ has_layer g' ep' lc.
Proof.
  intros H Hlc Hwf Hep.
  pose proof (connectLayer_shape _ _ _ _ _ _ _ H) as [_ Hs].
  apply connectLayer_inv in H as (cands & sel & g1 & Hc & Hsel & Hg1 & Hg2 & ->).
  apply (searchLayer_Ret _ _ _ _ _ _ Hlc) in Hc as [(Hcok & _) _].
  assert (Hcl : forall c, c ∈ cands -> has_layer g (id c) lc).
  { intros c Hin. rewrite Forall_forall in Hcok.
    destruct (Hcok c Hin) as (nd & _ & _ & _ & [->|Hl]); [exact Hep|].
    by apply (wf_ids _ _ Hwf). }
  assert (Hwf1 : wf d g1).
  { eapply setNeighbors_wf; [exact Hg1 | exact Hwf|].
    intros x Hx. destruct (selectNeighbours_subset _ _ _ Hsel x Hx) as (c & Hin & <-).
    by apply Hcl. }
  pose proof (setNeighbors_has_layer _ _ _ _ _ Hg1) as Hi.
  destruct (setNeighbors_shape _ _ _ _ _ Hg1) as [_ Hs1].
  destruct (foldM_linkBack d _ _ _ _ _ Hg2) as (_ & _ & Hw).
  split.
  - apply Hw; [exact Hwf1 | by apply (same_shape_has_layer _ _ _ _ Hs1)].
  - apply (same_shape_has_layer _ _ _ _ Hs).
    destruct cands as [|c cs]; [exact Hep|]. apply Hcl, list_elem_of_here.
Qed.

Lemma connectLayers_shape (k : nat) (v : list Z) (i : Z) (g g' : Graph) (ep ep' lc : Z) :
  connectLayers k v i g ep lc = Ret (g', ep') -> kept g g' /\ same_shape g g'.
Proof.
  revert g ep lc. induction k as [|k IH]; intros g ep lc H; cbn [connectLayers] in H.
  - injection H as <- <-. split; [apply kept_refl | apply same_shape_refl].
  - run_inv H as r Hr. destruct r as [g1 ep1].
    destruct (connectLayer_shape _ _ _ _ _ _ _ Hr) as [Hk1 Hs1].
    destruct (IH _ _ _ H) as [Hk2 Hs2].
    split; [by eapply kept_trans | by eapply same_shape_trans].
Qed.

Lemma connectLayers_wf (d : nat) (k : nat) (v : list Z) (i : Z) (g g' : Graph)
    (ep ep' lc : Z) :
  connectLayers k v i g ep lc = Ret (g', ep') ->
  Z.of_nat k <= lc + 1 -> wf d g -> has_layer g ep lc -> wf d g'.
Proof.
  revert g ep lc. induction k as [|k IH]; intros g ep lc H Hk Hwf Hep;
    cbn [connectLayers] in H.
  - by injection H as <- <-.
  - run_inv H as r Hr. destruct r as [g1 ep1].
    destruct (connectLayer_wf d _ _ _ _ _ _ _ Hr) as [Hwf1 Hep1]; [lia | assumption..|].
    eapply IH; [exact H | lia | exact Hwf1|].
    eapply has_layer_mono; [exact Hep1 | lia].
Qed.

(** *** Insert *)

Section InsertFacts.
Variable randLevel : Z -> nat -> nat.

Lemma Insert_inv (v : list Z) (g g' : Graph) :
  Insert randLevel v g = Ret g' ->
  let i := uint32 (len (nodes g)) in
  let level := randomLevel randLevel g in
  (i = 0 /\ g' = setEntry (appended randLevel v g) 0 level)
  \/ (i <> 0 /\ exists ep g1 ep1,
        descend (Z.to_nat (maxLayer g - level)) (appended randLevel v g) v (entryPoint g) (maxLayer g)
          = Ret ep
        /\ connectLayers (Z.to_nat (Z.min level (maxLayer g) + 1)) v i (appended randLevel v g) ep
             (Z.min level (maxLayer g)) = Ret (g1, ep1)
        /\ g' = if maxLayer g <? level then setEntry g1 i level else g1).
Proof.
  unfold Insert. fold (appended randLevel v g). intros H. simpl.
  destruct (Z.eqb_spec (uint32 (len (nodes g))) 0) as [E|E].
  - left. injection H as <-. auto.
  - right. split; [exact E|]. simpl in H.
    run_inv H as ep Hep. run_inv H as r Hr. destruct r as [g1 ep1].
    injection H as <-. exists ep, g1, ep1. auto.
Qed.

Lemma randomLevel_nonneg (g : Graph) : 0 <= randomLevel randLevel g.
Proof. unfold randomLevel. lia. Qed.

Lemma uint32_small (z : Z) : 0 <= z < 2 ^ 32 -> uint32 z = z.
Proof. intros H. unfold uint32. by apply Z.mod_small. Qed.

(** [Insert] appends one node, which holds the vector and occupies the
    layers 0..level; the nodes already there keep their vector and their
    layers; the parameters stay and the generator advances by one draw. *)
Lemma Insert_shape (v : list Z) (g g' : Graph) :
  Insert randLevel v g = Ret g' ->
  length (nodes g') = S (length (nodes g))
  /\ m g' = m g /\ efConstruction g' = efConstruction g /\ efSearch g' = efSearch g
  /\ rng g' = S (rng g)
  /\ (forall (a : nat) nd, nodes g !! a = Some nd ->
        exists nd', nodes g' !! a = Some nd' /\ vec nd' = vec nd
                    /\ length (neighbors nd') = length (neighbors nd))
  /\ (exists nd', nodes g' !! length (nodes g) = Some nd' /\ vec nd' = v
                  /\ length (neighbors nd') = S (randLevel (m g) (rng g))).
Proof.
  intros H.
  assert (Hbase : forall g1, m g1 = m g -> efConstruction g1 = efConstruction g ->
            efSearch g1 = efSearch g -> rng g1 = S (rng g) ->
            same_shape (appended randLevel v g) g1 ->
            length (nodes g1) = S (length (nodes g))
            /\ m g1 = m g /\ efConstruction g1 = efConstruction g /\ efSearch g1 = efSearch g
            /\ rng g1 = S (rng g)
            /\ (forall (a : nat) nd, nodes g !! a = Some nd ->
                  exists nd', nodes g1 !! a = Some nd' /\ vec nd' = vec nd
                              /\ length (neighbors nd') = length (neighbors nd))
            /\ (exists nd', nodes g1 !! length (nodes g) = Some nd' /\ vec nd' = v
                            /\ length (neighbors nd') = S (randLevel (m g) (rng g)))).
  { intros g1 Hm Hc Hs Hr Hsh.
    split; [destruct Hsh as [-> _]; simpl; rewrite length_app; simpl; lia|].
    split; [exact Hm|]. split; [exact Hc|]. split; [exact Hs|]. split; [exact Hr|].
    split.
    - intros a nd Hnd. eapply same_shape_lookup; [exact Hsh|].
      simpl. by apply lookup_app_l_Some.
    - assert (Hfresh : nodes (appended randLevel v g) !! length (nodes g)
                         = Some (mkNode (replicate (Z.to_nat (randomLevel randLevel g + 1)) []) v)).
      { simpl. rewrite lookup_app_r by lia. rewrite Nat.sub_diag. reflexivity. }
      destruct (same_shape_lookup _ _ _ _ Hsh Hfresh) as (nd' & Hnd' & Hv & Hn).
      exists nd'. split; [exact Hnd'|]. split; [exact Hv|]. rewrite Hn. simpl.
      rewrite length_replicate. unfold randomLevel. lia. }
  apply Insert_inv in H. simpl in H.
  destruct H as [[_ ->]|[_ (ep & g1 & ep1 & _ & Hc & ->)]].
  - apply (Hbase (setEntry (appended randLevel v g) 0 _));
      [reflexivity | reflexivity | reflexivity | reflexivity | by apply same_shape_nodes].
  - destruct (connectLayers_shape _ _ _ _ _ _ _ _ Hc) as [Hk Hs].
    destruct Hk as (Hk1 & Hk2 & Hk3 & _ & _ & Hk6).
    destruct (maxLayer g <? randomLevel randLevel g).
    + apply (Hbase (setEntry g1 _ _)); [exact Hk1 | exact Hk2 | exact Hk3 | exact Hk6 |].
      eapply same_shape_trans; [exact Hs | by apply same_shape_nodes].
    + apply Hbase; assumption.
Qed.

End InsertFacts.

Section InsertWf.
Variable randLevel : Z -> nat -> nat.

Lemma appended_wf (d : nat) (v : list Z) (g : Graph) :
  wf d g -> length v = d -> nodes g <> [] -> wf d (appended randLevel v g).
Proof.
  intros Hwf Hv Hne.
  assert (Hhl : forall x lc, has_layer g x lc -> has_layer (appended randLevel v g) x lc).
  { intros x lc (nd & H0 & Hnd & Hl). exists nd. repeat split; [assumption| |assumption].
    simpl. by apply lookup_app_l_Some. }
  split.
  - apply (wf_m _ _ Hwf).
  - intros lc x (a & nd & lst & Hnd & Hlc & Hlst & Hx). simpl in Hnd.
    apply lookup_app_Some in Hnd as [Hnd|[_ Hnd]].
    + apply Hhl, (wf_ids _ _ Hwf). exists a, nd, lst. auto.
    + apply list_lookup_singleton_Some in Hnd as [_ <-]. simpl in Hlst.
      apply lookup_replicate in Hlst as [-> _]. by apply elem_of_nil in Hx.
  - intros a nd Hnd. simpl in Hnd. apply lookup_app_Some in Hnd as [Hnd|[_ Hnd]].
    + by apply (wf_dim _ _ Hwf a).
    + apply list_lookup_singleton_Some in Hnd as [_ <-]. exact Hv.
  - right. destruct (wf_entry _ _ Hwf) as [E|[H0 He]]; [contradiction|].
    split; [exact H0 | by apply Hhl].
Qed.

Lemma appended_fresh_layer (v : list Z) (g : Graph) (lc : Z) :
  lc <= randomLevel randLevel g ->
  has_layer (appended randLevel v g) (len (nodes g)) lc.
Proof.
  intros Hlc. pose proof (randomLevel_nonneg randLevel g) as Hnn.
  exists (mkNode (replicate (Z.to_nat (randomLevel randLevel g + 1)) []) v).
  split; [unfold len; lia|]. split.
  - simpl. unfold len. rewrite Nat2Z.id. rewrite lookup_app_r by lia.
    by rewrite Nat.sub_diag.
  - simpl. unfold len. rewrite length_replicate. lia.
Qed.

Lemma descend_Ret (k : nat) (g : Graph) (query : list Z) (ep lc b : Z) :
  Z.of_nat k <= lc + 1 -> descend k g query ep lc = Ret b ->
  b = ep \/ exists L, lc - Z.of_nat k < L <= lc /\ listed g L b.
Proof.
  intros Hk H.
  apply (outcome_Ret no_fuel (descend k g query ep lc)
           (fun b => b = ep \/ exists L, lc - Z.of_nat k < L <= lc /\ listed g L b) b);
    [|exact H].
  apply (descend_spec no_fuel 0); [left; apply lenient_no_fuel | exact Hk|].
  left. discriminate.
Qed.

(** [Insert] keeps the graph well formed. *)
Lemma Insert_wf (d : nat) (v : list Z) (g g' : Graph) :
  Insert randLevel v g = Ret g' ->
  wf d g -> length v = d -> len (nodes g) < 2 ^ 32 -> wf d g'.
Proof.
  intros H Hwf Hv Hlt. pose proof (randomLevel_nonneg randLevel g) as Hnn.
  assert (Hi : uint32 (len (nodes g)) = len (nodes g)).
  { apply uint32_small. unfold len in *. lia. }
  apply Insert_inv in H. simpl in H. rewrite Hi in H.
  destruct H as [[E ->]|[E (ep & g1 & ep1 & Hd & Hc & ->)]].
  - assert (Hnil : nodes g = []).
    { destruct (nodes g); [reflexivity | unfold len in E; simpl in E; lia]. }
    split; simpl.
    + apply (wf_m _ _ Hwf).
    + intros lc x (a & nd & lst & Hnd & Hlc & Hlst & Hx). simpl in Hnd.
      rewrite Hnil in Hnd. simpl in Hnd.
      apply list_lookup_singleton_Some in Hnd as [_ <-]. simpl in Hlst.
      apply lookup_replicate in Hlst as [-> _]. by apply elem_of_nil in Hx.
    + intros a nd Hnd. rewrite Hnil in Hnd. simpl in Hnd.
      apply list_lookup_singleton_Some in Hnd as [_ <-]. exact Hv.
    + right. split; [exact Hnn|].
      exists (mkNode (replicate (Z.to_nat (randomLevel randLevel g + 1)) []) v).
      split; [lia|]. split; [simpl; rewrite Hnil; reflexivity|].
      simpl. unfold len. rewrite length_replicate. lia.
  - assert (Hne : nodes g <> []).
    { intros E'. apply E. rewrite E'. reflexivity. }
    pose proof (appended_wf d v g Hwf Hv Hne) as Hwf0.
    destruct (wf_entry _ _ Hwf0) as [E0|[Hml Hent]].
    { simpl in E0. by destruct (nodes g). }
    simpl in Hml, Hent.
    assert (Hep : has_layer (appended randLevel v g) ep
                    (Z.min (randomLevel randLevel g) (maxLayer g))).
    { apply descend_Ret in Hd; [|lia].
      destruct Hd as [->|(L & HL & Hl)].
      - eapply has_layer_mono; [exact Hent | lia].
      - eapply has_layer_mono; [apply (wf_ids _ _ Hwf0 _ _ Hl) | lia]. }
    pose proof (connectLayers_wf d _ _ _ _ _ _ _ _ Hc) as Hwf1.
    specialize (Hwf1 ltac:(lia) Hwf0 Hep).
    destruct (connectLayers_shape _ _ _ _ _ _ _ _ Hc) as [Hk Hs].
    destruct (Z.ltb_spec (maxLayer g) (randomLevel randLevel g)) as [Hnew|Hold];
      [|exact Hwf1].
    split; simpl.
    + apply (wf_m _ _ Hwf1).
    + apply (wf_ids _ _ Hwf1).
    + apply (wf_dim _ _ Hwf1).
    + right. split; [exact Hnn|].
      assert (Hf : has_layer g1 (len (nodes g)) (randomLevel randLevel g)).
      { apply (same_shape_has_layer _ _ _ _ Hs). by apply appended_fresh_layer. }
      destruct Hf as (nd & H0 & Hnd & Hl). exists nd. auto.
Qed.

Lemma New_wf (d : nat) (m0 efc efs : Z) : wf d (New m0 efc efs).
Proof.
  split; simpl.
  - destruct (m0 <=? 0) eqn:E; [unfold DefaultM; lia | apply Z.leb_gt in E; lia].
  - intros lc x (a & nd & lst & Hnd & _). by destruct a.
  - intros a nd Hnd. by destruct a.
  - by left.
Qed.

End InsertWf.

(** *** Insert and Search run to their end *)

Lemma outcome_mapM {A B : Type} (al : fault -> Prop) (f : A -> exec B) (l : list A) :
  (forall a, a ∈ l -> outcome al (f a) (fun _ => True)) ->
  outcome al (mapM_exec f l) (fun _ => True).
Proof.
  induction l as [|a l IH]; intros Hf; simpl; [exact I|].
  apply outcome_bind. eapply outcome_weaken; [apply Hf, list_elem_of_here|].
  intros b _ _ _. apply outcome_bind. eapply outcome_weaken.
  - apply IH. intros a' Ha'. apply Hf. by apply list_elem_of_further.
  - intros bs _ _ _. exact I.
Qed.

Lemma lenient_or {P : Prop} (al : fault -> Prop) (f : fault) :
  lenient al \/ P -> f <> FuelExhausted -> al f \/ P.
Proof. intros [Hl|HP] Hf; [left; by apply Hl | by right]. Qed.

Lemma setNeighbors_run (al : fault -> Prop) (g : Graph) (i lc : Z) (l : list Z) :
  lenient al \/ (has_layer g i lc /\ 0 <= lc) ->
  outcome al (setNeighbors g i lc l) (fun _ => True).
Proof.
  intros Hm. unfold setNeighbors.
  apply outcome_bind, outcome_index.
  { destruct Hm as [Hl|[Hi _]]; [left; by apply Hl | right; by eapply has_layer_valid]. }
  intros nd H0 Hnd _. apply outcome_bind, outcome_index.
  { destruct Hm as [Hl|[(nd' & _ & Hnd' & Hlt) Hlc]]; [left; by apply Hl | right].
    rewrite Hnd in Hnd'. injection Hnd' as <-. lia. }
  intros old _ _ _. exact I.
Qed.

Lemma pruneNeighbours_run (al : fault -> Prop) (d : nat) (g : Graph) (i : Z)
    (nbs : list Z) (maxConn : Z) :
  lenient al
  \/ (wf d g /\ 0 <= i < len (nodes g)
      /\ (forall x, x ∈ nbs -> 0 <= x < len (nodes g)) /\ 0 <= maxConn) ->
  outcome al (pruneNeighbours g i nbs maxConn) (fun _ => True).
Proof.
  intros Hm. unfold pruneNeighbours. apply outcome_bind. eapply outcome_weaken.
  - apply outcome_mapM. intros n Hn.
    apply outcome_bind, outcome_index.
    { destruct Hm as [Hl|(_ & Hi & _)]; [left; by apply Hl | by right]. }
    intros a _ Ha _. apply outcome_bind, outcome_index.
    { destruct Hm as [Hl|(_ & _ & Hnbs & _)]; [left; by apply Hl | right; by apply Hnbs]. }
    intros b _ Hb _. apply outcome_bind.
    destruct (sim (vec a) (vec b)) as [s|f] eqn:E; simpl; [intros _; exact I|].
    apply sim_from_fault in E as [-> Hlt].
    destruct Hm as [Hl|(Hwf & _)]; [by apply Hl|].
    rewrite (wf_dim _ _ Hwf _ _ Ha), (wf_dim _ _ Hwf _ _ Hb) in Hlt. lia.
  - intros scored _ _ _. apply outcome_bind.
    destruct (maxConn <? len (sortDesc scored)); [|simpl; intros _; exact I].
    destruct (Z.ltb_spec maxConn 0); [|simpl; intros _; exact I].
    simpl. destruct Hm as [Hl|(_ & _ & _ & H0)]; [by apply Hl | lia].
Qed.

Lemma maxConnOf_nonneg (g : Graph) (lc : Z) : 0 <= m g -> 0 <= maxConnOf g lc.
Proof. intros H. unfold maxConnOf. destruct (lc =? 0); lia. Qed.

Lemma linkBack_run (al : fault -> Prop) (d : nat) (i lc : Z) (g : Graph) (nb : Z) :
  lenient al \/ (wf d g /\ 0 <= lc /\ has_layer g nb lc /\ has_layer g i lc) ->
  outcome al (linkBack i lc g nb) (fun _ => True).
Proof.
  intros Hm. unfold linkBack.
  apply outcome_bind, outcome_index.
  { destruct Hm as [Hl|(_ & _ & Hnb & _)]; [left; by apply Hl | right; by eapply has_layer_valid]. }
  intros nd H0 Hnd _. apply outcome_bind, outcome_index.
  { destruct Hm as [Hl|(_ & Hlc & (nd' & _ & Hnd' & Hlt) & _)]; [left; by apply Hl | right].
    rewrite Hnd in Hnd'. injection Hnd' as <-. lia. }
  intros old Hlc Hold _.
  assert (Hnbl : has_layer g nb lc).
  { exists nd. repeat split; [assumption..|]. apply lookup_lt_Some in Hold. unfold len. lia. }
  apply outcome_bind. eapply outcome_weaken.
  { apply setNeighbors_run. right. split; assumption. }
  intros g1 Hg1 _ _.
  destruct (setNeighbors_shape _ _ _ _ _ Hg1) as [Hk Hs].
  destruct (maxConnOf g lc <? len (old ++ [i])); [|exact I].
  apply outcome_bind. eapply outcome_weaken.
  - apply (pruneNeighbours_run al d).
    destruct Hm as [Hl|(Hwf & _ & _ & Hi)]; [by left | right].
    assert (Hwf1 : wf d g1).
    { eapply setNeighbors_wf; [exact Hg1 | exact Hwf|].
      intros x Hx. apply elem_of_app in Hx as [Hx|Hx].
      - apply (wf_ids _ _ Hwf). exists (Z.to_nat nb), nd, old. auto.
      - apply list_elem_of_singleton in Hx. by subst x. }
    split; [exact Hwf1|]. destruct Hs as [Hlen _].
    assert (Hv : forall x, has_layer g x lc -> 0 <= x < len (nodes g1)).
    { intros x Hx. apply has_layer_valid in Hx. unfold len in *. lia. }
    split; [by apply Hv|]. split.
    + intros x Hx. apply Hv. apply elem_of_app in Hx as [Hx|Hx].
      * apply (wf_ids _ _ Hwf). exists (Z.to_nat nb), nd, old. auto.
      * apply list_elem_of_singleton in Hx. by subst x.
    + apply maxConnOf_nonneg, (wf_m _ _ Hwf).
  - intros pruned _ _ _. eapply outcome_weaken.
    + apply setNeighbors_run. right. split; [|assumption].
      by apply (same_shape_has_layer _ _ _ _ Hs).
    + intros g2 _ _. exact I.
Qed.

Lemma selectNeighbours_run (al : fault -> Prop) (cs : list candidate) (m0 : Z) :
  al MakeLen \/ 0 <= m0 -> outcome al (selectNeighbours cs m0) (fun _ => True).
Proof.
  intros Hm. unfold selectNeighbours. destruct (len cs <=? m0); [exact I|].
  destruct (Z.ltb_spec m0 0); [|exact I]. simpl. destruct Hm; [assumption | lia].
Qed.

Lemma connectLayer_run (al : fault -> Prop) (d : nat) (v : list Z) (i lc : Z)
    (g : Graph) (ep : Z) :
  0 <= lc ->
  lenient al \/ (wf d g /\ length v = d /\ has_layer g ep lc /\ has_layer g i lc) ->
  outcome al (connectLayer v i lc g ep) (fun _ => True).
Proof.
  intros Hlc Hm. unfold connectLayer.
  assert (Hmode : mode al d g v).
  { destruct Hm as [Hl|(Hwf & Hv & _)]; [by left | right; split; [exact Hwf | lia]]. }
  apply outcome_bind. eapply outcome_weaken.
  { apply (searchLayer_spec al d); [exact Hmode | exact Hlc|].
    destruct Hm as [Hl|(_ & _ & Hep & _)]; [left; by apply Hl | right; by eapply has_layer_valid]. }
  intros cands _ [(Hcok & _) _] _.
  apply outcome_bind. eapply outcome_weaken.
  { apply selectNeighbours_run.
    destruct Hm as [Hl|(Hwf & _)]; [left; by apply Hl | right; apply (wf_m _ _ Hwf)]. }
  intros sel Hsel _ _.
  apply outcome_bind. eapply outcome_weaken.
  { apply setNeighbors_run. destruct Hm as [Hl|(_ & _ & _ & Hi)]; [by left | by right]. }
  intros g1 Hg1 _ _.
  destruct (setNeighbors_shape _ _ _ _ _ Hg1) as [_ Hs1].
  apply outcome_bind.
  apply (outcome_weaken al _
    (fun g2 => lenient al
               \/ (wf d g2 /\ (forall nb, nb ∈ sel -> has_layer g2 nb lc)
                   /\ has_layer g2 i lc))).
  - apply outcome_foldM.
    + intros g2 nb Hg2 Hnb. eapply outcome_weaken.
      * apply (linkBack_run al d).
        destruct Hg2 as [Hl|(Hwf2 & Hsel2 & Hi2)]; [by left | right].
        exact (conj Hwf2 (conj Hlc (conj (Hsel2 _ Hnb) Hi2))).
      * intros g3 Hg3 _. destruct Hg2 as [Hl|(Hwf2 & Hsel2 & Hi2)]; [by left | right].
        destruct (linkBack_shape _ _ _ _ _ Hg3) as [_ Hs3].
        split; [by eapply linkBack_wf|]. split.
        -- intros nb' Hnb'. by apply (same_shape_has_layer _ _ _ _ Hs3), Hsel2.
        -- by apply (same_shape_has_layer _ _ _ _ Hs3).
    + destruct Hm as [Hl|(Hwf & Hv & Hep & Hi)]; [by left | right].
      assert (Hcl : forall x, x ∈ sel -> has_layer g x lc).
      { intros x Hx. destruct (selectNeighbours_subset _ _ _ Hsel x Hx) as (c & Hin & <-).
        rewrite Forall_forall in Hcok.
        destruct (Hcok c Hin) as (nd & _ & _ & _ & [->|Hl]); [exact Hep|].
        by apply (wf_ids _ _ Hwf). }
      split; [by eapply setNeighbors_wf|]. split.
      * intros nb Hnb. by apply (same_shape_has_layer _ _ _ _ Hs1), Hcl.
      * by apply (same_shape_has_layer _ _ _ _ Hs1).
  - intros g2 _ _ _. exact I.
Qed.

Lemma connectLayers_run (al : fault -> Prop) (d : nat) (k : nat) (v : list Z) (i : Z)
    (g : Graph) (ep lc : Z) :
  Z.of_nat k <= lc + 1 ->
  lenient al \/ (wf d g /\ length v = d /\ has_layer g ep lc /\ has_layer g i lc) ->
  outcome al (connectLayers k v i g ep lc) (fun _ => True).
Proof.
  revert g ep lc. induction k as [|k IH]; intros g ep lc Hk Hm; [exact I|].
  cbn [connectLayers]. apply outcome_bind. eapply outcome_weaken.
  { apply (connectLayer_run al d); [lia | exact Hm]. }
  intros [g1 ep1] Hr _ _. eapply outcome_weaken.
  - apply IH; [lia|]. destruct Hm as [Hl|(Hwf & Hv & Hep & Hi)]; [by left | right].
    destruct (connectLayer_wf d _ _ _ _ _ _ _ Hr) as [Hwf1 Hep1]; [lia | assumption..|].
    destruct (connectLayer_shape _ _ _ _ _ _ _ Hr) as [_ Hs].
    split; [exact Hwf1|]. split; [exact Hv|]. split.
    + eapply has_layer_mono; [exact Hep1 | lia].
    + eapply has_layer_mono; [apply (same_shape_has_layer _ _ _ _ Hs), Hi | lia].
  - intros r _ _. exact I.
Qed.

Section InsertRuns.
Variable randLevel : Z -> nat -> nat.

Lemma Insert_run (al : fault -> Prop) (d : nat) (v : list Z) (g : Graph) :
  lenient al \/ (wf d g /\ length v = d /\ len (nodes g) < 2 ^ 32) ->
  outcome al (Insert randLevel v g) (fun _ => True).
Proof.
  intros Hm. pose proof (randomLevel_nonneg randLevel g) as Hnn.
  unfold Insert. fold (appended randLevel v g).
  destruct (Z.eqb_spec (uint32 (len (nodes g))) 0) as [E|E]; [exact I|].
  cbn [maxLayer entryPoint appended].
  assert (Hstrict : lenient al
            \/ (wf d (appended randLevel v g) /\ length v = d
                /\ 0 <= maxLayer g
                /\ has_layer (appended randLevel v g) (entryPoint g) (maxLayer g)
                /\ uint32 (len (nodes g)) = len (nodes g))).
  { destruct Hm as [Hl|(Hwf & Hv & Hlt)]; [by left | right].
    assert (Hi : uint32 (len (nodes g)) = len (nodes g)).
    { apply uint32_small. unfold len in *. lia. }
    assert (Hne : nodes g <> []).
    { intros E'. apply E. rewrite E'. reflexivity. }
    pose proof (appended_wf randLevel d v g Hwf Hv Hne) as Hwf0.
    destruct (wf_entry _ _ Hwf0) as [E0|[Hml Hent]].
    { simpl in E0. by destruct (nodes g). }
    auto. }
  apply outcome_bind.
  apply (outcome_weaken al _
    (fun b => b = entryPoint g
              \/ exists L, randomLevel randLevel g < L
                            /\ listed (appended randLevel v g) L b)).
  { destruct (Z.to_nat (maxLayer g - randomLevel randLevel g)) as [|k0] eqn:Ek.
    { simpl. by left. }
    eapply outcome_weaken;
      [apply (descend_spec al d)
      |intros b _ [->|(L & HL & Hl)]; [by left | right; exists L; split; [lia | exact Hl]]].
    - destruct Hstrict as [Hl|(Hwf0 & Hv & _)];
        [by left | right; split; [exact Hwf0 | lia]].
    - lia.
    - destruct Hstrict as [Hl|(_ & _ & _ & Hent & _)];
        [left; by apply Hl | right; by eapply has_layer_valid]. }
  intros ep _ Hep _.
  apply outcome_bind.
  destruct (Z.to_nat (Z.min (randomLevel randLevel g) (maxLayer g) + 1)) as [|k1] eqn:Ek1;
    [simpl; intros _; exact I|].
  eapply outcome_weaken.
  { apply (connectLayers_run al d); [lia|].
    destruct Hstrict as [Hl|(Hwf0 & Hv & Hml & Hent & Hi)]; [by left | right].
    split; [exact Hwf0|]. split; [exact Hv|]. split.
    + destruct Hep as [->|(L & HL & Hl)].
      * eapply has_layer_mono; [exact Hent | lia].
      * eapply has_layer_mono; [apply (wf_ids _ _ Hwf0 _ _ Hl) | lia].
    + rewrite Hi. apply appended_fresh_layer. lia. }
  intros [g1 ep1] _ _ _. exact I.
Qed.

End InsertRuns.

(** *** Search *)

Lemma Search_spec (al : fault -> Prop) (d : nat) (g : Graph) (query : list Z) (k : Z) :
  lenient al \/ (wf d g /\ (length query <= d)%nat /\ 0 <= k) ->
  outcome al (Search g query k)
    (fun rs => Forall (result_ok g query) rs /\ NoDup (map ID rs)
               /\ len rs <= Z.max k 0 /\ results_descending rs
               /\ (nodes g <> [] -> 1 <= k -> rs <> [])
               /\ (nodes g <> [] -> 0 <= k)).
Proof.
  intros Hm. unfold Search.
  destruct (Z.eqb_spec (len (nodes g)) 0) as [E|E].
  { simpl. split; [constructor|]. split; [constructor|]. split; [unfold len; simpl; lia|].
    split; [intros i j ri rj _ Hi; by destruct i|].
    assert (Hnil : nodes g = [])
      by (destruct (nodes g); [done | unfold len in E; simpl in E; lia]).
    split; intros Hne; contradiction. }
  assert (Hmode : mode al d g query).
  { destruct Hm as [Hl|(Hwf & Hq & _)]; [by left | right; by split]. }
  assert (Hent : lenient al \/ (0 <= maxLayer g /\ has_layer g (entryPoint g) (maxLayer g))).
  { destruct Hm as [Hl|(Hwf & _)]; [by left | right].
    destruct (wf_entry _ _ Hwf) as [E0|H]; [|exact H].
    rewrite E0 in E. by unfold len in E. }
  apply outcome_bind.
  apply (outcome_weaken al _
    (fun b => b = entryPoint g \/ exists L, 0 < L /\ listed g L b)).
  { destruct (Z.to_nat (maxLayer g)) as [|k0] eqn:Ek.
    { simpl. by left. }
    eapply outcome_weaken;
      [apply (descend_spec al d)
      |intros b _ [->|(L & HL & Hl)]; [by left | right; exists L; split; [lia | exact Hl]]].
    - exact Hmode.
    - lia.
    - destruct Hent as [Hl|[_ He]];
        [left; by apply Hl | right; by eapply has_layer_valid]. }
  intros ep _ Hep _.
  apply outcome_bind. eapply outcome_weaken.
  { apply (searchLayer_spec al d); [exact Hmode | lia|].
    destruct Hep as [->|(L & HL & Hl)].
    - destruct Hent as [Hl|[_ He]];
        [left; by apply Hl | right; by eapply has_layer_valid].
    - by eapply mode_listed. }
  intros W _ [(Hok & Hnd & Hne & Hlen) Hdesc] _.
  set (f := fun c : candidate => mkResult (id c) (dist c)).
  assert (Hres : forall top : list candidate,
            top `sublist_of` W -> (forall i, top !! i = W !! i \/ top !! i = None) ->
            Forall (result_ok g query) (map f top) /\ NoDup (map ID (map f top))
            /\ results_descending (map f top)).
  { intros top Hsub Hpre. split; [|split].
    - apply Forall_forall. intros r Hr. apply list_elem_of_In, in_map_iff in Hr as (c & <- & Hc).
      apply list_elem_of_In in Hc. rewrite Forall_forall in Hok.
      destruct (Hok c) as (nd & H0 & Hlk & Hs & _); [by eapply elem_of_sublist|].
      exists nd. simpl. auto.
    - rewrite map_map. simpl. change (map (fun x => id x) top) with (map id top).
      eapply sublist_NoDup; [exact Hnd|].
      change (map id top) with (id <$> top). change (map id W) with (id <$> W).
      by apply fmap_sublist.
    - intros i j ri rj Hij Hi Hj. rewrite map_lookup in Hi, Hj.
      destruct (top !! i) as [ci|] eqn:Ei; [|discriminate].
      destruct (top !! j) as [cj|] eqn:Ej; [|discriminate].
      injection Hi as <-. injection Hj as <-. simpl.
      apply (sorted_lookup _ W Hdesc i j ci cj Hij).
      + destruct (Hpre i) as [H|H]; congruence.
      + destruct (Hpre j) as [H|H]; congruence. }
  apply outcome_bind.
  destruct (Z.ltb_spec k (len W)) as [Hk|Hk].
  - destruct (Z.ltb_spec k 0) as [Hneg|Hpos].
    { simpl. destruct Hm as [Hl|(_ & _ & H0)]; [by apply Hl | lia]. }
    simpl. intros _.
    destruct (Hres (take (Z.to_nat k) W)) as (H1 & H2 & H3).
    { apply sublist_take. }
    { intros i. destruct (decide (i < Z.to_nat k)%nat).
      - left. by apply lookup_take_lt.
      - right. apply lookup_take_ge. lia. }
    split; [exact H1|]. split; [exact H2|]. split.
    { unfold len in *. rewrite length_map, length_take. lia. }
    split; [exact H3|]. split; [|intros _; exact Hpos]. intros _ H1k.
    destruct W as [|c W']; [done|].
    destruct (Z.to_nat k) eqn:Ek; [lia | done].
  - simpl. intros _.
    destruct (Hres W) as (H1 & H2 & H3); [done | by left|].
    split; [exact H1|]. split; [exact H2|]. split.
    { unfold len in *. rewrite length_map. lia. }
    split; [exact H3|]. split; [intros _ _; by destruct W|].
    intros _. destruct W; [done | unfold len in Hk; simpl in Hk; lia].
Qed.

Lemma Search_Ret (g : Graph) (query : list Z) (k : Z) (rs : list Result) :
  Search g query k = Ret rs ->
  Forall (result_ok g query) rs /\ NoDup (map ID rs)
  /\ len rs <= Z.max k 0 /\ results_descending rs
  /\ (nodes g <> [] -> 1 <= k -> rs <> [])
  /\ (nodes g <> [] -> 0 <= k).
Proof.
  intros H.
  apply (outcome_Ret no_fuel (Search g query k)
    (fun rs => Forall (result_ok g query) rs /\ NoDup (map ID rs)
               /\ len rs <= Z.max k 0 /\ results_descending rs
               /\ (nodes g <> [] -> 1 <= k -> rs <> [])
               /\ (nodes g <> [] -> 0 <= k)) rs); [|exact H].
  apply (Search_spec no_fuel 0). left. apply lenient_no_fuel.
Qed.

(** *** Capacity of the neighbour lists *)

Lemma foldM_linkBack_capacity (i lc : Z) (sel : list Z) (g g' : Graph) :
  foldM (linkBack i lc) sel g = Ret g' ->
  0 <= m g -> capacity_bound g -> capacity_bound g'.
Proof.
  intros H Hm Hcap.
  apply (foldM_invariant (fun g1 => capacity_bound g1 /\ m g1 = m g) _ _ _ _) in H;
    [by destruct H | | by split].
  intros g1 nb g2 [Hc1 Hm1] _ Hstep. split.
  - eapply linkBack_capacity; [exact Hstep | lia | exact Hc1].
  - destruct (linkBack_params _ _ _ _ _ Hstep) as [-> _]. exact Hm1.
Qed.

Lemma connectLayer_capacity (v : list Z) (i lc : Z) (g g' : Graph) (ep ep' : Z) :
  connectLayer v i lc g ep = Ret (g', ep') ->
  0 <= m g -> capacity_bound g -> capacity_bound g'.
Proof.
  intros H Hm Hcap.
  apply connectLayer_inv in H as (cands & sel & g1 & _ & Hsel & Hg1 & Hg2 & _).
  destruct (setNeighbors_params _ _ _ _ _ Hg1) as [Hm1 _].
  eapply foldM_linkBack_capacity; [exact Hg2 | lia|].
  eapply setNeighbors_capacity; [exact Hg1 | exact Hcap|].
  apply selectNeighbours_length in Hsel.
  unfold maxConnOf. destruct (lc =? 0); lia.
Qed.

Lemma connectLayers_capacity (k : nat) (v : list Z) (i : Z) (g g' : Graph) (ep ep' lc : Z) :
  connectLayers k v i g ep lc = Ret (g', ep') ->
  0 <= m g -> capacity_bound g -> capacity_bound g'.
Proof.
  revert g ep lc. induction k as [|k IH]; intros g ep lc H Hm Hcap; cbn [connectLayers] in H.
  - by injection H as <- <-.
  - run_inv H as r Hr. destruct r as [g1 ep1].
    destruct (connectLayer_shape _ _ _ _ _ _ _ Hr) as [(Hm1 & _) _].
    eapply IH; [exact H | lia|]. by eapply connectLayer_capacity.
Qed.

Lemma setEntry_capacity (g : Graph) (ep lvl : Z) :
  capacity_bound g -> capacity_bound (setEntry g ep lvl).
Proof. intros H a nd L lst Hnd HL. exact (H a nd L lst Hnd HL). Qed.

Section InsertAllFacts.
Variable randLevel : Z -> nat -> nat.

Lemma appended_capacity (v : list Z) (g : Graph) :
  0 <= m g -> capacity_bound g -> capacity_bound (appended randLevel v g).
Proof.
  intros Hm Hcap a nd L lst Hnd HL. simpl in Hnd.
  change (capacity (appended randLevel v g) L) with (capacity g L).
  apply lookup_app_Some in Hnd as [Hnd|[_ Hnd]].
  - by eapply Hcap.
  - apply list_lookup_singleton_Some in Hnd as [_ <-]. simpl in HL.
    apply lookup_replicate in HL as [-> _]. unfold capacity, len. simpl.
    destruct (L =? 0)%nat; lia.
Qed.

Lemma Insert_capacity (v : list Z) (g g' : Graph) :
  Insert randLevel v g = Ret g' ->
  0 <= m g -> capacity_bound g -> capacity_bound g'.
Proof.
  intros H Hm Hcap. apply Insert_inv in H. simpl in H.
  destruct H as [[_ ->]|[_ (ep & g1 & ep1 & _ & Hc & ->)]].
  - by apply setEntry_capacity, appended_capacity.
  - assert (Hc1 : capacity_bound g1).
    { eapply connectLayers_capacity; [exact Hc | exact Hm | by apply appended_capacity]. }
    destruct (maxLayer g <? randomLevel randLevel g);
      [by apply setEntry_capacity | exact Hc1].
Qed.

(** *** The entry point *)

Lemma Insert_top_ok (v : list Z) (g g' : Graph) :
  Insert randLevel v g = Ret g' ->
  len (nodes g) < 2 ^ 32 -> top_ok g -> top_ok g'.
Proof.
  intros H Hlt Htop. pose proof (randomLevel_nonneg randLevel g) as Hnn.
  assert (Hi : uint32 (len (nodes g)) = len (nodes g)).
  { apply uint32_small. unfold len in *. lia. }
  set (fresh := mkNode (replicate (Z.to_nat (randomLevel randLevel g + 1)) []) v).
  assert (Hfl : len (neighbors fresh) = randomLevel randLevel g + 1).
  { unfold len. simpl. rewrite length_replicate. lia. }
  apply Insert_inv in H. simpl in H. rewrite Hi in H.
  destruct H as [[E ->]|[E (ep & g1 & ep1 & _ & Hc & ->)]].
  - assert (Hnil : nodes g = []).
    { destruct (nodes g); [reflexivity | unfold len in E; simpl in E; lia]. }
    right. simpl. rewrite Hnil. simpl. split.
    + exists fresh. split; [lia|]. split; [reflexivity | exact Hfl].
    + intros a nd Hnd. apply list_lookup_singleton_Some in Hnd as [_ <-].
      fold fresh. lia.
  - destruct Htop as [Hnil|[(nde & He0 & Hnde & Hel) Hall]].
    { rewrite Hnil in E. by unfold len in E. }
    destruct (connectLayers_shape _ _ _ _ _ _ _ _ Hc) as [Hk Hs].
    destruct Hk as (_ & _ & _ & Hep & Hml & _). simpl in Hep, Hml.
    assert (Hold : forall (a : nat) nd', nodes g1 !! a = Some nd' ->
              (exists nd, nodes g !! a = Some nd
                          /\ len (neighbors nd') = len (neighbors nd))
              \/ (a = length (nodes g)
                  /\ len (neighbors nd') = randomLevel randLevel g + 1)).
    { intros a nd' Hnd'. destruct Hs as [_ Hs].
      destruct (Hs a nd' Hnd') as (nd & Hnd & _ & Hl). simpl in Hnd.
      apply lookup_app_Some in Hnd as [Hnd|[Hge Hnd]].
      - left. exists nd. split; [exact Hnd | unfold len; lia].
      - apply list_lookup_singleton_Some in Hnd as [Hz <-]. right.
        split; [lia|]. unfold len. rewrite Hl. simpl. rewrite length_replicate. lia. }
    assert (Hfresh : exists nd', nodes g1 !! length (nodes g) = Some nd'
                                 /\ len (neighbors nd') = randomLevel randLevel g + 1).
    { assert (Hf0 : nodes (appended randLevel v g) !! length (nodes g) = Some fresh).
      { simpl. rewrite lookup_app_r by lia. by rewrite Nat.sub_diag. }
      destruct (same_shape_lookup _ _ _ _ Hs Hf0) as (nd' & Hnd' & _ & Hl).
      exists nd'. split; [exact Hnd'|]. unfold len. rewrite Hl. simpl.
      rewrite length_replicate. lia. }
    assert (Hent : exists nd', nodes g1 !! Z.to_nat (entryPoint g) = Some nd'
                               /\ len (neighbors nd') = maxLayer g + 1).
    { assert (He1 : nodes (appended randLevel v g) !! Z.to_nat (entryPoint g) = Some nde).
      { simpl. by apply lookup_app_l_Some. }
      destruct (same_shape_lookup _ _ _ _ Hs He1) as (nd' & Hnd' & _ & Hl).
      exists nd'. split; [exact Hnd' | unfold len in *; lia]. }
    destruct (Z.ltb_spec (maxLayer g) (randomLevel randLevel g)) as [Hup|Hlow].
    + right. simpl. split.
      * destruct Hfresh as (nd' & Hnd' & Hl). exists nd'.
        split; [unfold len; lia|]. split; [|exact Hl].
        unfold len. by rewrite Nat2Z.id.
      * intros a nd' Hnd'. destruct (Hold a nd' Hnd') as [(nd & Hnd & ->)|[_ ->]];
          [specialize (Hall a nd Hnd); lia | lia].
    + right. rewrite Hep, Hml. split.
      * destruct Hent as (nd' & Hnd' & Hl). exists nd'. auto.
      * intros a nd' Hnd'. destruct (Hold a nd' Hnd') as [(nd & Hnd & ->)|[_ ->]];
          [exact (Hall a nd Hnd) | lia].
Qed.

(** *** Sequences of insertions *)

Lemma Insert_length (v : list Z) (g g' : Graph) :
  Insert randLevel v g = Ret g' -> len (nodes g') = len (nodes g) + 1.
Proof.
  intros H. apply Insert_shape in H as [Hl _]. unfold len. lia.
Qed.

Lemma InsertAll_invariant (P : Graph -> Prop) (vs : list (list Z)) (g g' : Graph) :
  (forall v g0 g1, v ∈ vs -> P g0 -> len (nodes g0) < len (nodes g) + len vs ->
                   Insert randLevel v g0 = Ret g1 -> P g1) ->
  P g -> InsertAll randLevel vs g = Ret g' -> P g'.
Proof.
  unfold InsertAll. revert g. induction vs as [|v vs IH]; intros g Hstep HP H; simpl in H.
  - by injection H as <-.
  - run_inv H as g1 Hg1. pose proof (Insert_length _ _ _ Hg1) as Hlen.
    apply (IH g1); [| |exact H].
    + intros v0 g0 g2 Hv0 HP0 Hlt. apply Hstep; [by apply list_elem_of_further | exact HP0|].
      unfold len in *. simpl. lia.
    + eapply Hstep; [apply list_elem_of_here | exact HP | | exact Hg1].
      unfold len. simpl. lia.
Qed.

Lemma InsertAll_outcome (al : fault -> Prop) (P : Graph -> Prop) (vs : list (list Z))
    (g : Graph) :
  (forall v g0, v ∈ vs -> P g0 -> len (nodes g0) < len (nodes g) + len vs ->
                outcome al (Insert randLevel v g0) P) ->
  P g -> outcome al (InsertAll randLevel vs g) P.
Proof.
  unfold InsertAll. revert g. induction vs as [|v vs IH]; intros g Hstep HP; simpl;
    [exact HP|].
  apply outcome_bind. eapply outcome_weaken.
  - apply Hstep; [apply list_elem_of_here | exact HP | unfold len; simpl; lia].
  - intros g1 Hg1 HP1 _. pose proof (Insert_length _ _ _ Hg1) as Hlen.
    apply IH; [|exact HP1].
    intros v0 g0 Hv0 HP0 Hlt. apply Hstep; [by apply list_elem_of_further | exact HP0|].
    unfold len in *. simpl. lia.
Qed.

Lemma InsertAll_shape (vs : list (list Z)) (g g' : Graph) :
  InsertAll randLevel vs g = Ret g' ->
  length (nodes g') = (length (nodes g) + length vs)%nat
  /\ m g' = m g /\ efConstruction g' = efConstruction g /\ efSearch g' = efSearch g
  /\ rng g' = (rng g + length vs)%nat
  /\ (forall (a : nat) nd, nodes g !! a = Some nd ->
        exists nd', nodes g' !! a = Some nd' /\ vec nd' = vec nd
                    /\ length (neighbors nd') = length (neighbors nd))
  /\ (forall (i : nat) v, vs !! i = Some v ->
        exists nd', nodes g' !! (length (nodes g) + i)%nat = Some nd' /\ vec nd' = v
                    /\ length (neighbors nd') = S (randLevel (m g) (rng g + i))).
Proof.
  unfold InsertAll. revert g. induction vs as [|v vs IH]; intros g H; simpl in H.
  - injection H as <-. simpl. rewrite !Nat.add_0_r. repeat split; [eauto|].
    intros i v Hi. by destruct i.
  - run_inv H as g1 Hg1.
    destruct (Insert_shape _ _ _ _ Hg1) as (Hl1 & Hm1 & Hc1 & Hs1 & Hr1 & Hold1 & Hnew1).
    destruct (IH _ H) as (Hl & Hm & Hc & Hs & Hr & Hold & Hnew).
    split; [simpl; lia|]. split; [congruence|]. split; [congruence|].
    split; [congruence|]. split; [simpl; lia|]. split.
    + intros a nd Hnd. destruct (Hold1 a nd Hnd) as (nd1 & Hnd1 & Hv1 & Hn1).
      destruct (Hold a nd1 Hnd1) as (nd' & Hnd' & Hv & Hn).
      exists nd'. split; [exact Hnd'|]. split; congruence.
    + intros [|i] v0 Hi; simpl in Hi.
      * injection Hi as <-. destruct Hnew1 as (nd1 & Hnd1 & Hv1 & Hn1).
        destruct (Hold _ nd1 Hnd1) as (nd' & Hnd' & Hv & Hn).
        exists nd'. rewrite !Nat.add_0_r. split; [exact Hnd'|]. split; congruence.
      * destruct (Hnew i v0 Hi) as (nd' & Hnd' & Hv & Hn).
        exists nd'. rewrite Hl1 in Hnd'. rewrite Hm1, Hr1 in Hn.
        replace (length (nodes g) + S i)%nat with (S (length (nodes g)) + i)%nat by lia.
        replace (rng g + S i)%nat with (S (rng g) + i)%nat by lia.
        auto.
Qed.

Lemma InsertAll_wf (d : nat) (vs : list (list Z)) (g g' : Graph) :
  InsertAll randLevel vs g = Ret g' ->
  wf d g -> Forall (fun v => length v = d) vs ->
  len (nodes g) + len vs <= 2 ^ 32 -> wf d g'.
Proof.
  intros H Hwf Hvs Hlen. rewrite Forall_forall in Hvs.
  apply (InsertAll_invariant (wf d) vs g g') in H; [exact H | | exact Hwf].
  intros v g0 g1 Hv Hwf0 Hlt Hstep.
  eapply Insert_wf; [exact Hstep | exact Hwf0 | by apply Hvs | lia].
Qed.

End InsertAllFacts.

(** *** Where the greedy descent stops *)

Lemma greedyFold_still (g : Graph) (query : list Z) (nbs : list Z)
    (b0 bs0 : Z) (ch0 : bool) (b bs : Z) :
  foldM (fun '(b, bs, ch) nb =>
           nd' ← index (nodes g) nb;
           s ← sim query (vec nd');
           if f32.gt s bs then Ret (nb, s, true) else Ret (b, bs, ch))
        nbs (b0, bs0, ch0) = Ret (b, bs, false) ->
  ch0 = false /\ b = b0 /\ bs = bs0
  /\ Forall (fun nb => exists nd' s,
                         0 <= nb /\ nodes g !! Z.to_nat nb = Some nd'
                         /\ sim query (vec nd') = Ret s /\ f32.gt s bs0 = false) nbs.
Proof.
  revert b0 bs0 ch0. induction nbs as [|nb nbs IH]; intros b0 bs0 ch0 H; simpl in H.
  - injection H as <- <- <-. repeat split. constructor.
  - run_inv H as st Hst. run_inv Hst as nd' Hnd. run_inv Hst as s Hs.
    apply index_Ret in Hnd as [Hnb Hnd].
    destruct (f32.gt s bs0) eqn:Hgt; injection Hst as <-.
    + apply IH in H as (Hch & _). discriminate.
    + apply IH in H as (Hch & Hb & Hbs & Hall).
      split; [exact Hch|]. split; [exact Hb|]. split; [exact Hbs|].
      constructor; [|exact Hall]. exists nd', s. auto.
Qed.

Lemma greedyPass_still (g : Graph) (query : list Z) (lc best bestSim b bs : Z) :
  0 <= lc ->
  greedyPass g query lc best bestSim = Ret (b, bs, false) ->
  b = best /\ bs = bestSim
  /\ forall nd nbs,
       nodes g !! Z.to_nat best = Some nd -> neighbors nd !! Z.to_nat lc = Some nbs ->
       Forall (fun nb => exists nd' s,
                           0 <= nb /\ nodes g !! Z.to_nat nb = Some nd'
                           /\ sim query (vec nd') = Ret s /\ f32.gt s bestSim = false) nbs.
Proof.
  intros Hlc H. unfold greedyPass in H. run_inv H as nd Hnd.
  apply index_Ret in Hnd as [H0 Hnd].
  destruct (Z.ltb_spec lc (len (neighbors nd))) as [Hl|Hl].
  - run_inv H as nbs Hnbs. apply index_Ret in Hnbs as [_ Hnbs].
    apply greedyFold_still in H as (_ & -> & -> & Hall).
    split; [reflexivity|]. split; [reflexivity|].
    intros nd0 nbs0 Hnd0 Hnbs0. rewrite Hnd in Hnd0. injection Hnd0 as <-.
    rewrite Hnbs in Hnbs0. by injection Hnbs0 as <-.
  - injection H as <- <-. split; [reflexivity|]. split; [reflexivity|].
    intros nd0 nbs0 Hnd0 Hnbs0. rewrite Hnd in Hnd0. injection Hnd0 as <-.
    apply lookup_lt_Some in Hnbs0. unfold len in Hl. lia.
Qed.

Lemma greedyPass_Ret (g : Graph) (query : list Z) (lc best bestSim : Z) (r : Z * Z * bool) :
  0 <= lc -> greedyPass g query lc best bestSim = Ret r ->
  pass_ok g query lc best bestSim r.
Proof.
  intros Hlc H.
  apply (outcome_Ret no_fuel (greedyPass g query lc best bestSim)
           (pass_ok g query lc best bestSim) r); [|exact H].
  apply (greedyPass_spec no_fuel 0); [left; apply lenient_no_fuel | exact Hlc|].
  left. discriminate.
Qed.

Lemma greedyLoop_local_max (g : Graph) (query : list Z) (lc : Z) (fuel : nat)
    (best bestSim b : Z) :
  0 <= lc ->
  (exists nd, 0 <= best /\ nodes g !! Z.to_nat best = Some nd
              /\ sim query (vec nd) = Ret bestSim) ->
  greedyLoop fuel g query lc best bestSim = Ret b ->
  exists bs, local_max g query lc b bs /\ (bs = bestSim \/ f32.gt bs bestSim = true).
Proof.
  intros Hlc. revert best bestSim.
  induction fuel as [|fuel IH]; intros best bestSim Hbest H; [discriminate|].
  cbn [greedyLoop] in H. run_inv H as r Hr. destruct r as [[b1 bs1] ch].
  destruct ch.
  - pose proof (greedyPass_Ret _ _ _ _ _ _ Hlc Hr) as Hok. simpl in Hok.
    destruct Hok as [(Hf & _)|(_ & Hgt & _ & nd1 & Hb1 & Hnd1 & Hsim1)]; [discriminate|].
    destruct (IH b1 bs1) as (bs & Hmax & Hbs); [by exists nd1 | exact H|].
    exists bs. split; [exact Hmax|]. right.
    destruct Hbs as [->|Hbs]; [exact Hgt | by eapply f32_gt_trans].
  - injection H as <-.
    apply (greedyPass_still _ _ _ _ _ _ _ Hlc) in Hr as (-> & -> & Hall).
    destruct Hbest as (nd & H0 & Hnd & Hsim).
    exists bestSim. split; [|by left].
    exists nd. split; [exact H0|]. split; [exact Hnd|]. split; [exact Hsim|].
    intros nbs Hnbs. by apply (Hall nd).
Qed.

(** *** The results *)

Section GraphTheorems.
Variable randLevel : Z -> nat -> nat.

(** X1. A completed sequence of insertions appends one node per vector, in
    order: node [len(nodes) + i] holds the [i]-th vector and occupies the
    layers 0..level of the [i]-th draw of the level generator. The nodes
    already there keep their vectors and layers, and the parameters of the
    graph stay as they were. *)
Theorem InsertAll_stores_vectors (vs : list (list Z)) (g g' : Graph) :
  InsertAll randLevel vs g = Ret g' ->
  length (nodes g') = (length (nodes g) + length vs)%nat
  /\ m g' = m g /\ efConstruction g' = efConstruction g /\ efSearch g' = efSearch g
  /\ rng g' = (rng g + length vs)%nat
  /\ (forall (a : nat) nd, nodes g !! a = Some nd ->
        exists nd', nodes g' !! a = Some nd' /\ vec nd' = vec nd
                    /\ length (neighbors nd') = length (neighbors nd))
  /\ (forall (i : nat) v, vs !! i = Some v ->
        exists nd', nodes g' !! (length (nodes g) + i)%nat = Some nd' /\ vec nd' = v
                    /\ length (neighbors nd') = S (randLevel (m g) (rng g + i))).
Proof. apply InsertAll_shape. Qed.

(** X2. Insertions keep every neighbour list within the capacity of its
    layer, [2 * m] at layer 0 and [m] above: a graph with [m >= 0] whose
    lists are within capacity is so again after any completed sequence of
    insertions. *)
Theorem InsertAll_within_capacity (vs : list (list Z)) (g g' : Graph) :
  0 <= m g -> capacity_bound g ->
  InsertAll randLevel vs g = Ret g' -> capacity_bound g'.
Proof.
  intros Hm Hcap H.
  apply (InsertAll_invariant randLevel (fun g1 => capacity_bound g1 /\ m g1 = m g)
           vs g g') in H; [by destruct H | | by split].
  intros v g0 g1 _ [Hc0 Hm0] _ Hstep. split.
  - eapply Insert_capacity; [exact Hstep | lia | exact Hc0].
  - destruct (Insert_shape _ _ _ _ Hstep) as (_ & -> & _). exact Hm0.
Qed.


(** X4. The entry point is a node of the highest level: if it is one
    before, it is one after any completed sequence of insertions whose ids
    fit in a uint32, and no node has more than [maxLayer + 1] layers. *)
Theorem InsertAll_entry_point_on_top (vs : list (list Z)) (g g' : Graph) :
  top_ok g -> len (nodes g) + len vs <= 2 ^ 32 ->
  InsertAll randLevel vs g = Ret g' -> top_ok g'.
Proof.
  intros Htop Hlen H.
  apply (InsertAll_invariant randLevel top_ok vs g g') in H; [exact H | | exact Htop].
  intros v g0 g1 _ Htop0 Hlt Hstep.
  eapply Insert_top_ok; [exact Hstep | lia | exact Htop0].
Qed.

(** X5. The loops of the graph code come to an end on every graph,
    well formed or not: neither [Insert] nor [Search] runs past the bound
    on the iterations of the greedy descent (one pass per node, plus one)
    and of the beam search (one expansion per node). *)
Theorem graph_loops_terminate (g : Graph) (v query : list Z) (k : Z) :
  Insert randLevel v g <> Fault FuelExhausted
  /\ Search g query k <> Fault FuelExhausted.
Proof.
  split.
  - apply (outcome_no_fuel _ (fun _ => True)).
    apply (Insert_run randLevel no_fuel 0). left. apply lenient_no_fuel.
  - eapply outcome_no_fuel.
    apply (Search_spec no_fuel 0). left. apply lenient_no_fuel.
Qed.


End GraphTheorems.

(** X7. Whatever the graph, each result of a completed [Search] is the id
    of an existing node with the similarity of that node's vector to the
    query as its score; no id is returned twice, and there are at most [k]
    results. *)
Theorem Search_results_sound (g : Graph) (query : list Z) (k : Z) (rs : list Result) :
  Search g query k = Ret rs ->
  Forall (result_ok g query) rs /\ NoDup (map ID rs) /\ len rs <= Z.max k 0.
Proof.
  intros H. apply Search_Ret in H as (H1 & H2 & H3 & _). auto.
Qed.

(** X8. The results of a completed [Search] are in descending order of
    score, and there is at least one when the graph has a node and
    [k >= 1]. *)
Theorem Search_results_ordered (g : Graph) (query : list Z) (k : Z) (rs : list Result) :
  Search g query k = Ret rs ->
  results_descending rs /\ (nodes g <> [] -> 1 <= k -> rs <> []).
Proof.
  intros H. apply Search_Ret in H as (_ & _ & _ & H4 & H5 & _). auto.
Qed.

(** X9. On a well-formed graph [Search] never panics: for a query no
    longer than the vectors of the graph and [k >= 0] it returns. *)
Theorem Search_returns (d : nat) (g : Graph) (query : list Z) (k : Z) :
  wf d g -> (length query <= d)%nat -> 0 <= k ->
  exists rs, Search g query k = Ret rs.
Proof.
  intros Hwf Hq Hk.
  destruct (outcome_strict (Search g query k) _
              (Search_spec strict d g query k (or_intror (conj Hwf (conj Hq Hk)))))
    as (rs & Hrs & _).
  by exists rs.
Qed.

(** X10. What [searchLayer] returns when it completes, on any graph and at
    any layer [lc >= 0]: between 1 and max(ef, 1) candidates, each an existing
    node that is the entry point or is listed at layer [lc], with its
    similarity to the query, no node twice, in descending order. *)
Theorem searchLayer_result (g : Graph) (query : list Z) (ep ef lc : Z)
    (W : list candidate) :
  0 <= lc -> searchLayer g query ep ef lc = Ret W ->
  Forall (cand_ok g query ep lc) W /\ NoDup (map id W)
  /\ 1 <= len W <= Z.max ef 1 /\ descending W.
Proof.
  intros Hlc H. destruct (searchLayer_Ret _ _ _ _ _ _ Hlc H) as [(H1 & H2 & H3 & H4) H5].
  split; [exact H1|]. split; [exact H2|]. split; [|exact H5].
  destruct W; [done | unfold len in *; simpl in *; lia].
Qed.

(** X11. The exchange sort at the end of [searchLayer] and in
    [pruneNeighbours] rearranges its input into descending order of
    similarity. *)
Theorem sortDesc_sorts (W : list candidate) :
  sortDesc W ≡ₚ W /\ descending (sortDesc W).
Proof. split; [apply sortDesc_perm | apply sortDesc_sorted]. Qed.

(** X12. [greedySearchLayer] stops at a local maximum: the node it
    returns has, in its layer-[lc] list, no neighbour strictly more similar
    to the query than itself, and it is not less similar to the query than
    the entry point the descent began at. *)
Theorem greedySearchLayer_local_max (g : Graph) (query : list Z) (ep lc b : Z) :
  0 <= lc -> greedySearchLayer g query ep lc = Ret b ->
  exists bs epSim nd,
    local_max g query lc b bs
    /\ nodes g !! Z.to_nat ep = Some nd /\ sim query (vec nd) = Ret epSim
    /\ f32.gt epSim bs = false.
Proof.
  intros Hlc H. unfold greedySearchLayer in H.
  run_inv H as nd Hnd. run_inv H as epSim Hsim.
  apply index_Ret in Hnd as [H0 Hnd].
  destruct (greedyLoop_local_max _ _ _ _ _ _ _ Hlc
              (ex_intro _ nd (conj H0 (conj Hnd Hsim))) H) as (bs & Hmax & Hbs).
  exists bs, epSim, nd. split; [exact Hmax|]. split; [exact Hnd|]. split; [exact Hsim|].
  destruct Hbs as [->|Hgt]; [apply f32_gt_irrefl | by apply f32_gt_asym].
Qed.

(** *** Witnesses *)

Lemma New_capacity (m0 efc efs : Z) : capacity_bound (New m0 efc efs).
Proof. intros a nd L lst Hnd. by destruct a. Qed.

Lemma New_top_ok (m0 efc efs : Z) : top_ok (New m0 efc efs).
Proof. by left. Qed.

Lemma builtGraph_run :
  InsertAll examples.flat examples.threeVecs examples.smallGraph = Ret examples.builtGraph.
Proof. vm_compute. reflexivity. Qed.

Lemma builtGraph_wf : wf 4 examples.builtGraph.
Proof.
  apply (InsertAll_wf examples.flat 4 examples.threeVecs examples.smallGraph);
    [exact builtGraph_run | apply New_wf | repeat constructor | vm_compute; discriminate].
Qed.

Lemma InsertAll_stores_vectors_witness :
  InsertAll examples.flat examples.threeVecs examples.smallGraph = Ret examples.builtGraph
  /\ length (nodes examples.builtGraph) = 3%nat
  /\ exists nd', nodes examples.builtGraph !! 2%nat = Some nd'
                 /\ vec nd' = examples.halves true true true true.
Proof.
  assert (E : InsertAll examples.flat examples.threeVecs examples.smallGraph
              = Ret examples.builtGraph) by (vm_compute; reflexivity).
  split; [exact E|].
  destruct (InsertAll_stores_vectors examples.flat examples.threeVecs
              examples.smallGraph examples.builtGraph E) as (Hl & _ & _ & _ & _ & _ & Hnew).
  split; [exact Hl|].
  destruct (Hnew 2%nat (examples.halves true true true true) eq_refl) as (nd' & Hnd' & Hv & _).
  exists nd'. split; [exact Hnd' | exact Hv].
Defined.

Lemma InsertAll_within_capacity_witness :
  0 <= m examples.smallGraph
  /\ InsertAll examples.flat examples.threeVecs examples.smallGraph = Ret examples.builtGraph
  /\ capacity_bound examples.builtGraph.
Proof.
  assert (E : InsertAll examples.flat examples.threeVecs examples.smallGraph
              = Ret examples.builtGraph) by (vm_compute; reflexivity).
  split; [vm_compute; discriminate|]. split; [exact E|].
  apply (InsertAll_within_capacity examples.flat examples.threeVecs examples.smallGraph);
    [vm_compute; discriminate | apply New_capacity | exact E].
Defined.


Lemma InsertAll_entry_point_on_top_witness :
  InsertAll examples.flat examples.threeVecs examples.smallGraph = Ret examples.builtGraph
  /\ top_ok examples.builtGraph.
Proof.
  assert (E : InsertAll examples.flat examples.threeVecs examples.smallGraph
              = Ret examples.builtGraph) by (vm_compute; reflexivity).
  split; [exact E|].
  apply (InsertAll_entry_point_on_top examples.flat examples.threeVecs examples.smallGraph);
    [apply New_top_ok | vm_compute; discriminate | exact E].
Defined.

Lemma Search_results_sound_witness :
  exists rs,
    Search examples.builtGraph (examples.axis 0) 2 = Ret rs
    /\ Forall (result_ok examples.builtGraph (examples.axis 0)) rs
    /\ NoDup (map ID rs) /\ len rs <= Z.max 2 0.
Proof.
  eexists. split; [vm_compute; reflexivity|].
  apply (Search_results_sound examples.builtGraph (examples.axis 0) 2).
  vm_compute. reflexivity.
Defined.

Lemma Search_results_ordered_witness :
  exists rs,
    Search examples.builtGraph (examples.axis 0) 2 = Ret rs
    /\ results_descending rs
    /\ (nodes examples.builtGraph <> [] -> 1 <= 2 -> rs <> []).
Proof.
  eexists. split; [vm_compute; reflexivity|].
  apply (Search_results_ordered examples.builtGraph (examples.axis 0) 2).
  vm_compute. reflexivity.
Defined.

Lemma Search_returns_witness :
  (length (examples.axis 0) <= 4)%nat
  /\ exists rs, Search examples.builtGraph (examples.axis 0) 2 = Ret rs.
Proof.
  split; [vm_compute; lia|].
  apply (Search_returns 4 examples.builtGraph (examples.axis 0) 2);
    [exact builtGraph_wf | vm_compute; lia | lia].
Defined.

Lemma searchLayer_result_witness :
  exists W,
    searchLayer examples.builtGraph (examples.axis 0) 0 2 0 = Ret W
    /\ Forall (cand_ok examples.builtGraph (examples.axis 0) 0 0) W
    /\ NoDup (map id W) /\ 1 <= len W <= Z.max 2 1 /\ descending W.
Proof.
  eexists. split; [vm_compute; reflexivity|].
  apply (searchLayer_result examples.builtGraph (examples.axis 0) 0 2 0); [lia|].
  vm_compute. reflexivity.
Defined.


Lemma greedySearchLayer_local_max_witness :
  exists b bs epSim nd,
    greedySearchLayer examples.builtGraph (examples.axis 1) 0 0 = Ret b
    /\ local_max examples.builtGraph (examples.axis 1) 0 b bs
    /\ nodes examples.builtGraph !! Z.to_nat 0 = Some nd
    /\ sim (examples.axis 1) (vec nd) = Ret epSim
    /\ f32.gt epSim bs = false.
Proof.
  exists 1.
  destruct (greedySearchLayer_local_max examples.builtGraph (examples.axis 1) 0 0 1)
    as (bs & epSim & nd & H1 & H2 & H3 & H4); [lia | vm_compute; reflexivity|].
  exists bs, epSim, nd. split; [vm_compute; reflexivity | auto].
Defined.

End HnswFacts.

(** ** Save and Load *)

Module PersistFacts.
Import hnsw props.

Lemma le_bytes_length (n : nat) (z : Z) : length (le_bytes n z) = n.
Proof. revert z. induction n as [|n IH]; intros z; simpl; [reflexivity | by rewrite IH]. Qed.

Lemma le_value_le_bytes (n : nat) (z : Z) : word n z -> le_value (le_bytes n z) = z.
Proof.
  unfold word. revert z. induction n as [|n IH]; intros z Hz.
  - simpl in *. lia.
  - cbn [le_bytes le_value]. rewrite IH.
    + pose proof (Z.div_mod z 256). lia.
    + rewrite Nat2Z.inj_succ, Z.pow_succ_r in Hz by lia.
      split; [apply Z.div_pos; lia | apply Z.div_lt_upper_bound; lia].
Qed.

Lemma reads_readN (n : nat) (bs : list Z) : length bs = n -> reads (readN n) bs bs.
Proof.
  intros Hn rest. unfold readN. simpl.
  destruct (Nat.ltb_spec (length (bs ++ rest)) n) as [Hlt|_].
  { rewrite length_app in Hlt. lia. }
  rewrite <- Hn. by rewrite take_app_length, drop_app_length.
Qed.

Lemma reads_ret {A : Type} (a : A) : reads (retR a) [] a.
Proof. intros rest. reflexivity. Qed.

Lemma reads_bind {A B : Type} (rd : Reader A) (k : A -> Reader B)
    (b1 b2 : list Z) (a : A) (b : B) :
  reads rd b1 a -> reads (k a) b2 b -> reads (bindR rd k) (b1 ++ b2) b.
Proof.
  intros H1 H2 rest. unfold bindR. rewrite <- app_assoc, H1. apply H2.
Qed.

Lemma reads_word (n : nat) (z : Z) :
  word n z -> reads (bs <~ readN n ;; retR (le_value bs)) (le_bytes n z) z.
Proof.
  intros Hz. rewrite <- (app_nil_r (le_bytes n z)).
  eapply reads_bind; [apply reads_readN, le_bytes_length|].
  rewrite le_value_le_bytes by exact Hz. apply reads_ret.
Qed.

Lemma reads_many {A : Type} (rd : Reader A) (wr : A -> list Z) (l : list A) :
  Forall (fun a => reads rd (wr a) a) l ->
  reads (readMany (length l) rd) (flat_map wr l) l.
Proof.
  induction 1 as [|a l Ha Hl IH]; simpl; [apply reads_ret|].
  eapply reads_bind; [exact Ha|].
  rewrite <- (app_nil_r (flat_map wr l)).
  eapply reads_bind; [exact IH | apply reads_ret].
Qed.

Lemma len_to_nat {A : Type} (l : list A) : Z.to_nat (len l) = length l.
Proof. unfold len. lia. Qed.

Lemma uint_small (k z : Z) : 0 <= z < 2 ^ k -> z mod 2 ^ k = z.
Proof. intros H. by apply Z.mod_small. Qed.

Lemma reads_layer (l : list Z) : fits_layer l -> reads readLayer (writeLayer l) l.
Proof.
  intros [Hlen Hall]. unfold readLayer, writeLayer, uint16.
  rewrite uint_small by (unfold len in *; lia).
  eapply reads_bind.
  - apply (reads_word 2). unfold word, len in *. simpl. lia.
  - rewrite len_to_nat. apply reads_many.
    eapply Forall_impl; [exact Hall|]. intros x Hx. by apply (reads_word 4).
Qed.

Lemma reads_node (nd : node) : fits_node nd -> reads readNode (writeNode nd) nd.
Proof.
  intros (Hl & Hv & Hvec & Hnb). unfold readNode, writeNode, uint8, uint16.
  rewrite !uint_small by (unfold len in *; lia).
  eapply reads_bind; [apply (reads_word 1); unfold word, len in *; simpl; lia|].
  eapply reads_bind; [apply (reads_word 2); unfold word, len in *; simpl; lia|].
  eapply reads_bind.
  { rewrite len_to_nat. apply reads_many.
    eapply Forall_impl; [exact Hvec|]. intros x Hx. by apply (reads_word 4). }
  rewrite <- (app_nil_r (flat_map writeLayer (neighbors nd))).
  eapply reads_bind.
  { rewrite len_to_nat. apply reads_many.
    eapply Forall_impl; [exact Hnb|]. intros l Hl'. by apply reads_layer. }
  destruct nd. apply reads_ret.
Qed.

Lemma decode_encode (g : Graph) (rest : list Z) :
  fits g -> decode (encode g ++ rest) = inr (reloaded g).
Proof.
  intros (Hn & Hep & Hml & Hm & Hefc & Hefs & Hnodes).
  unfold decode, encode, uint8, uint16, uint32.
  rewrite !uint_small by (unfold word, len in *; simpl in *; lia).
  rewrite <- !app_assoc.
  rewrite (reads_readN 4 magic eq_refl).
  rewrite bool_decide_eq_true_2 by reflexivity. cbn [negb].
  unfold readU16 at 1. unfold writeU16 at 1.
  rewrite (reads_word 2 formatVersion) by (unfold word, formatVersion; simpl; lia).
  rewrite Z.eqb_refl. cbn [negb].
  unfold readU32 at 1. unfold writeU32 at 1.
  rewrite (reads_word 4 (len (nodes g))) by (unfold word, len in *; simpl; lia).
  unfold readU32 at 1. unfold writeU32 at 1.
  rewrite (reads_word 4 (entryPoint g)) by exact Hep.
  unfold readU8 at 1. unfold writeU8 at 1.
  rewrite (reads_word 1 (maxLayer g)) by exact Hml.
  unfold readU16 at 1. unfold writeU16 at 1.
  rewrite (reads_word 2 (m g)) by exact Hm.
  unfold readU16 at 1. unfold writeU16 at 1.
  rewrite (reads_word 2 (efConstruction g)) by exact Hefc.
  unfold readU16 at 1. unfold writeU16 at 1.
  rewrite (reads_word 2 (efSearch g)) by exact Hefs.
  cbn [failed]. rewrite len_to_nat.
  rewrite (reads_many readNode writeNode (nodes g)).
  - reflexivity.
  - eapply Forall_impl; [exact Hnodes|]. intros nd Hnd. by apply reads_node.
Qed.


(** *** Truncated files *)

Lemma readN_failed (n : nat) (br : binaryReader) :
  failed br = true -> readN n br = (replicate n 0, br).
Proof. intros H. unfold readN. by rewrite H. Qed.

Lemma readN_short (n : nat) (bs : list Z) :
  (length bs < n)%nat -> readN n (mkReader bs false) = (replicate n 0, mkReader [] true).
Proof.
  intros H. unfold readN. simpl. by destruct (Nat.ltb_spec (length bs) n); [|lia].
Qed.

Lemma readN_ok (n : nat) (bs : list Z) :
  (n <= length bs)%nat ->
  readN n (mkReader bs false) = (take n bs, mkReader (drop n bs) false).
Proof.
  intros H. unfold readN. simpl. by destruct (Nat.ltb_spec (length bs) n); [lia|].
Qed.

Lemma sticky_readN (n : nat) : sticky (readN n).
Proof. intros br H. by rewrite readN_failed. Qed.

Lemma sticky_ret {A : Type} (a : A) : sticky (retR a).
Proof. intros br H. exact H. Qed.

Lemma sticky_bind {A B : Type} (rd : Reader A) (k : A -> Reader B) :
  sticky rd -> (forall a, sticky (k a)) -> sticky (bindR rd k).
Proof.
  intros H1 H2 br H. unfold bindR. specialize (H1 br H).
  destruct (rd br) as [a br']. by apply H2.
Qed.

Lemma sticky_word (n : nat) : sticky (bs <~ readN n ;; retR (le_value bs)).
Proof. apply sticky_bind; [apply sticky_readN | intros; apply sticky_ret]. Qed.

Lemma sticky_many {A : Type} (n : nat) (rd : Reader A) : sticky rd -> sticky (readMany n rd).
Proof.
  intros H. induction n as [|n IH]; simpl; [apply sticky_ret|].
  apply sticky_bind; [exact H|]. intros a.
  apply sticky_bind; [exact IH | intros; apply sticky_ret].
Qed.

Lemma sticky_layer : sticky readLayer.
Proof.
  apply sticky_bind; [apply sticky_word|]. intros n. apply sticky_many, sticky_word.
Qed.

Lemma sticky_node : sticky readNode.
Proof.
  apply sticky_bind; [apply sticky_word|]. intros lc.
  apply sticky_bind; [apply sticky_word|]. intros vl.
  apply sticky_bind; [apply sticky_many, sticky_word|]. intros v.
  apply sticky_bind; [apply sticky_many, sticky_layer|]. intros nbs. apply sticky_ret.
Qed.

Lemma cut_ret {A : Type} (a : A) : cut (retR a) [].
Proof. intros p s H Hs. symmetry in H. apply app_eq_nil in H as [_ ->]. done. Qed.

Lemma cut_readN (n : nat) (bs : list Z) : length bs = n -> cut (readN n) bs.
Proof.
  intros Hn p s -> Hs. unfold falls_short. rewrite readN_short; [reflexivity|].
  rewrite length_app in Hn. destruct s; [done | simpl in Hn; lia].
Qed.

Lemma cut_bind {A B : Type} (rd : Reader A) (k : A -> Reader B)
    (b1 b2 : list Z) (a : A) :
  reads rd b1 a -> cut rd b1 -> (forall x, sticky (k x)) -> cut (k a) b2 ->
  cut (bindR rd k) (b1 ++ b2).
Proof.
  intros Hr Hc Hs Hk p s Hps Hne. unfold falls_short, bindR.
  destruct (decide (length p < length b1)%nat) as [Hlt|Hge].
  - assert (Hp : b1 = p ++ take (length b1 - length p) s).
    { apply (f_equal (take (length b1))) in Hps.
      rewrite take_app_length in Hps. etransitivity; [exact Hps|].
      rewrite take_app. rewrite take_ge by lia. reflexivity. }
    assert (Hfs : falls_short rd p).
    { apply (Hc p _ Hp). intros E. apply (f_equal length) in Hp.
      rewrite E, length_app in Hp. simpl in Hp. lia. }
    unfold falls_short in Hfs. destruct (rd (mkReader p false)) as [x br'].
    by apply Hs.
  - assert (Hp : p = b1 ++ drop (length b1) p).
    { apply (f_equal (take (length b1))) in Hps.
      rewrite take_app_length in Hps. rewrite take_app in Hps.
      replace (length b1 - length p)%nat with 0%nat in Hps by lia.
      rewrite take_0, app_nil_r in Hps.
      rewrite <- (take_drop (length b1) p) at 1. by rewrite <- Hps. }
    rewrite Hp, Hr. apply (Hk _ s); [|exact Hne].
    rewrite Hp in Hps. rewrite <- app_assoc in Hps. by apply app_inv_head in Hps.
Qed.

Lemma cut_word (n : nat) (z : Z) :
  cut (bs <~ readN n ;; retR (le_value bs)) (le_bytes n z).
Proof.
  rewrite <- (app_nil_r (le_bytes n z)).
  eapply cut_bind;
    [apply reads_readN, le_bytes_length | apply cut_readN, le_bytes_length
    | intros; apply sticky_ret | apply cut_ret].
Qed.

Lemma cut_many {A : Type} (rd : Reader A) (wr : A -> list Z) (l : list A) :
  sticky rd ->
  Forall (fun a => reads rd (wr a) a /\ cut rd (wr a)) l ->
  cut (readMany (length l) rd) (flat_map wr l).
Proof.
  intros Hs. induction 1 as [|a l [Ha Hc] Hl IH]; simpl; [apply cut_ret|].
  eapply cut_bind; [exact Ha | exact Hc | |].
  - intros x. apply sticky_bind; [by apply sticky_many | intros; apply sticky_ret].
  - rewrite <- (app_nil_r (flat_map wr l)).
    eapply cut_bind; [|exact IH | intros; apply sticky_ret | apply cut_ret].
    apply reads_many. eapply Forall_impl; [exact Hl|]. by intros x [Hx _].
Qed.

Lemma cut_layer (l : list Z) : fits_layer l -> cut readLayer (writeLayer l).
Proof.
  intros [Hlen Hall]. unfold readLayer, writeLayer, uint16.
  rewrite uint_small by (unfold len in *; lia).
  eapply cut_bind.
  - apply (reads_word 2). unfold word, len in *. simpl. lia.
  - apply cut_word.
  - intros x. apply sticky_many, sticky_word.
  - rewrite len_to_nat. apply cut_many; [apply sticky_word|].
    eapply Forall_impl; [exact Hall|]. intros x Hx.
    split; [by apply (reads_word 4) | apply cut_word].
Qed.

Lemma cut_node (nd : node) : fits_node nd -> cut readNode (writeNode nd).
Proof.
  intros (Hl & Hv & Hvec & Hnb). unfold readNode, writeNode, uint8, uint16.
  rewrite !uint_small by (unfold len in *; lia).
  eapply cut_bind; [apply (reads_word 1); unfold word, len in *; simpl; lia
                   | apply cut_word | |].
  { intros x. apply sticky_bind; [apply sticky_word|]. intros vl.
    apply sticky_bind; [apply sticky_many, sticky_word|]. intros v.
    apply sticky_bind; [apply sticky_many, sticky_layer|]. intros nbs. apply sticky_ret. }
  eapply cut_bind; [apply (reads_word 2); unfold word, len in *; simpl; lia
                   | apply cut_word | |].
  { intros vl.
    apply sticky_bind; [apply sticky_many, sticky_word|]. intros v.
    apply sticky_bind; [apply sticky_many, sticky_layer|]. intros nbs. apply sticky_ret. }
  eapply cut_bind.
  { rewrite len_to_nat. apply reads_many.
    eapply Forall_impl; [exact Hvec|]. intros x Hx. by apply (reads_word 4). }
  { rewrite len_to_nat. apply cut_many; [apply sticky_word|].
    eapply Forall_impl; [exact Hvec|]. intros x Hx.
    split; [by apply (reads_word 4) | apply cut_word]. }
  { intros v. apply sticky_bind; [apply sticky_many, sticky_layer|]. intros nbs.
    apply sticky_ret. }
  rewrite <- (app_nil_r (flat_map writeLayer (neighbors nd))).
  eapply cut_bind.
  { rewrite len_to_nat. apply reads_many.
    eapply Forall_impl; [exact Hnb|]. intros l Hl'. by apply reads_layer. }
  { rewrite len_to_nat. apply cut_many; [apply sticky_layer|].
    eapply Forall_impl; [exact Hnb|]. intros l Hl'.
    split; [by apply reads_layer | by apply cut_layer]. }
  { intros nbs. apply sticky_ret. }
  apply cut_ret.
Qed.

Lemma encode_header (g : Graph) : encode g = header g ++ flat_map writeNode (nodes g).
Proof. unfold encode, header. by rewrite <- !app_assoc. Qed.

Lemma header_length (g : Graph) : length (header g) = 21%nat.
Proof.
  unfold header, writeU8, writeU16, writeU32. rewrite !length_app, !le_bytes_length.
  reflexivity.
Qed.

(** After the header of a graph that fits, [decode] is the node loop. *)
Lemma decode_header (g : Graph) (tail : list Z) :
  fits g ->
  decode (header g ++ tail) =
    let '(nodes0, br) := readMany (length (nodes g)) readNode (mkReader tail false) in
    if failed br then inl ErrNodes
    else inr {| nodes := nodes0; entryPoint := entryPoint g; maxLayer := maxLayer g;
                m := m g; efConstruction := efConstruction g; efSearch := efSearch g;
                rng := 0%nat |}.
Proof.
  intros (Hn & Hep & Hml & Hm & Hefc & Hefs & Hnodes).
  unfold decode, header, uint8, uint16, uint32.
  rewrite !uint_small by (unfold word, len in *; simpl in *; lia).
  rewrite <- !app_assoc.
  rewrite (reads_readN 4 magic eq_refl).
  rewrite bool_decide_eq_true_2 by reflexivity. cbn [negb].
  unfold readU16 at 1. unfold writeU16 at 1.
  rewrite (reads_word 2 formatVersion) by (unfold word, formatVersion; simpl; lia).
  rewrite Z.eqb_refl. cbn [negb].
  unfold readU32 at 1. unfold writeU32 at 1.
  rewrite (reads_word 4 (len (nodes g))) by (unfold word, len in *; simpl; lia).
  unfold readU32 at 1. unfold writeU32 at 1.
  rewrite (reads_word 4 (entryPoint g)) by exact Hep.
  unfold readU8 at 1. unfold writeU8 at 1.
  rewrite (reads_word 1 (maxLayer g)) by exact Hml.
  unfold readU16 at 1. unfold writeU16 at 1.
  rewrite (reads_word 2 (m g)) by exact Hm.
  unfold readU16 at 1. unfold writeU16 at 1.
  rewrite (reads_word 2 (efConstruction g)) by exact Hefc.
  unfold readU16 at 1. unfold writeU16 at 1.
  rewrite (reads_word 2 (efSearch g)) by exact Hefs.
  cbn [failed]. rewrite len_to_nat. reflexivity.
Qed.


Ltac read_next :=
  match goal with
  | |- context [readN ?n (mkReader ?bs false)] =>
      let Hs := fresh "Hs" in
      destruct (Nat.ltb_spec (length bs) n) as [Hs|Hs];
      [rewrite (readN_short n bs Hs) | rewrite (readN_ok n bs Hs); cbv beta iota zeta]
  end.

(** A file shorter than the header is rejected. *)
Lemma decode_short (bytes : list Z) :
  (length bytes < 21)%nat -> exists e, decode bytes = inl e.
Proof.
  intros Hlen. unfold decode, readU8, readU16, readU32, bindR, retR.
  read_next.
  { rewrite bool_decide_eq_false_2 by discriminate. simpl. eauto. }
  destruct (negb (bool_decide _)); [eauto|].
  read_next; [simpl; eauto|].
  destruct (negb (_ =? _)); [eauto|].
  read_next; [simpl; eauto|].
  read_next; [simpl; eauto|].
  read_next; [simpl; eauto|].
  read_next; [simpl; eauto|].
  read_next; [simpl; eauto|].
  read_next; [simpl; eauto|].
  rewrite !length_drop in *. lia.
Qed.


(** *** What Load accepts *)

Lemma le_bytes_le_value (bs : list Z) :
  Forall (word 1) bs ->
  le_bytes (length bs) (le_value bs) = bs /\ word (length bs) (le_value bs).
Proof.
  unfold word. induction 1 as [|b bs Hb Hbs [IH1 IH2]]; [simpl; split; [reflexivity | lia]|].
  change (256 ^ Z.of_nat 1) with 256 in Hb.
  cbn [length le_bytes le_value].
  assert (Hmod : (b + 256 * le_value bs) mod 256 = b).
  { symmetry. apply (Z.mod_unique_pos _ 256 (le_value bs) b); lia. }
  assert (Hdiv : (b + 256 * le_value bs) / 256 = le_value bs).
  { symmetry. apply (Z.div_unique_pos _ 256 (le_value bs) b); lia. }
  rewrite Hmod, Hdiv, IH1. split; [reflexivity|].
  rewrite Nat2Z.inj_succ, Z.pow_succ_r by lia. lia.
Qed.

Lemma not_failed_eta (br : binaryReader) :
  failed br = false -> br = mkReader (unread br) false.
Proof. destruct br as [u f]. simpl. by intros ->. Qed.

Lemma parses_word (n : nat) :
  parses (bs <~ readN n ;; retR (le_value bs)) (le_bytes n) (word n).
Proof.
  intros bs a br' Hbs H Hok. unfold bindR, retR in H.
  destruct (Nat.ltb_spec (length bs) n) as [Hs|Hs].
  - rewrite readN_short in H by exact Hs. injection H as <- <-. discriminate.
  - rewrite readN_ok in H by exact Hs. injection H as <- <-. simpl.
    assert (Hl : length (take n bs) = n) by (rewrite length_take; lia).
    destruct (le_bytes_le_value (take n bs)) as [H1 H2].
    { rewrite <- (take_drop n bs) in Hbs. by apply Forall_app in Hbs as [Hbs _]. }
    rewrite Hl in H1, H2. split; [exact H2|]. by rewrite H1, take_drop.
Qed.

(** A successful [bindR] went through a successful first read. *)
Lemma bindR_inv {A B : Type} (rd : Reader A) (k : A -> Reader B) (bs : list Z)
    (b : B) (br' : binaryReader) :
  (forall a, sticky (k a)) ->
  bindR rd k (mkReader bs false) = (b, br') -> failed br' = false ->
  exists a rest, rd (mkReader bs false) = (a, mkReader rest false)
                 /\ k a (mkReader rest false) = (b, br').
Proof.
  intros Hs H Hok. unfold bindR in H.
  destruct (rd (mkReader bs false)) as [a br1] eqn:E.
  destruct (failed br1) eqn:Ef.
  - pose proof (Hs a br1 Ef) as Hf. rewrite H in Hf. simpl in Hf. congruence.
  - exists a, (unread br1). by rewrite <- (not_failed_eta br1 Ef).
Qed.

Lemma parses_many {A : Type} (rd : Reader A) (wr : A -> list Z) (ok : A -> Prop)
    (n : nat) :
  parses rd wr ok -> sticky rd ->
  parses (readMany n rd) (flat_map wr) (fun l => length l = n /\ Forall ok l).
Proof.
  intros Hp Hs. induction n as [|n IH]; intros bs l br' Hbs H Hok; cbn [readMany] in H.
  - injection H as <- <-. simpl. split; [split; [reflexivity | constructor] | reflexivity].
  - apply bindR_inv in H as (a & rest & Ha & H); [|intros x|exact Hok].
    2:{ apply sticky_bind; [by apply sticky_many | intros; apply sticky_ret]. }
    destruct (Hp _ _ _ Hbs Ha eq_refl) as [Hoka Hbs']. cbn [unread] in Hbs'.
    apply bindR_inv in H as (l' & rest' & Hl' & H); [|intros; apply sticky_ret|exact Hok].
    injection H as <- <-.
    assert (Hrest : Forall (word 1) rest).
    { rewrite Hbs' in Hbs. by apply Forall_app in Hbs as [_ Hbs]. }
    destruct (IH _ _ _ Hrest Hl' eq_refl) as [[Hlen Hall] Hbs'']. cbn [unread] in Hbs''.
    simpl. split; [split; [by rewrite Hlen | by constructor]|].
    by rewrite <- app_assoc, <- Hbs'', <- Hbs'.
Qed.

Lemma parses_layer : parses readLayer writeLayer fits_layer.
Proof.
  intros bs l br' Hbs H Hok. unfold readLayer in H.
  apply bindR_inv in H as (n & rest & Hn & H);
    [|intros; apply sticky_many, sticky_word|exact Hok].
  destruct (parses_word 2 _ _ _ Hbs Hn eq_refl) as [Hwn Hbs']. cbn [unread] in Hbs'.
  assert (Hrest : Forall (word 1) rest).
  { rewrite Hbs' in Hbs. by apply Forall_app in Hbs as [_ Hbs]. }
  destruct (parses_many _ _ _ _ (parses_word 4) (sticky_word 4) _ _ _ Hrest H Hok)
    as [[Hlen Hall] Hbs''].
  assert (Hl : len l = n) by (unfold len, word in *; rewrite Hlen; lia).
  unfold fits_layer, writeLayer, uint16. rewrite Hl.
  unfold word in Hwn. change (256 ^ Z.of_nat 2) with (2 ^ 16) in Hwn.
  rewrite uint_small by exact Hwn.
  split; [split; [lia | exact Hall]|].
  rewrite Hbs', Hbs'', <- app_assoc. reflexivity.
Qed.

Lemma parses_node : parses readNode writeNode fits_node.
Proof.
  intros bs nd br' Hbs H Hok. unfold readNode in H.
  assert (Hs3 : forall v, sticky (nbs <~ readMany v readLayer ;; retR (mkNode nbs []))).
  { intros v. apply sticky_bind; [apply sticky_many, sticky_layer | intros; apply sticky_ret]. }
  apply bindR_inv in H as (lc & r1 & Hlc & H); [| |exact Hok].
  2:{ intros x. apply sticky_bind; [apply sticky_word|]. intros vl.
      apply sticky_bind; [apply sticky_many, sticky_word|]. intros v.
      apply sticky_bind; [apply sticky_many, sticky_layer | intros; apply sticky_ret]. }
  apply bindR_inv in H as (vl & r2 & Hvl & H); [| |exact Hok].
  2:{ intros x. apply sticky_bind; [apply sticky_many, sticky_word|]. intros v.
      apply sticky_bind; [apply sticky_many, sticky_layer | intros; apply sticky_ret]. }
  apply bindR_inv in H as (v & r3 & Hv & H); [| |exact Hok].
  2:{ intros x. apply sticky_bind; [apply sticky_many, sticky_layer | intros; apply sticky_ret]. }
  apply bindR_inv in H as (nbs & r4 & Hnbs & H); [|intros; apply sticky_ret|exact Hok].
  injection H as <- <-.
  destruct (parses_word 1 _ _ _ Hbs Hlc eq_refl) as [Hwlc E1]. cbn [unread] in E1.
  assert (Hb1 : Forall (word 1) r1).
  { rewrite E1 in Hbs. by apply Forall_app in Hbs as [_ Hbs]. }
  destruct (parses_word 2 _ _ _ Hb1 Hvl eq_refl) as [Hwvl E2]. cbn [unread] in E2.
  assert (Hb2 : Forall (word 1) r2).
  { rewrite E2 in Hb1. by apply Forall_app in Hb1 as [_ Hb1]. }
  destruct (parses_many _ _ _ _ (parses_word 4) (sticky_word 4) _ _ _ Hb2 Hv eq_refl)
    as [[Hvlen Hvall] E3]. cbn [unread] in E3.
  assert (Hb3 : Forall (word 1) r3).
  { rewrite E3 in Hb2. by apply Forall_app in Hb2 as [_ Hb2]. }
  destruct (parses_many _ _ _ _ parses_layer sticky_layer _ _ _ Hb3 Hnbs eq_refl)
    as [[Hnlen Hnall] E4]. cbn [unread] in E4.
  unfold word in Hwlc, Hwvl.
  change (256 ^ Z.of_nat 1) with (2 ^ 8) in Hwlc.
  change (256 ^ Z.of_nat 2) with (2 ^ 16) in Hwvl.
  assert (Hl1 : len nbs = lc) by (unfold len; rewrite Hnlen; lia).
  assert (Hl2 : len v = vl) by (unfold len; rewrite Hvlen; lia).
  unfold fits_node, writeNode, uint8, uint16. simpl. rewrite Hl1, Hl2.
  rewrite !uint_small by lia.
  split; [split; [lia|]; split; [lia|]; split; [exact Hvall | exact Hnall]|].
  rewrite E1, E2, E3, E4, <- !app_assoc. reflexivity.
Qed.

(** A word read that leaves no error was made without error, on bytes
    that begin with the word. *)
Lemma word_back (n : nat) (br br' : binaryReader) (z : Z) :
  (bs <~ readN n ;; retR (le_value bs)) br = (z, br') -> failed br' = false ->
  failed br = false.
Proof.
  intros H Hok. destruct (failed br) eqn:Ef; [|reflexivity].
  pose proof (sticky_word n br Ef) as Hf. rewrite H in Hf. simpl in Hf. congruence.
Qed.

Lemma word_step (n : nat) (br br' : binaryReader) (z : Z) :
  Forall (word 1) (unread br) ->
  (bs <~ readN n ;; retR (le_value bs)) br = (z, br') -> failed br' = false ->
  word n z /\ unread br = le_bytes n z ++ unread br' /\ Forall (word 1) (unread br').
Proof.
  intros Hbs H Hok. pose proof (word_back _ _ _ _ H Hok) as Ef.
  rewrite (not_failed_eta br Ef) in H.
  destruct (parses_word n _ _ _ Hbs H Hok) as [Hw E].
  split; [exact Hw|]. split; [exact E|].
  rewrite E in Hbs. by apply Forall_app in Hbs as [_ Hbs].
Qed.

(** *** A reloaded graph answers as the saved one *)

Lemma greedyLoop_reloaded (fuel : nat) (g : Graph) (query : list Z) (lc best bestSim : Z) :
  greedyLoop fuel (reloaded g) query lc best bestSim
  = greedyLoop fuel g query lc best bestSim.
Proof.
  revert best bestSim. induction fuel as [|fuel IH]; intros best bestSim; [reflexivity|].
  cbn [greedyLoop]. change (greedyPass (reloaded g)) with (greedyPass g).
  destruct (greedyPass g query lc best bestSim) as [[[b bs] ch]|f]; simpl; [|reflexivity].
  destruct ch; [apply IH | reflexivity].
Qed.

Lemma bind_ext {A B : Type} (e : exec A) (k k' : A -> exec B) :
  (forall a, k a = k' a) -> (e ≫= k) = (e ≫= k').
Proof. intros H. destruct e as [a|f]; simpl; [apply H | reflexivity]. Qed.

Lemma descend_reloaded (k : nat) (g : Graph) (query : list Z) (ep lc : Z) :
  descend k (reloaded g) query ep lc = descend k g query ep lc.
Proof.
  revert ep lc. induction k as [|k IH]; intros ep lc; [reflexivity|].
  cbn [descend]. unfold greedySearchLayer.
  change (nodes (reloaded g)) with (nodes g).
  transitivity (greedySearchLayer g query ep lc ≫= fun ep' => descend k (reloaded g) query ep' (lc - 1)).
  - unfold greedySearchLayer. f_equal.
    apply bind_ext. intros nd. apply bind_ext. intros s. apply greedyLoop_reloaded.
  - apply bind_ext. intros ep'. apply IH.
Qed.

Lemma searchLoop_reloaded (fuel : nat) (g : Graph) (query : list Z) (ef lc : Z) (st : beam) :
  searchLoop fuel (reloaded g) query ef lc st = searchLoop fuel g query ef lc st.
Proof.
  revert st. induction fuel as [|fuel IH]; intros st; [by destruct (heap_Pop (heapC st)) as [[c C']|]|].
  cbn [searchLoop]. destruct (heap_Pop (heapC st)) as [[c C']|]; [|reflexivity].
  destruct (_ && _); [reflexivity|].
  change (nodes (reloaded g)) with (nodes g).
  change (visit (reloaded g)) with (visit g).
  apply bind_ext. intros nd. apply bind_ext. intros st2. apply IH.
Qed.

Lemma Search_reloaded (g : Graph) (query : list Z) (k : Z) :
  Search (reloaded g) query k = Search g query k.
Proof.
  unfold Search. change (nodes (reloaded g)) with (nodes g).
  change (maxLayer (reloaded g)) with (maxLayer g).
  change (entryPoint (reloaded g)) with (entryPoint g).
  change (efSearch (reloaded g)) with (efSearch g).
  destruct (len (nodes g) =? 0); [reflexivity|].
  rewrite descend_reloaded. apply bind_ext. intros ep.
  f_equal. unfold searchLayer. change (nodes (reloaded g)) with (nodes g).
  apply bind_ext. intros nd. apply bind_ext. intros s.
  by rewrite searchLoop_reloaded.
Qed.

(** *** The results *)

(** X13. [Load] gives back the graph that [Save] wrote, with a level
    generator that has made no draw yet, whenever the graph fits the format:
    fewer than 2^32 nodes, [maxLayer] below 256, parameters below 65536, and
    per node fewer than 256 layers, a vector shorter than 65536 and lists
    shorter than 65536. Bytes after the last node are not looked at. *)
Theorem Load_after_Save (g : Graph) (path : list Z) (fs : FS) (rest : list Z) :
  fits g ->
  Load path (Save path g fs) = inr (reloaded g)
  /\ decode (encode g ++ rest) = inr (reloaded g).
Proof.
  intros Hfits.
  assert (Hdec : forall tail, decode (encode g ++ tail) = inr (reloaded g)).
  { intros tail. rewrite encode_header, <- app_assoc, (decode_header g _ Hfits).
    destruct Hfits as (_ & _ & _ & _ & _ & _ & Hnodes).
    rewrite (reads_many readNode writeNode (nodes g)); [reflexivity|].
    eapply Forall_impl; [exact Hnodes|]. intros nd Hnd. by apply reads_node. }
  split; [|apply Hdec].
  unfold Load, Save. rewrite lookup_insert_eq.
  rewrite <- (app_nil_r (encode g)). apply Hdec.
Qed.

(** X14. [Load] accepts no truncated file: every proper prefix of the bytes
    [Save] writes for a graph that fits the format is rejected. *)
Theorem Load_rejects_truncated (g : Graph) (p s : list Z) :
  fits g -> encode g = p ++ s -> s <> [] -> exists e, decode p = inl e.
Proof.
  intros Hfits Hps Hne.
  destruct (decide (length p < 21)%nat) as [Hlt|Hge]; [by apply decode_short|].
  rewrite encode_header in Hps.
  assert (Hp : p = header g ++ drop 21 p).
  { pose proof (header_length g) as Hl.
    apply (f_equal (take 21)) in Hps. rewrite <- Hl in Hps at 1.
    rewrite take_app_length in Hps. rewrite take_app in Hps.
    replace (21 - length p)%nat with 0%nat in Hps by lia.
    rewrite take_0, app_nil_r in Hps.
    rewrite <- (take_drop 21 p) at 1. by rewrite <- Hps. }
  rewrite Hp, (decode_header g _ Hfits).
  assert (Hcut : falls_short (readMany (length (nodes g)) readNode) (drop 21 p)).
  { destruct Hfits as (_ & _ & _ & _ & _ & _ & Hnodes).
    apply (cut_many readNode writeNode (nodes g) sticky_node) with (s := s);
      [|by rewrite Hp, <- app_assoc in Hps; apply app_inv_head in Hps|exact Hne].
    eapply Forall_impl; [exact Hnodes|]. intros nd Hnd.
    split; [by apply reads_node | by apply cut_node]. }
  unfold falls_short in Hcut.
  destruct (readMany _ _ _) as [nodes0 br]. simpl in Hcut. rewrite Hcut. eauto.
Qed.

(** X15. [Load] reports invalid magic bytes exactly when the file does not
    begin with "SHNW", shorter files included; a file that ends less than
    two bytes after the magic is reported as the unsupported version 0. *)
Theorem Load_checks_magic_and_version (bytes : list Z) :
  (decode bytes = inl ErrMagic <-> take 4 bytes <> magic)
  /\ (take 4 bytes = magic -> (length bytes < 6)%nat ->
      decode bytes = inl (ErrVersion 0)).
Proof.
  assert (Hmagic : take 4 bytes <> magic -> decode bytes = inl ErrMagic).
  { intros Hne. unfold decode. read_next.
    - by rewrite bool_decide_eq_false_2 by discriminate.
    - by rewrite bool_decide_eq_false_2 by exact Hne. }
  split; [split; [|exact Hmagic]|].
  - intros Hdec Heq. unfold decode in Hdec.
    assert (Hlen : (4 <= length bytes)%nat).
    { apply (f_equal length) in Heq. rewrite length_take in Heq.
      change (length magic) with 4%nat in Heq. lia. }
    rewrite (readN_ok 4 bytes Hlen) in Hdec. cbv beta iota zeta in Hdec.
    rewrite bool_decide_eq_true_2 in Hdec by exact Heq. cbn [negb] in Hdec.
    repeat match type of Hdec with
           | context [let '(_, _) := ?e in _] => destruct e
           | context [if ?b then _ else _] => destruct b
           end; discriminate.
  - intros Heq Hshort. unfold decode.
    assert (Hlen : (4 <= length bytes)%nat).
    { apply (f_equal length) in Heq. rewrite length_take in Heq.
      change (length magic) with 4%nat in Heq. lia. }
    rewrite (readN_ok 4 bytes Hlen). cbv beta iota zeta.
    rewrite bool_decide_eq_true_2 by exact Heq. cbn [negb].
    unfold readU16, bindR, retR. rewrite readN_short by (rewrite length_drop; lia).
    reflexivity.
Qed.

(** X16. Saving and reloading changes no answer: for a graph that fits
    the format, the graph [Load] returns has as many nodes and gives to every
    query and every [k] the result list of the graph that was saved. *)
Theorem Search_after_reload (g : Graph) (path : list Z) (fs : FS) :
  fits g ->
  exists g', Load path (Save path g fs) = inr g'
             /\ Len g' = Len g
             /\ forall query k, Search g' query k = Search g query k.
Proof.
  intros Hfits. exists (reloaded g). split; [|split; [reflexivity|]].
  - unfold Load, Save. rewrite lookup_insert_eq.
    rewrite encode_header, (decode_header g _ Hfits).
    destruct Hfits as (_ & _ & _ & _ & _ & _ & Hnodes).
    rewrite <- (app_nil_r (flat_map writeNode (nodes g))).
    rewrite (reads_many readNode writeNode (nodes g)); [reflexivity|].
    eapply Forall_impl; [exact Hnodes|]. intros nd Hnd. by apply reads_node.
  - intros query k. apply Search_reloaded.
Qed.

(** X17. [Load] accepts only what [Save] writes: when it returns a graph
    for a file, the graph fits the format (its parameters, counts and ids
    are in the range of their fields), its level generator has made no draw,
    and the file is the bytes [Save] writes for that graph, followed by
    whatever was not read. *)
Theorem Load_accepts_only_saved (bytes : list Z) (g : Graph) :
  Forall (word 1) bytes -> decode bytes = inr g ->
  fits g /\ rng g = 0%nat /\ exists rest, bytes = encode g ++ rest.
Proof.
  intros Hb H. unfold decode in H.
  destruct (Nat.ltb_spec (length bytes) 4) as [Hs|Hs].
  { rewrite readN_short in H by exact Hs.
    rewrite bool_decide_eq_false_2 in H by discriminate. discriminate. }
  rewrite readN_ok in H by exact Hs. cbv beta iota zeta in H.
  destruct (decide (take 4 bytes = magic)) as [Hm|Hm];
    [rewrite bool_decide_eq_true_2 in H by exact Hm
    |rewrite bool_decide_eq_false_2 in H by exact Hm; discriminate].
  cbn [negb] in H.
  destruct (readU16 (mkReader (drop 4 bytes) false)) as [version br1] eqn:E1.
  destruct (Z.eqb_spec version formatVersion) as [Hv|Hv]; [|discriminate].
  cbn [negb] in H.
  destruct (readU32 br1) as [nodeCount br2] eqn:E2.
  destruct (readU32 br2) as [ep br3] eqn:E3.
  destruct (readU8 br3) as [ml br4] eqn:E4.
  destruct (readU16 br4) as [m0 br5] eqn:E5.
  destruct (readU16 br5) as [efc br6] eqn:E6.
  destruct (readU16 br6) as [efs br7] eqn:E7.
  destruct (failed br7) eqn:F7; [discriminate|].
  destruct (readMany (Z.to_nat nodeCount) readNode br7) as [nodes0 br8] eqn:E8.
  destruct (failed br8) eqn:F8; [discriminate|].
  injection H as <-.
  pose proof (word_back _ _ _ _ E7 F7) as F6.
  pose proof (word_back _ _ _ _ E6 F6) as F5.
  pose proof (word_back _ _ _ _ E5 F5) as F4.
  pose proof (word_back _ _ _ _ E4 F4) as F3.
  pose proof (word_back _ _ _ _ E3 F3) as F2.
  pose proof (word_back _ _ _ _ E2 F2) as F1.
  assert (Hb0 : Forall (word 1) (drop 4 bytes)).
  { rewrite <- (take_drop 4 bytes) in Hb. by apply Forall_app in Hb as [_ Hb]. }
  destruct (word_step 2 (mkReader (drop 4 bytes) false) br1 version Hb0 E1 F1)
    as (W1 & U1 & Hb1). cbn [unread] in U1.
  destruct (word_step 4 _ _ _ Hb1 E2 F2) as (W2 & U2 & Hb2).
  destruct (word_step 4 _ _ _ Hb2 E3 F3) as (W3 & U3 & Hb3).
  destruct (word_step 1 _ _ _ Hb3 E4 F4) as (W4 & U4 & Hb4).
  destruct (word_step 2 _ _ _ Hb4 E5 F5) as (W5 & U5 & Hb5).
  destruct (word_step 2 _ _ _ Hb5 E6 F6) as (W6 & U6 & Hb6).
  destruct (word_step 2 _ _ _ Hb6 E7 F7) as (W7 & U7 & Hb7).
  rewrite (not_failed_eta br7 F7) in E8.
  destruct (parses_many _ _ _ _ parses_node sticky_node _ _ _ Hb7 E8 F8)
    as [[Hlen Hall] U8].
  unfold word in W2, W3, W4, W5, W6, W7.
  change (256 ^ Z.of_nat 4) with (2 ^ 32) in W2, W3.
  change (256 ^ Z.of_nat 1) with (2 ^ 8) in W4.
  change (256 ^ Z.of_nat 2) with (2 ^ 16) in W5, W6, W7.
  assert (Hn : len nodes0 = nodeCount) by (unfold len; rewrite Hlen; lia).
  split; [|split; [reflexivity|]].
  - unfold fits, word. simpl. rewrite Hn.
    change (256 ^ Z.of_nat 4) with (2 ^ 32). change (256 ^ Z.of_nat 1) with (2 ^ 8).
    change (256 ^ Z.of_nat 2) with (2 ^ 16). auto 10 with zarith.
  - exists (unread br8). unfold encode, uint8, uint16, uint32.
    cbn [nodes entryPoint maxLayer m efConstruction efSearch]. rewrite Hn.
    rewrite !uint_small by lia.
    rewrite <- (take_drop 4 bytes), Hm, U1, U2, U3, U4, U5, U6, U7, U8, Hv.
    rewrite <- !app_assoc. reflexivity.
Qed.

(** *** Witnesses *)

Lemma builtGraph_fits : fits examples.builtGraph.
Proof.
  assert (E : examples.builtGraph
              = ltac:(let v := eval vm_compute in examples.builtGraph in exact v))
    by (vm_compute; reflexivity).
  rewrite E. unfold fits, fits_node, fits_layer, word, len.
  cbn [nodes entryPoint maxLayer m efConstruction efSearch neighbors vec length].
  repeat first [split | constructor]; simpl; lia.
Qed.

Lemma Load_after_Save_witness :
  Load (str "hnsw.bin") (Save (str "hnsw.bin") examples.builtGraph ∅)
    = inr (reloaded examples.builtGraph)
  /\ decode (encode examples.builtGraph ++ [7; 7]) = inr (reloaded examples.builtGraph).
Proof.
  exact (Load_after_Save examples.builtGraph (str "hnsw.bin") ∅ [7; 7] builtGraph_fits).
Defined.

Lemma Load_rejects_truncated_witness :
  exists e, decode (take 40 (encode examples.builtGraph)) = inl e.
Proof.
  apply (Load_rejects_truncated examples.builtGraph
           (take 40 (encode examples.builtGraph)) (drop 40 (encode examples.builtGraph))).
  - exact builtGraph_fits.
  - symmetry. apply take_drop.
  - vm_compute. discriminate.
Defined.

Lemma Search_after_reload_witness :
  exists g', Load (str "hnsw.bin") (Save (str "hnsw.bin") examples.builtGraph ∅) = inr g'
             /\ Len g' = Len examples.builtGraph
             /\ forall query k, Search g' query k = Search examples.builtGraph query k.
Proof.
  exact (Search_after_reload examples.builtGraph (str "hnsw.bin") ∅ builtGraph_fits).
Defined.

Lemma Load_accepts_only_saved_witness :
  Forall (word 1) (encode examples.builtGraph ++ [7; 7])
  /\ fits (reloaded examples.builtGraph)
  /\ rng (reloaded examples.builtGraph) = 0%nat
  /\ exists rest, encode examples.builtGraph ++ [7; 7]
                  = encode (reloaded examples.builtGraph) ++ rest.
Proof.
  assert (Hb : Forall (word 1) (encode examples.builtGraph ++ [7; 7])).
  { assert (E : encode examples.builtGraph ++ [7; 7]
                = ltac:(let v := eval vm_compute in (encode examples.builtGraph ++ [7; 7])
                        in exact v)) by (vm_compute; reflexivity).
    rewrite E. unfold word. repeat constructor; simpl; lia. }
  split; [exact Hb|].
  apply (Load_accepts_only_saved (encode examples.builtGraph ++ [7; 7])
           (reloaded examples.builtGraph) Hb).
  apply decode_encode, builtGraph_fits.
Defined.

End PersistFacts.

(** ** The chunker *)

Module ChunkerFacts.
Import chunker chunkprops.

(** *** Strings *)

Lemma dropWhile_length (p : Z -> bool) (s : list Z) :
  (length (strings.dropWhile p s) <= length s)%nat.
Proof.
  induction s as [|b s IH]; simpl; [lia|]. destruct (p b); simpl; lia.
Qed.

Lemma dropWhile_nil (p : Z -> bool) (s : list Z) :
  strings.dropWhile p s = [] <-> Forall (fun b => p b = true) s.
Proof.
  induction s as [|b s IH]; simpl; [split; [constructor | done]|].
  destruct (p b) eqn:E.
  - rewrite IH. split; [by constructor | by inversion 1].
  - split; [done|]. inversion 1; congruence.
Qed.

Lemma dropWhile_head (p : Z -> bool) (s : list Z) (b : Z) (r : list Z) :
  strings.dropWhile p s = b :: r -> p b = false.
Proof.
  induction s as [|x s IH]; simpl; [done|].
  destruct (p x) eqn:E; [exact IH | intros [= <- <-]; exact E].
Qed.

Lemma dropWhile_suffix (p : Z -> bool) (s : list Z) :
  exists pre, s = pre ++ strings.dropWhile p s /\ Forall (fun b => p b = true) pre.
Proof.
  induction s as [|x s (pre & IH & Hpre)]; simpl; [by exists []|].
  destruct (p x) eqn:E.
  - exists (x :: pre). split; [simpl; congruence | by constructor].
  - by exists [].
Qed.

(** [TrimSpace] leaves something exactly when a byte is not white space. *)
Lemma TrimSpace_nil (s : list Z) :
  strings.TrimSpace s = [] <-> Forall (fun b => strings.isSpace b = true) s.
Proof.
  unfold strings.TrimSpace. split.
  - intros H. apply (f_equal (@rev Z)) in H. rewrite rev_involutive in H. simpl in H.
    apply dropWhile_nil in H. apply Forall_rev in H. rewrite rev_involutive in H.
    destruct (dropWhile_suffix strings.isSpace s) as (pre & Hs & Hpre).
    rewrite Hs. apply Forall_app. split; [exact Hpre | exact H].
  - intros H. apply dropWhile_nil in H. rewrite H. reflexivity.
Qed.

(** The text [TrimSpace] returns begins and ends with a byte that is not
    white space. *)
Lemma TrimSpace_ends (s : list Z) (b : Z) :
  (head (strings.TrimSpace s) = Some b \/ last (strings.TrimSpace s) = Some b) ->
  strings.isSpace b = false.
Proof.
  unfold strings.TrimSpace.
  set (t := strings.dropWhile strings.isSpace s).
  destruct (strings.dropWhile strings.isSpace (rev t)) as [|x r] eqn:E; [by intros [|]|].
  pose proof (dropWhile_head _ _ _ _ E) as Hx.
  assert (Hne : x :: r <> []) by done.
  intros [H|H].
  - destruct (dropWhile_suffix strings.isSpace (rev t)) as (pre & Hs & Hpre).
    rewrite E in Hs. apply (f_equal (@rev Z)) in Hs. rewrite rev_involutive, rev_app_distr in Hs.
    destruct (rev (x :: r)) as [|y r'] eqn:E'.
    { apply (f_equal (@rev Z)) in E'. rewrite rev_involutive in E'. done. }
    simpl in H. injection H as <-.
    assert (Ht : strings.dropWhile strings.isSpace s = y :: r' ++ rev pre)
      by (fold t; rewrite Hs; reflexivity).
    by apply dropWhile_head in Ht.
  - simpl rev in H. rewrite last_snoc in H. injection H as <-. exact Hx.
Qed.

Lemma HasPrefix_length (s p : list Z) :
  strings.HasPrefix s p = true -> (length p <= length s)%nat.
Proof.
  revert s. induction p as [|a p IH]; intros s H; simpl; [lia|].
  destruct s as [|b s]; simpl in H; [done|].
  apply andb_true_iff in H as [_ H]. apply IH in H. simpl. lia.
Qed.

Lemma LastIndex_from_range (i found : Z) (s sub : list Z) :
  strings.LastIndex_from i found s sub = found
  \/ (i <= strings.LastIndex_from i found s sub
      /\ strings.LastIndex_from i found s sub + len sub <= i + len s).
Proof.
  revert i found. induction s as [|b s IH]; intros i found; cbn [strings.LastIndex_from].
  - destruct (strings.HasPrefix [] sub) eqn:E; [|by left].
    apply HasPrefix_length in E. right. unfold len. simpl in *. lia.
  - destruct (strings.HasPrefix (b :: s) sub) eqn:E.
    + apply HasPrefix_length in E.
      destruct (IH (i + 1) i) as [->|[H1 H2]]; right; unfold len in *; simpl in *; lia.
    + destruct (IH (i + 1) found) as [->|[H1 H2]]; [by left|].
      right. unfold len in *; simpl in *; lia.
Qed.

Lemma LastIndex_range (s sub : list Z) :
  strings.LastIndex s sub = -1
  \/ (0 <= strings.LastIndex s sub /\ strings.LastIndex s sub + len sub <= len s).
Proof. apply (LastIndex_from_range 0 (-1)). Qed.

Lemma Index_from_range (i : Z) (s sub : list Z) :
  strings.Index_from i s sub = -1
  \/ (i <= strings.Index_from i s sub
      /\ strings.Index_from i s sub + len sub <= i + len s).
Proof.
  revert i. induction s as [|b s IH]; intros i; cbn [strings.Index_from].
  - destruct (strings.HasPrefix [] sub) eqn:E; [|by left].
    apply HasPrefix_length in E. right. unfold len. simpl in *. lia.
  - destruct (strings.HasPrefix (b :: s) sub) eqn:E.
    + apply HasPrefix_length in E. right. unfold len in *. simpl in *. lia.
    + destruct (IH (i + 1)) as [->|[H1 H2]]; [by left|].
      right. unfold len in *; simpl in *; lia.
Qed.

Lemma Index_range (s sub : list Z) :
  strings.Index s sub = -1
  \/ (0 <= strings.Index s sub /\ strings.Index s sub + len sub <= len s).
Proof. apply (Index_from_range 0). Qed.

(** *** Slices *)

Lemma slice_Ret {A : Type} (s : list A) (lo hi : Z) :
  0 <= lo <= hi -> hi <= len s ->
  slice s lo hi = Ret (take (Z.to_nat (hi - lo)) (drop (Z.to_nat lo) s)).
Proof.
  intros H1 H2. unfold slice.
  destruct (Z.leb_spec 0 lo); [|lia]. destruct (Z.leb_spec lo hi); [|lia].
  destruct (Z.leb_spec hi (len s)); [reflexivity | lia].
Qed.

Lemma slice_len {A : Type} (s : list A) (lo hi : Z) :
  0 <= lo <= hi -> hi <= len s ->
  len (take (Z.to_nat (hi - lo)) (drop (Z.to_nat lo) s)) = hi - lo.
Proof.
  intros H1 H2. unfold len in *. rewrite length_take, length_drop. lia.
Qed.

(** *** One iteration *)

Lemma makeChunk_Ret (data path : list Z) (start stop idx : Z) :
  0 <= start <= stop -> stop <= len data ->
  exists c, makeChunk data path start stop idx = Ret c
            /\ window data path start stop idx c.
Proof.
  intros H1 H2. unfold makeChunk. rewrite (slice_Ret data start stop H1 H2). simpl.
  set (w := take (Z.to_nat (stop - start)) (drop (Z.to_nat start) data)).
  assert (Hw : len w = stop - start) by (by apply slice_len).
  assert (Hl : 0 <= len w - len (strings.TrimLeft w cutset) <= len w).
  { unfold strings.TrimLeft, len.
    pose proof (dropWhile_length (strings.inCutset cutset) w). lia. }
  rewrite slice_Ret by lia. simpl. eexists. split; [reflexivity|].
  unfold window. simpl. auto.
Qed.

Lemma bestSplit_Ret (text : list Z) (start end_ : Z) :
  0 <= start < end_ -> end_ <= len text ->
  exists sp, bestSplit text start end_ = Ret sp /\ start < sp <= end_.
Proof.
  intros H1 H2. unfold bestSplit. rewrite slice_Ret by lia. simpl.
  set (w := take (Z.to_nat (end_ - start)) (drop (Z.to_nat start) text)).
  assert (Hw : len w = end_ - start) by (apply slice_len; lia).
  destruct (LastIndex_range w [10; 10]) as [->|[Ha Hb]].
  - simpl. destruct (LastIndex_range w [10]) as [->|[Hc Hd]].
    + simpl. unfold strings.LastIndexByte.
      destruct (LastIndex_range w [32]) as [->|[He Hf]].
      * simpl. eexists. split; [reflexivity | lia].
      * destruct (Z.eqb_spec (strings.LastIndex w [32]) (-1)); [lia|]. simpl.
        eexists. split; [reflexivity|]. unfold len in *. simpl in *. lia.
    + destruct (Z.eqb_spec (strings.LastIndex w [10]) (-1)); [lia|]. simpl.
      eexists. split; [reflexivity|]. unfold len in *. simpl in *. lia.
  - destruct (Z.eqb_spec (strings.LastIndex w [10; 10]) (-1)); [lia|]. simpl.
    eexists. split; [reflexivity|]. unfold len in *. simpl in *. lia.
Qed.

Lemma nextStart_Ret (text : list Z) (start split overlapBytes : Z) :
  0 <= start < split -> split <= len text -> 0 <= overlapBytes ->
  exists s', nextStart text start split overlapBytes = Ret s' /\ start < s' <= split.
Proof.
  intros H1 H2 H3. unfold nextStart.
  destruct (Z.leb_spec (split - overlapBytes) start) as [Hle|Hgt].
  { eexists. split; [reflexivity | lia]. }
  rewrite slice_Ret by lia. simpl.
  set (w := take (Z.to_nat (split - (split - overlapBytes)))
                 (drop (Z.to_nat (split - overlapBytes)) text)).
  assert (Hw : len w = split - (split - overlapBytes)) by (apply slice_len; lia).
  unfold strings.IndexByte.
  destruct (Index_range w [10]) as [->|[Ha Hb]].
  - simpl. destruct (Index_range w [32]) as [->|[Hc Hd]].
    + simpl. eexists. split; [reflexivity | lia].
    + destruct (Z.eqb_spec (strings.Index w [32]) (-1)); [lia|]. simpl.
      eexists. split; [reflexivity|]. unfold len in *. simpl in *. lia.
  - destruct (Z.eqb_spec (strings.Index w [10]) (-1)); [lia|]. simpl.
    eexists. split; [reflexivity|]. unfold len in *. simpl in *. lia.
Qed.

(** *** The loop *)

Lemma chunkLoop_chain (fuel : nat) (text path : list Z) (opts : Options) (start idx : Z) :
  1 <= MaxBytes opts -> 0 <= OverlapBytes opts ->
  0 <= start -> len text - start <= Z.of_nat fuel ->
  exists cs, chunkLoop fuel text path opts start idx = Ret cs
             /\ chain text path (MaxBytes opts) start idx cs.
Proof.
  intros HM HO. revert start idx.
  induction fuel as [|fuel IH]; intros start idx Hs Hf.
  - simpl. destruct (Z.ltb_spec start (len text)); [lia|].
    exists []. split; [reflexivity | by constructor].
  - cbn [chunkLoop]. destruct (Z.ltb_spec start (len text)) as [Hlt|Hge];
      [|exists []; split; [reflexivity | by constructor]].
    destruct (Z.leb_spec (len text) (start + MaxBytes opts)) as [Hend|Hmid].
    + destruct (makeChunk_Ret text path start (len text) idx) as (c & Hc & Hw); [lia..|].
      rewrite Hc. simpl. exists [c]. split; [reflexivity|].
      apply chain_last; [lia | lia | exact Hw].
    + destruct (bestSplit_Ret text start (start + MaxBytes opts)) as (sp & Hsp & Hr);
        [lia..|].
      rewrite Hsp. simpl.
      destruct (makeChunk_Ret text path start sp idx) as (c & Hc & Hw); [lia..|].
      rewrite Hc. simpl.
      destruct (nextStart_Ret text start sp (OverlapBytes opts)) as (s' & Hs' & Hr');
        [lia..|].
      rewrite Hs'. simpl.
      destruct (IH s' (idx + 1)) as (rest & Hrest & Hchain); [lia..|].
      rewrite Hrest. simpl. exists (c :: rest). split; [reflexivity|].
      eapply chain_step; [| | |exact Hw| |exact Hchain]; lia.
Qed.

Lemma chain_bounds (text path : list Z) (maxBytes start idx : Z) (cs : list Chunk) :
  chain text path maxBytes start idx cs ->
  Forall (fun c => in_bounds (len text) maxBytes c
                   /\ start <= StartByte c /\ idx <= Index c
                   /\ window text path (StartByte c) (EndByte c) (Index c) c) cs.
Proof.
  induction 1 as [start idx Hn|start idx c Hs Hm Hw
                  |start idx split start' c rest Hs Hsp Hm Hw Hs' Hrest IH].
  - constructor.
  - constructor; [|constructor]. pose proof Hw as (E1 & E2 & E3 & _).
    unfold in_bounds. rewrite E1, E2, E3. split; [lia|]. split; [lia|]. split; [lia | exact Hw].
  - constructor.
    + pose proof Hw as (E1 & E2 & E3 & _).
      unfold in_bounds. rewrite E1, E2, E3. split; [lia|]. split; [lia|]. split; [lia | exact Hw].
    + eapply Forall_impl; [exact IH|]. intros c' (Hb & H1 & H2 & H3).
      split; [exact Hb|]. split; [lia|]. split; [lia | exact H3].
Qed.

Lemma chain_ascending (text path : list Z) (maxBytes start idx : Z) (cs : list Chunk) :
  chain text path maxBytes start idx cs -> ascending cs.
Proof.
  induction 1 as [start idx Hn|start idx c Hs Hm Hw
                  |start idx split start' c rest Hs Hsp Hm Hw Hs' Hrest IH].
  - constructor.
  - constructor; constructor.
  - constructor; [exact IH|].
    destruct Hw as (-> & _ & -> & _).
    eapply Forall_impl; [apply (chain_bounds _ _ _ _ _ _ Hrest)|].
    intros c' (_ & H1 & H2 & _). simpl in *. lia.
Qed.

Lemma chain_covers (text path : list Z) (maxBytes start idx : Z) (cs : list Chunk) (j : Z) :
  chain text path maxBytes start idx cs ->
  start <= j < len text -> covered cs j.
Proof.
  induction 1 as [start idx Hn|start idx c Hs Hm Hw
                  |start idx split start' c rest Hs Hsp Hm Hw Hs' Hrest IH]; intros Hj.
  - lia.
  - exists c. split; [apply list_elem_of_here|]. destruct Hw as (-> & -> & _). lia.
  - destruct (Z.lt_ge_cases j split) as [Hlt|Hge].
    + exists c. split; [apply list_elem_of_here|]. destruct Hw as (-> & -> & _). lia.
    + destruct IH as (c' & Hin & Hc'); [lia|].
      exists c'. split; [by apply list_elem_of_further | exact Hc'].
Qed.

Lemma chain_last_end (text path : list Z) (maxBytes start idx : Z) (cs : list Chunk) :
  chain text path maxBytes start idx cs -> start < len text ->
  exists c, last cs = Some c /\ EndByte c = len text.
Proof.
  induction 1 as [start idx Hn|start idx c Hs Hm Hw
                  |start idx split start' c rest Hs Hsp Hm Hw Hs' Hrest IH]; intros Hlt.
  - lia.
  - exists c. split; [reflexivity|]. by destruct Hw as (_ & -> & _).
  - destruct IH as (c' & Hl & He); [lia|]. exists c'. split; [|exact He].
    destruct rest; [done | exact Hl].
Qed.


(** *** chunkBytes *)

Lemma chunkBytes_inv (data path : list Z) (opts : Options) (cs : list Chunk) :
  1 <= MaxBytes opts -> 0 <= OverlapBytes opts ->
  chunkBytes data path opts = Ret cs ->
  (strings.TrimSpace data = [] /\ cs = [])
  \/ exists raw, chain data path (MaxBytes opts) 0 0 raw
                 /\ cs = filter (fun c => nonEmptyText c = true) raw.
Proof.
  intros HM HO H. unfold chunkBytes in H.
  destruct (strings.TrimSpace data) as [|b t] eqn:E.
  - injection H as <-. by left.
  - right. unfold rawChunks in H.
    destruct (chunkLoop_chain (length data) data path opts 0 0 HM HO) as (raw & Hraw & Hch);
      [lia | unfold len; lia|].
    rewrite Hraw in H. simpl in H. injection H as <-. by exists raw.
Qed.

Lemma window_text_nonempty (text path : list Z) (c : Chunk) (j b : Z) :
  window text path (StartByte c) (EndByte c) (Index c) c ->
  0 <= StartByte c <= j -> j < EndByte c ->
  text !! Z.to_nat j = Some b -> strings.isSpace b = false ->
  nonEmptyText c = true.
Proof.
  intros (_ & _ & _ & _ & Ht) Hs He Hb Hsp. unfold nonEmptyText.
  rewrite Ht. destruct (strings.TrimSpace _) as [|x r] eqn:E; [|reflexivity].
  apply TrimSpace_nil in E. rewrite Forall_forall in E.
  rewrite E in Hsp; [done|].
  apply (list_elem_of_lookup_2 _ (Z.to_nat (j - StartByte c))).
  rewrite lookup_take_lt by lia. rewrite lookup_drop.
  replace (Z.to_nat (StartByte c) + Z.to_nat (j - StartByte c))%nat with (Z.to_nat j) by lia.
  exact Hb.
Qed.

(** *** The results *)

(** X18. [ChunkFile] never panics and its loop comes to an end: whatever
    the file holds, it returns, provided [OverlapBytes] is not negative when
    [MaxBytes] is positive (a [MaxBytes] that is not positive is replaced,
    together with the overlap, by the defaults). *)
Theorem ChunkFile_returns (w : World) (path : list Z) (opts : Options) :
  (0 < MaxBytes opts -> 0 <= OverlapBytes opts) ->
  exists r, ChunkFile w path opts = Ret r.
Proof.
  intros HO. unfold ChunkFile.
  set (opts' := if MaxBytes opts <=? 0 then DefaultOptions else opts).
  assert (H' : 1 <= MaxBytes opts' /\ 0 <= OverlapBytes opts').
  { unfold opts'. destruct (Z.leb_spec (MaxBytes opts) 0); [simpl; lia | lia]. }
  destruct H' as [HM HO'].
  destruct (os_Stat w path) as [info|]; [|eauto].
  destruct (IsDir info); [eauto|].
  destruct (os_ReadFile w path) as [data|]; [|eauto].
  unfold chunkBytes. destruct (strings.TrimSpace data); [simpl; eauto|].
  unfold rawChunks.
  destruct (chunkLoop_chain (length data) data path opts' 0 0 HM HO') as (raw & Hraw & _);
    [lia | unfold len; lia|].
  rewrite Hraw. simpl. eauto.
Qed.

(** X19. Every chunk [chunkBytes] returns for an ASCII file is a window of
    the file: its offsets satisfy 0 <= StartByte < EndByte <= len(data) with
    at most [MaxBytes] bytes between them, its text is the window with the
    white space at both ends removed, and that text is not empty and begins
    and ends with a byte that is not white space. *)
Theorem chunkBytes_windows (data path : list Z) (opts : Options) (cs : list Chunk) :
  ascii data -> 1 <= MaxBytes opts -> 0 <= OverlapBytes opts ->
  chunkBytes data path opts = Ret cs ->
  Forall (fun c =>
            in_bounds (len data) (MaxBytes opts) c
            /\ Path c = path
            /\ Text c = strings.TrimSpace
                          (take (Z.to_nat (EndByte c - StartByte c))
                                (drop (Z.to_nat (StartByte c)) data))
            /\ Text c <> []
            /\ forall b, head (Text c) = Some b \/ last (Text c) = Some b ->
                         strings.isSpace b = false) cs.
Proof.
  intros _ HM HO H.
  destruct (chunkBytes_inv _ _ _ _ HM HO H) as [[_ ->]|(raw & Hch & ->)]; [constructor|].
  apply Forall_forall. intros c Hc. apply list_elem_of_filter in Hc as [Hne Hin].
  pose proof (chain_bounds _ _ _ _ _ _ Hch) as Hb. rewrite Forall_forall in Hb.
  destruct (Hb c Hin) as (Hbd & _ & _ & Hw).
  pose proof Hw as (_ & _ & _ & Hp & Ht).
  split; [exact Hbd|]. split; [exact Hp|]. split; [exact Ht|]. split.
  - unfold nonEmptyText in Hne. by destruct (Text c).
  - intros b Hb'. rewrite Ht in Hb'. by eapply TrimSpace_ends.
Qed.

(** X20. The chunks [chunkBytes] returns for an ASCII file are in the
    order of the file: along the list the start offsets strictly increase,
    and so do the chunk indexes. *)
Theorem chunkBytes_ascending (data path : list Z) (opts : Options) (cs : list Chunk) :
  ascii data -> 1 <= MaxBytes opts -> 0 <= OverlapBytes opts ->
  chunkBytes data path opts = Ret cs -> ascending cs.
Proof.
  intros _ HM HO H.
  destruct (chunkBytes_inv _ _ _ _ HM HO H) as [[_ ->]|(raw & Hch & ->)]; [constructor|].
  eapply sorted_sublist; [apply sublist_filter | by eapply chain_ascending].
Qed.

(** X21. [chunkBytes] loses no text of an ASCII file: every byte of the
    file that is not white space lies in the window of a chunk it returns. *)
Theorem chunkBytes_covers (data path : list Z) (opts : Options) (cs : list Chunk)
    (j : nat) (b : Z) :
  ascii data -> 1 <= MaxBytes opts -> 0 <= OverlapBytes opts ->
  chunkBytes data path opts = Ret cs ->
  data !! j = Some b -> strings.isSpace b = false ->
  covered cs (Z.of_nat j).
Proof.
  intros _ HM HO H Hb Hsp.
  destruct (chunkBytes_inv _ _ _ _ HM HO H) as [[E _]|(raw & Hch & ->)].
  - apply TrimSpace_nil in E. rewrite Forall_forall in E.
    rewrite E in Hsp; [done | by eapply list_elem_of_lookup_2].
  - destruct (chain_covers _ _ _ _ _ _ (Z.of_nat j) Hch) as (c & Hin & Hc).
    { apply lookup_lt_Some in Hb. unfold len. lia. }
    exists c. split; [|exact Hc]. apply list_elem_of_filter. split; [|exact Hin].
    pose proof (chain_bounds _ _ _ _ _ _ Hch) as Hbd. rewrite Forall_forall in Hbd.
    destruct (Hbd c Hin) as ((H0 & _) & _ & _ & Hw).
    eapply (window_text_nonempty data path c (Z.of_nat j) b); [exact Hw | lia | lia | | exact Hsp].
    by rewrite Nat2Z.id.
Qed.

(** *** Witnesses *)

Lemma hello_ascii : ascii (str "hello world").
Proof. unfold ascii, str. simpl. repeat constructor; lia. Qed.

Lemma ChunkFile_returns_witness :
  exists r, ChunkFile (examples.notesWorld 5) (str "notes.md") (mkOptions 6 2) = Ret r.
Proof.
  apply (ChunkFile_returns (examples.notesWorld 5) (str "notes.md") (mkOptions 6 2)).
  simpl. lia.
Defined.

Lemma chunkBytes_windows_witness :
  exists cs,
    chunkBytes (str "hello world") (str "notes.md") (mkOptions 6 2) = Ret cs
    /\ cs <> []
    /\ Forall (fun c =>
                 in_bounds 11 6 c
                 /\ Path c = str "notes.md"
                 /\ Text c = strings.TrimSpace
                               (take (Z.to_nat (EndByte c - StartByte c))
                                     (drop (Z.to_nat (StartByte c)) (str "hello world")))
                 /\ Text c <> []
                 /\ forall b, head (Text c) = Some b \/ last (Text c) = Some b ->
                              strings.isSpace b = false) cs.
Proof.
  eexists. split; [vm_compute; reflexivity|]. split; [discriminate|].
  apply (chunkBytes_windows (str "hello world") (str "notes.md") (mkOptions 6 2));
    [exact hello_ascii | simpl; lia | simpl; lia | vm_compute; reflexivity].
Defined.

Lemma chunkBytes_ascending_witness :
  exists cs,
    chunkBytes (str "hello world") (str "notes.md") (mkOptions 6 2) = Ret cs
    /\ (1 < length cs)%nat /\ ascending cs.
Proof.
  eexists. split; [vm_compute; reflexivity|]. split; [simpl; lia|].
  apply (chunkBytes_ascending (str "hello world") (str "notes.md") (mkOptions 6 2));
    [exact hello_ascii | simpl; lia | simpl; lia | vm_compute; reflexivity].
Defined.

Lemma chunkBytes_covers_witness :
  exists cs,
    chunkBytes (str "hello world") (str "notes.md") (mkOptions 6 2) = Ret cs
    /\ covered cs 7.
Proof.
  eexists. split; [vm_compute; reflexivity|].
  apply (chunkBytes_covers (str "hello world") (str "notes.md") (mkOptions 6 2)
           _ 7%nat 111);
    [exact hello_ascii | simpl; lia | simpl; lia | vm_compute; reflexivity
    | reflexivity | reflexivity].
Defined.

End ChunkerFacts.

(** ** The index *)

Module AddFacts.
Import index indexprops.

Lemma preview_length (text : list Z) : len (preview text) <= 200.
Proof.
  unfold preview. destruct (Z.ltb_spec 200 (len text)) as [H|H]; [|exact H].
  unfold len in *. rewrite length_app, length_take.
  change (length (str "...")) with 3%nat. lia.
Qed.

Section WithRng.
Variable randLevel : Z -> nat -> nat.

(** The loop under the write lock: one record and one node per vector, the
    other fields untouched. *)
Lemma appendChunk_fold (path : list Z) (mtime : Z) (cs : list chunker.Chunk)
    (vecs : list (list Z)) (idx idx1 : Index) (i i1 : Z) :
  foldM (appendChunk randLevel path mtime cs) vecs (idx, i) = Ret (idx1, i1) ->
  dir idx1 = dir idx /\ fileCache idx1 = fileCache idx
  /\ maxFileSizeBytes idx1 = maxFileSizeBytes idx
  /\ dirty idx1 = dirty idx /\ lastUpdated idx1 = lastUpdated idx
  /\ hnsw.InsertAll randLevel vecs (graph idx) = Ret (graph idx1)
  /\ exists metas,
       chunks idx1 = chunks idx ++ metas /\ length metas = length vecs
       /\ Forall (fun mt => Path mt = path /\ Mtime mt = mtime /\ len (Text mt) <= 200
                            /\ exists c, c ∈ cs /\ Text mt = preview (chunker.Text c)
                                         /\ StartByte mt = chunker.StartByte c
                                         /\ EndByte mt = chunker.EndByte c) metas.
Proof.
  revert idx i. induction vecs as [|v vecs IH]; intros idx i H; simpl in H.
  - injection H as <- <-. repeat split. exists []. rewrite app_nil_r. repeat split.
    constructor.
  - run_inv H as st Hst. destruct st as [idx0 i0].
    unfold appendChunk in Hst. run_inv Hst as c Hc. run_inv Hst as g Hg.
    injection Hst as <- <-.
    destruct (IH _ _ H) as (H1 & H2 & H3 & H4 & H5 & H6 & metas & H7 & H8 & H9).
    simpl in *. split; [exact H1|]. split; [exact H2|]. split; [exact H3|].
    split; [exact H4|]. split; [exact H5|]. split.
    { unfold hnsw.InsertAll in *. simpl. rewrite Hg. simpl. exact H6. }
    eexists (_ :: metas). split; [rewrite H7, <- app_assoc; reflexivity|].
    split; [simpl; by rewrite H8|]. constructor; [|exact H9]. simpl.
    split; [reflexivity|]. split; [reflexivity|]. split; [apply preview_length|].
    exists c. apply index_Ret in Hc as [_ Hc].
    split; [by eapply list_elem_of_lookup_2 | auto].
Qed.

(** The two ways [AddFileCtx] ends: it leaves the index as it found it, or
    it went through the whole file. *)
Lemma AddFileCtx_inv (w : World) (idx : Index) (path : list Z) (r : Added) :
  AddFileCtx randLevel w idx path = Ret r ->
  (after r = idx /\ (skipped r = true -> err r = None /\ stderr r = []))
  \/ (skipped r = false /\ err r = None
      /\ chunker.IsSupportedFile w path = true
      /\ exists info cs vecs log idx1 i1,
           os_Stat w path = Some info
           /\ Size info <= maxFileSizeBytes idx
           /\ chunker.ChunkFile w path chunker.DefaultOptions = Ret (inr cs)
           /\ embedBatches (Z.to_nat ((len cs + batchSize - 1) / batchSize)) w path cs
                           (4 <? len cs) 0 0 [] [] = EmbDone vecs log
           /\ foldM (appendChunk randLevel path (ModTime info) cs) vecs (idx, 0)
              = Ret (idx1, i1)
           /\ after r = {| dir := dir idx1; graph := graph idx1; chunks := chunks idx1;
                           fileCache := <[path := ModTime info]> (fileCache idx1);
                           maxFileSizeBytes := maxFileSizeBytes idx1;
                           dirty := true; lastUpdated := time_Now w |}).
Proof.
  unfold AddFileCtx. intros H.
  destruct (chunker.IsSupportedFile w path) eqn:Hsup; simpl in H;
    [|injection H as <-; left; simpl; split; [reflexivity | discriminate]].
  destruct (os_Stat w path) as [info|] eqn:Hstat;
    [|injection H as <-; left; simpl; split; [reflexivity | discriminate]].
  destruct (Z.ltb_spec (maxFileSizeBytes idx) (Size info)) as [Hbig|Hfit];
    [injection H as <-; left; simpl; split; [reflexivity | discriminate]|].
  destruct (bool_decide _) eqn:Hcache;
    [injection H as <-; left; simpl; split; [reflexivity | auto]|].
  run_inv H as cr Hcr.
  destruct cr as [e|cs];
    [injection H as <-; left; simpl; split; [reflexivity | discriminate]|].
  destruct cs as [|c0 cs0];
    [injection H as <-; left; simpl; split; [reflexivity | discriminate]|].
  set (cs := c0 :: cs0) in *.
  destruct (embedBatches _ w path cs _ 0 0 [] []) as [log|log|vecs log] eqn:Hemb;
    [injection H as <-; left; simpl; split; [reflexivity | discriminate]
    |injection H as <-; left; simpl; split; [reflexivity | discriminate]|].
  run_inv H as st Hst. destruct st as [idx1 i1]. injection H as <-.
  right. simpl. split; [reflexivity|]. split; [reflexivity|]. split; [reflexivity|].
  exists info, cs, vecs, log, idx1, i1. auto 10.
Qed.


(** The records appended are those of the chunks at the positions of the
    vectors. *)
Lemma appendChunk_records (path : list Z) (mtime : Z) (cs : list chunker.Chunk)
    (vecs : list (list Z)) (idx idx1 : Index) (i i1 : Z) :
  0 <= i ->
  foldM (appendChunk randLevel path mtime cs) vecs (idx, i) = Ret (idx1, i1) ->
  chunks idx1
  = chunks idx ++ map (recordOf path mtime) (take (length vecs) (drop (Z.to_nat i) cs)).
Proof.
  revert idx i. induction vecs as [|v vecs IH]; intros idx i Hi H; simpl in H.
  - injection H as <- <-. simpl. by rewrite app_nil_r.
  - run_inv H as st Hst. destruct st as [idx0 i0].
    unfold appendChunk in Hst. run_inv Hst as c Hc. run_inv Hst as g Hg.
    injection Hst as <- <-. apply index_Ret in Hc as [_ Hc].
    rewrite (IH _ (i + 1)) by (lia || exact H). simpl.
    rewrite <- app_assoc. f_equal.
    rewrite (drop_S _ _ _ Hc). simpl.
    replace (Z.to_nat (i + 1)) with (S (Z.to_nat i)) by lia. reflexivity.
Qed.

(** With one vector per text, the batches give one vector per chunk. *)
Lemma embedBatches_length (w : World) (path : list Z) (cs : list chunker.Chunk)
    (verbose : bool) (k check : nat) (start : Z) (vecs : list (list Z)) (log : list Diag)
    (vecs' : list (list Z)) (log' : list Diag) :
  one_per_text w -> 0 <= start ->
  embedBatches k w path cs verbose check start vecs log = EmbDone vecs' log' ->
  len vecs' = len vecs + (Z.min (len cs) (start + batchSize * Z.of_nat k)
                          - Z.min (len cs) start).
Proof.
  intros Hone. revert check start vecs log.
  induction k as [|k IH]; intros check start vecs log Hs H; cbn [embedBatches] in H.
  - injection H as <- <-. lia.
  - destruct (ctx_Err w check); [discriminate|].
    destruct (embed_Embed w _) as [batchVecs|] eqn:E; [|discriminate].
    apply Hone in E. rewrite length_map, length_take, length_drop in E.
    apply IH in H; [|unfold batchSize; lia].
    unfold len in *. rewrite length_app in H. unfold batchSize in *.
    destruct (Z.ltb_spec (Z.of_nat (length cs)) (start + 4)); lia.
Qed.

(** [AddFileCtx] only appends records, all of the path it was given, and
    keeps records and nodes in step. *)
Lemma AddFileCtx_grows (w : World) (idx : Index) (path : list Z) (r : Added) :
  AddFileCtx randLevel w idx path = Ret r ->
  (exists metas, chunks (after r) = chunks idx ++ metas
                 /\ Forall (fun mt => Path mt = path) metas)
  /\ (len (chunks idx) = hnsw.Len (graph idx) ->
      len (chunks (after r)) = hnsw.Len (graph (after r))).
Proof.
  intros H. apply AddFileCtx_inv in H as [[-> _]|H].
  { split; [exists []; by rewrite app_nil_r | auto]. }
  destruct H as (_ & _ & _ & info & cs & vecs & log & idx1 & i1
                 & _ & _ & _ & _ & Hfold & ->).
  apply appendChunk_fold in Hfold as (_ & _ & _ & _ & _ & H6 & metas & H7 & H8 & H9).
  apply HnswFacts.InsertAll_shape in H6 as (Hl & _). simpl. split.
  - exists metas. split; [exact H7|].
    eapply Forall_impl; [exact H9|]. by intros mt (Ha & _).
  - intros Heq. unfold hnsw.Len, len in *. rewrite H7, length_app, Hl. lia.
Qed.


(** X23. Records and nodes stay in step: if the index has as many
    records as its graph has nodes, it has so again after [AddFileCtx]. *)
Theorem AddFileCtx_keeps_step (w : World) (idx : Index) (path : list Z) (r : Added) :
  len (chunks idx) = hnsw.Len (graph idx) ->
  AddFileCtx randLevel w idx path = Ret r ->
  len (chunks (after r)) = hnsw.Len (graph (after r)).
Proof.
  intros Heq H. apply AddFileCtx_inv in H as [[-> _]|H]; [exact Heq|].
  destruct H as (_ & _ & _ & info & cs & vecs & log & idx1 & i1
                 & _ & _ & _ & _ & Hfold & ->).
  apply appendChunk_fold in Hfold as (_ & _ & _ & _ & _ & H6 & metas & H7 & H8 & _).
  apply HnswFacts.InsertAll_shape in H6 as (Hl & _).
  simpl. unfold hnsw.Len, len in *. rewrite H7, length_app, Hl. lia.
Qed.

(** X24. A file that has just been indexed is skipped the next time: if
    [AddFileCtx] changed the index and the file system is as it was, a
    second call on the same path returns [skipped = true], writes
    nothing and leaves the index alone. *)
Theorem AddFileCtx_twice_skips (w : World) (idx : Index) (path : list Z) (r : Added) :
  AddFileCtx randLevel w idx path = Ret r ->
  after r <> idx ->
  AddFileCtx randLevel w (after r) path = Ret (mkAdded true None (after r) []).
Proof.
  intros H Hne. apply AddFileCtx_inv in H as [[H _]|H]; [contradiction|].
  destruct H as (_ & _ & Hsup & info & cs & vecs & log & idx1 & i1
                 & Hstat & Hsize & _ & _ & Hfold & ->).
  apply appendChunk_fold in Hfold as (_ & _ & H3 & _).
  unfold AddFileCtx. rewrite Hsup, Hstat. simpl. rewrite H3.
  destruct (Z.ltb_spec (maxFileSizeBytes idx) (Size info)); [lia|].
  rewrite bool_decide_eq_true_2 by apply lookup_insert_eq. reflexivity.
Qed.

(** X25. With an embedder that answers one vector per text, a file that
    is indexed is indexed whole: every chunk [ChunkFile] returned has its
    record, in the order of the file, with its offsets, line number, index and
    preview, and the graph has one more node per chunk. *)
Theorem AddFileCtx_records_every_chunk (w : World) (idx : Index) (path : list Z)
    (r : Added) :
  one_per_text w ->
  AddFileCtx randLevel w idx path = Ret r ->
  after r <> idx ->
  exists info cs,
    os_Stat w path = Some info
    /\ chunker.ChunkFile w path chunker.DefaultOptions = Ret (inr cs)
    /\ chunks (after r) = chunks idx ++ map (recordOf path (ModTime info)) cs
    /\ hnsw.Len (graph (after r)) = hnsw.Len (graph idx) + len cs.
Proof.
  intros Hone H Hne. apply AddFileCtx_inv in H as [[H _]|H]; [contradiction|].
  destruct H as (_ & _ & _ & info & cs & vecs & log & idx1 & i1
                 & Hstat & _ & Hchunk & Hemb & Hfold & ->).
  apply (embedBatches_length _ _ _ _ _ _ _ _ _ _ _ Hone) in Hemb; [|lia].
  assert (Hlen : length vecs = length cs).
  { unfold len, batchSize in Hemb. simpl in Hemb.
    pose proof (Z.div_mod (Z.of_nat (length cs) + 4 - 1) 4).
    pose proof (Z.mod_pos_bound (Z.of_nat (length cs) + 4 - 1) 4).
    rewrite Z2Nat.id in Hemb by (apply Z.div_pos; lia). lia. }
  pose proof (appendChunk_records _ _ _ _ _ _ _ _ (Z.le_refl 0) Hfold) as Hrec.
  apply appendChunk_fold in Hfold as (_ & _ & _ & _ & _ & H6 & _).
  apply HnswFacts.InsertAll_shape in H6 as (Hl & _).
  exists info, cs. split; [exact Hstat|]. split; [exact Hchunk|]. simpl. split.
  - rewrite Hrec, Hlen. change (Z.to_nat 0) with 0%nat. by rewrite drop_0, firstn_all.
  - unfold hnsw.Len, len. rewrite Hl, Hlen. lia.
Qed.

End WithRng.

(** *** The skip-cache built by Open *)

Lemma buildFileCache_fold (cs : list ChunkMeta) (cache : gmap (list Z) Z) (p : list Z) :
  let step := fun (cache : gmap (list Z) Z) c =>
                match cache !! Path c with
                | Some existing =>
                    if existing <? Mtime c then <[Path c := Mtime c]> cache else cache
                | None => <[Path c := Mtime c]> cache
                end in
  match fold_left step cs cache !! p with
  | None => cache !! p = None /\ forall c, c ∈ cs -> Path c <> p
  | Some t =>
      (cache !! p = Some t \/ exists c, c ∈ cs /\ Path c = p /\ Mtime c = t)
      /\ (forall t0, cache !! p = Some t0 -> t0 <= t)
      /\ forall c, c ∈ cs -> Path c = p -> Mtime c <= t
  end.
Proof.
  intros step. revert cache. induction cs as [|c cs IH]; intros cache.
  - simpl. destruct (cache !! p) as [t|] eqn:E.
    + split; [by left|]. split; [intros t0 [= <-]; lia|]. intros c Hc. by apply elem_of_nil in Hc.
    + split; [reflexivity|]. intros c Hc. by apply elem_of_nil in Hc.
  - cbn [fold_left]. specialize (IH (step cache c)).
    assert (Hstep : step cache c !! p =
              if decide (Path c = p)
              then match cache !! p with
                   | Some e => Some (if e <? Mtime c then Mtime c else e)
                   | None => Some (Mtime c)
                   end
              else cache !! p).
    { unfold step. destruct (decide (Path c = p)) as [<-|Hne].
      - destruct (cache !! Path c) as [e|] eqn:E.
        + destruct (e <? Mtime c); [by rewrite lookup_insert_eq | exact E].
        + by rewrite lookup_insert_eq.
      - destruct (cache !! Path c) as [e|] eqn:E.
        + destruct (e <? Mtime c); [by rewrite lookup_insert_ne | reflexivity].
        + by rewrite lookup_insert_ne. }
    destruct (fold_left step cs (step cache c) !! p) as [t|] eqn:Ef.
    + destruct IH as (Hsrc & Hlow & Hall). rewrite Hstep in Hsrc, Hlow.
      destruct (decide (Path c = p)) as [Hp|Hp].
      * destruct (cache !! p) as [e|] eqn:E.
        -- destruct (Z.ltb_spec e (Mtime c)) as [Hlt|Hge].
           ++ specialize (Hlow _ eq_refl). split.
              { destruct Hsrc as [[= <-]|(c' & Hin & H1 & H2)].
                - right. exists c. split; [apply list_elem_of_here | auto].
                - right. exists c'. split; [by apply list_elem_of_further | auto]. }
              split; [intros t0 [= <-]; lia|].
              intros c' Hc' Hp'. apply elem_of_cons in Hc' as [->|Hc']; [lia | by apply Hall].
           ++ specialize (Hlow _ eq_refl). split.
              { destruct Hsrc as [[= <-]|(c' & Hin & H1 & H2)].
                - by left.
                - right. exists c'. split; [by apply list_elem_of_further | auto]. }
              split; [intros t0 [= <-]; lia|].
              intros c' Hc' Hp'. apply elem_of_cons in Hc' as [->|Hc']; [lia | by apply Hall].
        -- specialize (Hlow _ eq_refl). split.
           { destruct Hsrc as [[= <-]|(c' & Hin & H1 & H2)].
             - right. exists c. split; [apply list_elem_of_here | auto].
             - right. exists c'. split; [by apply list_elem_of_further | auto]. }
           split; [discriminate|].
           intros c' Hc' Hp'. apply elem_of_cons in Hc' as [->|Hc']; [lia | by apply Hall].
      * split.
        { destruct Hsrc as [Hsrc|(c' & Hin & H1 & H2)]; [by left|].
          right. exists c'. split; [by apply list_elem_of_further | auto]. }
        split; [exact Hlow|].
        intros c' Hc' Hp'. apply elem_of_cons in Hc' as [->|Hc']; [done | by apply Hall].
    + destruct IH as (Hnone & Hall). rewrite Hstep in Hnone.
      destruct (decide (Path c = p)) as [Hp|Hp].
      * destruct (cache !! p); discriminate.
      * split; [exact Hnone|].
        intros c' Hc'. apply elem_of_cons in Hc' as [->|Hc']; [exact Hp | by apply Hall].
Qed.

(** X26. The skip-cache [Open] builds from the loaded records holds, for
    each path that has a record, the latest mtime among the records of that
    path, and holds nothing for any other path. *)
Theorem buildFileCache_latest (cs : list ChunkMeta) (p : list Z) :
  match buildFileCache cs !! p with
  | None => forall c, c ∈ cs -> Path c <> p
  | Some t =>
      (exists c, c ∈ cs /\ Path c = p /\ Mtime c = t)
      /\ forall c, c ∈ cs -> Path c = p -> Mtime c <= t
  end.
Proof.
  pose proof (buildFileCache_fold cs ∅ p) as H. simpl in H.
  unfold buildFileCache.
  destruct (fold_left _ cs ∅ !! p) as [t|].
  - destruct H as ([H|H] & _ & Hall); [by rewrite lookup_empty in H | by split].
  - by destruct H.
Qed.


(** *** Witnesses *)


Lemma AddFileCtx_keeps_step_witness :
  exists r,
    AddFileCtx examples.flat (examples.notesWorld 5) examples.emptyIndex (str "notes.md") = Ret r
    /\ len (chunks (after r)) = hnsw.Len (graph (after r)).
Proof.
  eexists. split; [vm_compute; reflexivity|].
  apply (AddFileCtx_keeps_step examples.flat (examples.notesWorld 5)
           examples.emptyIndex (str "notes.md")); [reflexivity|].
  vm_compute. reflexivity.
Defined.

Lemma AddFileCtx_twice_skips_witness :
  exists r,
    AddFileCtx examples.flat (examples.notesWorld 5) examples.emptyIndex (str "notes.md") = Ret r
    /\ dirty (after r) = true
    /\ AddFileCtx examples.flat (examples.notesWorld 5) (after r) (str "notes.md")
       = Ret (mkAdded true None (after r) []).
Proof.
  eexists. split; [vm_compute; reflexivity|]. split; [reflexivity|].
  apply (AddFileCtx_twice_skips examples.flat (examples.notesWorld 5)
           examples.emptyIndex (str "notes.md")); [vm_compute; reflexivity|].
  intros E. apply (f_equal dirty) in E. discriminate.
Defined.

Lemma AddFileCtx_records_every_chunk_witness :
  AddFileCtx examples.flat (examples.notesWorld 5) examples.emptyIndex (str "notes.md")
    = Ret (mkAdded false None examples.indexedNotes [])
  /\ exists info cs,
       os_Stat (examples.notesWorld 5) (str "notes.md") = Some info
       /\ chunker.ChunkFile (examples.notesWorld 5) (str "notes.md") chunker.DefaultOptions
          = Ret (inr cs)
       /\ chunks examples.indexedNotes
          = chunks examples.emptyIndex ++ map (recordOf (str "notes.md") (ModTime info)) cs
       /\ hnsw.Len (graph examples.indexedNotes)
          = hnsw.Len (graph examples.emptyIndex) + len cs.
Proof.
  assert (E : AddFileCtx examples.flat (examples.notesWorld 5) examples.emptyIndex
                (str "notes.md") = Ret (mkAdded false None examples.indexedNotes []))
    by (vm_compute; reflexivity).
  split; [exact E|].
  apply (AddFileCtx_records_every_chunk examples.flat (examples.notesWorld 5)
           examples.emptyIndex (str "notes.md") (mkAdded false None examples.indexedNotes [])).
  - intros texts vs [= <-]. apply length_map.
  - exact E.
  - intros E'. apply (f_equal dirty) in E'. discriminate.
Defined.

End AddFacts.

(** ** Search over the index *)

Module SearchFacts.
Import index.

Lemma rerank_metas (w : World) (idx : Index) (queryWords : list (list Z))
    (hits : list hnsw.Result) (l : list scoredHit) :
  rerank w idx queryWords hits = Ret l ->
  Forall (fun sh => meta sh ∈ chunks idx) l.
Proof.
  revert l. induction hits as [|h hits IH]; intros l H; simpl in H.
  - injection H as <-. constructor.
  - run_inv H as r Hr. run_inv H as rest Hrest. injection H as <-.
    specialize (IH _ Hrest). destruct r as [sh|]; [|exact IH].
    constructor; [|exact IH].
    unfold rerankHit in Hr. destruct (len (chunks idx) <=? hnsw.ID h); [discriminate|].
    run_inv Hr as mt Hmt. apply index_Ret in Hmt as [_ Hmt].
    apply list_elem_of_lookup_2 in Hmt.
    destruct (os_Open w (Path mt)) as [content|]; [|by injection Hr as [= <-]].
    destruct (EndByte mt - StartByte mt <? 0); [discriminate|].
    destruct (ReadAt content (StartByte mt) (EndByte mt - StartByte mt));
      by injection Hr as [= <-].
Qed.

(** The last loop of [Search]: what is in [seen] are the paths of the
    results so far; the loop adds results at the end, never two for a path,
    and stops at [k]. *)
Lemma dedup_spec (k : Z) (l : list scoredHit) (seen : gset (list Z))
    (res : list SearchResult) :
  NoDup (map (fun r => Path (Meta r)) res) ->
  (forall p, p ∈ seen <-> p ∈ map (fun r => Path (Meta r)) res) ->
  exists ext,
    dedup k l seen res = res ++ ext
    /\ NoDup (map (fun r => Path (Meta r)) (res ++ ext))
    /\ len (res ++ ext) <= Z.max k (len res)
    /\ Forall (fun r => exists h, h ∈ l /\ r = mkSearchResult (meta h) (score h)) ext
    /\ (len (res ++ ext) < k ->
        forall h, h ∈ l -> Path (meta h) ∈ map (fun r => Path (Meta r)) (res ++ ext)).
Proof.
  revert seen res. induction l as [|h l IH]; intros seen res Hnd Hseen; cbn [dedup].
  - exists []. rewrite app_nil_r. split; [reflexivity|]. split; [exact Hnd|].
    split; [lia|]. split; [constructor|]. intros _ h Hh. by apply elem_of_nil in Hh.
  - destruct (Z.leb_spec k (len res)) as [Hfull|Hroom].
    { exists []. rewrite app_nil_r. split; [reflexivity|]. split; [exact Hnd|].
      split; [lia|]. split; [constructor|]. lia. }
    destruct (decide (Path (meta h) ∈ seen)) as [Hin|Hout].
    + destruct (IH seen res Hnd Hseen) as (ext & He & H1 & H2 & H3 & H4).
      exists ext. split; [exact He|]. split; [exact H1|]. split; [exact H2|]. split.
      * eapply Forall_impl; [exact H3|]. intros r (h' & Hh' & Hr).
        exists h'. split; [by apply list_elem_of_further | exact Hr].
      * intros Hlt h' Hh'. apply elem_of_cons in Hh' as [->|Hh']; [|by apply H4].
        apply Hseen in Hin. rewrite map_app. apply list_elem_of_In, in_or_app. left.
        by apply list_elem_of_In.
    + set (r := mkSearchResult (meta h) (score h)).
      destruct (IH ({[Path (meta h)]} ∪ seen) (res ++ [r])) as (ext & He & H1 & H2 & H3 & H4).
      { rewrite map_app. simpl. apply NoDup_app. split; [exact Hnd|].
        split; [|apply NoDup_singleton].
        intros p Hp Hp'. apply list_elem_of_singleton in Hp'. subst p.
        apply Hout, Hseen, Hp. }
      { intros p. rewrite map_app. simpl. rewrite elem_of_union, elem_of_singleton.
        rewrite elem_of_app, list_elem_of_singleton. rewrite Hseen. tauto. }
      exists (r :: ext). rewrite <- app_assoc in He, H1, H2, H4. simpl in He, H1, H2, H4.
      split; [exact He|]. split; [exact H1|]. split.
      { unfold len in *. rewrite !length_app in H2. rewrite length_app. simpl in *. lia. }
      split.
      * constructor; [exists h; split; [apply list_elem_of_here | reflexivity]|].
        eapply Forall_impl; [exact H3|]. intros r' (h' & Hh' & Hr).
        exists h'. split; [by apply list_elem_of_further | exact Hr].
      * intros Hlt h' Hh'. apply elem_of_cons in Hh' as [->|Hh']; [|by apply H4].
        rewrite map_app. simpl. apply elem_of_app. right. apply list_elem_of_here.
Qed.

Section WithSort.
Variable sort_Slice : (scoredHit -> scoredHit -> bool) -> list scoredHit -> list scoredHit.



End WithSort.


(** *** Witnesses *)



End SearchFacts.

(** ** Indexing a directory *)

Module DirFacts.
Import index indexprops indexdir.

Lemma visible_below_step (dir name p : list Z) :
  hidden name = false -> visible_below (Join dir name) p -> visible_below dir p.
Proof.
  intros Hn (names & Hne & -> & Hall).
  exists (name :: names). split; [done|]. split; [reflexivity | by constructor].
Qed.

Lemma walkAll_visible (walk : entry -> WalkError + list (list Z)) (Q : list Z -> Prop)
    (es : list entry) (ps : list (list Z)) :
  Forall (fun e => forall qs, walk e = inr qs -> Forall Q qs) es ->
  walkAll walk es = inr ps -> Forall Q ps.
Proof.
  intros Hes. revert ps. induction Hes as [|e es He Hes IH]; intros ps H; simpl in H.
  - injection H as <-. constructor.
  - destruct (walk e) as [err|qs]; [discriminate|].
    destruct (walkAll walk es) as [err|rs]; [discriminate|].
    injection H as <-. apply Forall_app. split; [by apply He | by apply IH].
Qed.

Lemma walkEntry_visible (e : entry) :
  forall dir ps, walkEntry dir e = inr ps -> Forall (visible_below dir) ps.
Proof.
  induction e as [name|name|name es IH] using entry_induction; intros dir ps H;
    cbn [walkEntry] in H; destruct (hidden name) eqn:Hh.
  - injection H as <-. constructor.
  - injection H as <-. constructor; [|constructor].
    exists [name]. split; [done|]. split; [reflexivity | by constructor].
  - injection H as <-. constructor.
  - discriminate.
  - injection H as <-. constructor.
  - eapply Forall_impl.
    + eapply (walkAll_visible _ (visible_below (Join dir name))); [|exact H].
      eapply Forall_impl; [exact IH|]. intros e He qs Hqs. by apply He.
    + intros p Hp. by eapply visible_below_step.
Qed.

Lemma walkDir_visible (rootDir : list Z) (listing : option (list entry))
    (ps : list (list Z)) :
  walkDir rootDir listing = inr ps -> Forall (visible_below rootDir) ps.
Proof.
  unfold walkDir. destruct listing as [es|]; [|discriminate]. intros H.
  eapply (walkAll_visible _ (visible_below rootDir)); [|exact H].
  apply Forall_forall. intros e _ qs Hqs. by eapply walkEntry_visible.
Qed.


Section WithRng.
Variable randLevel : Z -> nat -> nat.
Variable env : nat -> World.
Variable stop : nat -> bool.

(** The loop over the paths only ever appends records of those paths, and
    keeps records and nodes in step. *)
Lemma addPaths_records (total : Z) (paths : list (list Z)) (i : nat) (idx : Index)
    (calls : list Progress) (log : list Diag) (r : Walked) :
  addPaths randLevel env stop total paths i idx calls log = Ret r ->
  (exists metas, chunks (indexed r) = chunks idx ++ metas
                 /\ Forall (fun mt => Path mt ∈ paths) metas)
  /\ (len (chunks idx) = hnsw.Len (graph idx) ->
      len (chunks (indexed r)) = hnsw.Len (graph (indexed r)))
  /\ (failure r = None \/ failure r = Some ErrCtx).
Proof.
  revert i idx calls log. induction paths as [|p rest IH]; intros i idx calls log H;
    cbn [addPaths] in H.
  - injection H as <-. simpl. split; [exists []; by rewrite app_nil_r|]. auto.
  - destruct (stop i).
    { injection H as <-. simpl. split; [exists []; by rewrite app_nil_r|]. auto. }
    run_inv H as a Ha.
    pose proof (AddFacts.AddFileCtx_grows _ _ _ _ _ Ha) as ((metas & Hm & Hall) & Hstep).
    destruct (err a) as [e|].
    + injection H as <-. simpl. split; [|auto].
      exists metas. split; [exact Hm|].
      eapply Forall_impl; [exact Hall|]. intros mt ->. apply list_elem_of_here.
    + apply IH in H as ((metas' & Hm' & Hall') & Hstep' & Hf).
      split; [|split; [auto | exact Hf]].
      exists (metas ++ metas'). split; [by rewrite Hm', Hm, app_assoc|].
      apply Forall_app. split.
      * eapply Forall_impl; [exact Hall|]. intros mt ->. apply list_elem_of_here.
      * eapply Forall_impl; [exact Hall'|]. intros mt Hmt. by apply list_elem_of_further.
Qed.


End WithRng.

(** *** Witnesses *)



End DirFacts.
